(** * Quiz-App: the document-to-question extraction engine of [app.py]

    A shallow embedding of the text pipeline of [quiz_app_mvp_ins/app.py]
    (normalisation, section index, question segmentation, block parsing,
    reading-comprehension fan-out, type inference and the question hash),
    followed by the properties the specification states about it.

    Python [str] values are sequences of Unicode code points; they are
    modelled as [list N].  The regular expressions of the source are kept as
    syntax trees and run by a backtracking matcher that follows the
    semantics of CPython's [re] module for the constructs the program uses. *)

From Stdlib Require Import String Ascii.
From Stdlib Require Import List NArith ZArith QArith Bool Lia Arith Sorted DecimalPos Permutation.
Import ListNotations.

Set Implicit Arguments.
Close Scope Q_scope.
Local Open Scope list_scope.
Local Open Scope bool_scope.

(* ================================================================== *)
(** * Part I: definitions                                              *)
(* ================================================================== *)

(** ** Strings as code-point sequences *)

Definition str := list N.

(** UTF-8 decoding of a string literal of this file into code points. *)
Fixpoint utf8_go (s : string) (need : nat) (acc : N) : str :=
  match s with
  | EmptyString => []
  | String a s' =>
      let b := N_of_ascii a in
      match need with
      | O =>
          if (b <? 128)%N then b :: utf8_go s' 0 0%N
          else if (b <? 224)%N then utf8_go s' 1 (b - 192)%N
          else if (b <? 240)%N then utf8_go s' 2 (b - 224)%N
          else utf8_go s' 3 (b - 240)%N
      | S O => (acc * 64 + (b - 128))%N :: utf8_go s' 0 0%N
      | S n => utf8_go s' n (acc * 64 + (b - 128))%N
      end
  end.

Definition utf8 (s : string) : str := utf8_go s 0 0%N.

Definition LF : N := 10.
Definition CR : N := 13.
Definition TAB : N := 9.
Definition VT : N := 11.
Definition FF : N := 12.
Definition SP : N := 32.
Definition NBSP : N := 160.

Fixpoint str_eqb (a b : str) : bool :=
  match a, b with
  | [], [] => true
  | x :: a', y :: b' => (x =? y)%N && str_eqb a' b'
  | _, _ => false
  end.

Definition mem_N (c : N) (s : str) : bool := existsb (N.eqb c) s.

(** *** Unicode tables of the Python runtime

    [str.isspace], [str.strip] and the pattern [\s] share one table
    ([Py_UNICODE_ISSPACE]); [\d] and [int()] share the table of decimal
    digits (general category Nd), which comes in runs of ten consecutive
    code points for the digits 0..9.  The tables are those of Unicode 14. *)

Definition is_space (c : N) : bool :=
  ((9 <=? c) && (c <=? 13) || (28 <=? c) && (c <=? 32)
   || (c =? 133) || (c =? 160) || (c =? 5760)
   || (8192 <=? c) && (c <=? 8202)
   || (c =? 8232) || (c =? 8233) || (c =? 8239) || (c =? 8287)
   || (c =? 12288))%N.

Definition digit_starts : list N :=
  [ 0x30; 0x660; 0x6f0; 0x7c0; 0x966; 0x9e6; 0xa66; 0xae6; 0xb66; 0xbe6;
    0xc66; 0xce6; 0xd66; 0xde6; 0xe50; 0xed0; 0xf20; 0x1040; 0x1090;
    0x17e0; 0x1810; 0x1946; 0x19d0; 0x1a80; 0x1a90; 0x1b50; 0x1bb0;
    0x1c40; 0x1c50; 0xa620; 0xa8d0; 0xa900; 0xa9d0; 0xa9f0; 0xaa50;
    0xabf0; 0xff10; 0x104a0; 0x10d30; 0x11066; 0x110f0; 0x11136; 0x111d0;
    0x112f0; 0x11450; 0x114d0; 0x11650; 0x116c0; 0x11730; 0x118e0;
    0x11950; 0x11c50; 0x11d50; 0x11da0; 0x16a60; 0x16ac0; 0x16b50;
    0x1d7ce; 0x1d7d8; 0x1d7e2; 0x1d7ec; 0x1d7f6; 0x1e140; 0x1e2f0;
    0x1e950; 0x1fbf0 ]%N.

Definition in_run (s c : N) : bool := ((s <=? c) && (c <? s + 10))%N.

Definition is_digit (c : N) : bool := existsb (fun s => in_run s c) digit_starts.

(** Value of a decimal digit character (0 for any other character). *)
Definition digit_val (c : N) : N :=
  match find (fun s => in_run s c) digit_starts with
  | Some s => (c - s)%N
  | None => 0%N
  end.

(** The letters A..H that occur in [chr(c).upper()], in order.  Upper-casing
    in Python maps each character on its own (full case mapping), so the
    letters A..H of [s.upper()] are the concatenation of this table over [s].
    Besides a..h and A..H the characters concerned are U+1E96, U+1E9A and
    the ligatures U+FB00..U+FB04. *)
Definition upper_AH (c : N) : str :=
  (if (65 <=? c) && (c <=? 72) then [c]
   else if (97 <=? c) && (c <=? 104) then [c - 32]
   else if c =? 0x1e96 then [72]
   else if c =? 0x1e9a then [65]
   else if c =? 0xfb00 then [70; 70]
   else if c =? 0xfb01 then [70]
   else if c =? 0xfb02 then [70]
   else if c =? 0xfb03 then [70; 70]
   else if c =? 0xfb04 then [70; 70]
   else [])%N.

(** *** [str] methods *)

(** [s.lstrip()] *)
Fixpoint lstrip (s : str) : str :=
  match s with
  | [] => []
  | c :: s' => if is_space c then lstrip s' else s
  end.

(** [s.rstrip()] *)
Fixpoint rstrip (s : str) : str :=
  match s with
  | [] => []
  | c :: s' =>
      match rstrip s' with
      | [] => if is_space c then [] else [c]
      | r => c :: r
      end
  end.

(** [s.strip()] *)
Definition strip (s : str) : str := rstrip (lstrip s).

(** [s.split(sep)] for a one-character separator: never the empty list. *)
Fixpoint split_on (sep : N) (s : str) : list str :=
  match s with
  | [] => [[]]
  | c :: s' =>
      if (c =? sep)%N then [] :: split_on sep s'
      else match split_on sep s' with
           | [] => [[c]]
           | l :: ls => (c :: l) :: ls
           end
  end.

(** [sep.join(parts)] *)
Fixpoint join (sep : str) (parts : list str) : str :=
  match parts with
  | [] => []
  | [p] => p
  | p :: ps => p ++ sep ++ join sep ps
  end.

(** Truthiness of a string. *)
Definition nonempty (s : str) : bool :=
  match s with [] => false | _ => true end.

(** [s[a:b]] for [0 <= a], [0 <= b]. *)
Definition slice (s : str) (a b : nat) : str := firstn (b - a) (skipn a s).

(** [int(s)] on a string of decimal digits.  Python integers are unbounded;
    the interpreter's configurable limit on the length of the numeral is
    not part of the model. *)
Definition int_of_digits (s : str) : N :=
  fold_left (fun acc c => (acc * 10 + digit_val c)%N) s 0%N.

Fixpoint uint_chars (d : Decimal.uint) : str :=
  match d with
  | Decimal.Nil => []
  | Decimal.D0 d => 48%N :: uint_chars d
  | Decimal.D1 d => 49%N :: uint_chars d
  | Decimal.D2 d => 50%N :: uint_chars d
  | Decimal.D3 d => 51%N :: uint_chars d
  | Decimal.D4 d => 52%N :: uint_chars d
  | Decimal.D5 d => 53%N :: uint_chars d
  | Decimal.D6 d => 54%N :: uint_chars d
  | Decimal.D7 d => 55%N :: uint_chars d
  | Decimal.D8 d => 56%N :: uint_chars d
  | Decimal.D9 d => 57%N :: uint_chars d
  end.

(** [str(n)] for a non-negative integer, as interpolated by an f-string. *)
Definition str_of_int (n : N) : str := uint_chars (N.to_uint n).

(** ** Regular expressions

    The fragment of Python's [re] syntax that the program uses.  Repetition
    is only ever applied to a single character class in the source, which
    is what [Rep] offers; [Opt] is the greedy [(?:...)?]. *)

Inductive cls : Type :=
| CChar (c : N)              (* a literal character *)
| CRange (lo hi : N)         (* [lo-hi] *)
| COneOf (s : str)           (* [abc] *)
| CSpace                     (* \s *)
| CDigit                     (* \d *)
| CAny                       (* . (no DOTALL): anything but a newline *)
| COr (a b : cls)            (* union inside one bracket *)
| CNot (a : cls).            (* [^...] *)

Fixpoint cls_mem (k : cls) (c : N) : bool :=
  match k with
  | CChar x => (c =? x)%N
  | CRange lo hi => ((lo <=? c) && (c <=? hi))%N
  | COneOf s => mem_N c s
  | CSpace => is_space c
  | CDigit => is_digit c
  | CAny => negb (c =? LF)%N
  | COr a b => cls_mem a c || cls_mem b c
  | CNot a => negb (cls_mem a c)
  end.

Inductive regex : Type :=
| Eps
| Set_ (k : cls)                               (* one character *)
| Lit (s : str)                                (* a literal string *)
| Seq (a b : regex)
| Alt (a b : regex)                            (* a|b, left first *)
| Rep (k : cls) (lo : nat) (hi : option nat)   (* greedy k{lo,hi} *)
| Opt (a : regex)                              (* greedy (?:a)? *)
| Grp (n : nat) (a : regex)                    (* capturing group number n *)
| Bol (multiline : bool)                       (* ^ *)
| Eol (multiline : bool)                       (* $ *)
| NotAhead (a : regex).                        (* (?!a) *)

Definition Star (k : cls) : regex := Rep k 0 None.
Definition Plus (k : cls) : regex := Rep k 1 None.

(** A position in the subject: offset, the character before it, and the
    remaining text. *)
Record mstate : Type := MState { pos : nat; prev : option N; rest : str }.

Definition start_state (s : str) : mstate := MState 0 None s.

Definition advance (x : N) (r : str) (st : mstate) : mstate :=
  MState (S (pos st)) (Some x) r.

Definition captures := list (nat * str).

Fixpoint group (n : nat) (caps : captures) : option str :=
  match caps with
  | [] => None
  | (m, s) :: caps' => if Nat.eqb n m then Some s else group n caps'
  end.

Definition at_bol (multiline : bool) (st : mstate) : bool :=
  match prev st with
  | None => true
  | Some c => multiline && (c =? LF)%N
  end.

Definition at_eol (multiline : bool) (st : mstate) : bool :=
  match rest st with
  | [] => true
  | c :: r => (c =? LF)%N && (multiline || match r with [] => true | _ => false end)
  end.

Definition hi_allows (hi : option nat) : bool :=
  match hi with Some O => false | _ => true end.

(** Greedy repetition of one character class: take as many characters as
    allowed, then give them back one at a time until the continuation
    succeeds. *)
Fixpoint rep_greedy {A : Type} (k : cls) (lo : nat) (hi : option nat)
    (p : nat) (pv : option N) (r : str) (cont : mstate -> option A) : option A :=
  let stop := match lo with O => cont (MState p pv r) | S _ => None end in
  match r with
  | [] => stop
  | x :: r' =>
      if cls_mem k x && hi_allows hi then
        match rep_greedy k (Nat.pred lo) (option_map Nat.pred hi) (S p) (Some x) r' cont with
        | Some a => Some a
        | None => stop
        end
      else stop
  end.

Fixpoint lit_match (s r : str) : option str :=
  match s, r with
  | [], _ => Some r
  | x :: s', y :: r' => if (x =? y)%N then lit_match s' r' else None
  | _ :: _, [] => None
  end.

Definition last_char (s : str) (d : option N) : option N :=
  match rev s with [] => d | c :: _ => Some c end.

(** The backtracking matcher, in continuation-passing style: [rmatch r st
    caps cont] tries the ways [r] can match at [st] in the order Python
    tries them and returns the first for which [cont] succeeds. *)
Fixpoint rmatch (r : regex) {A : Type} (st : mstate) (caps : captures)
    (cont : mstate -> captures -> option A) {struct r} : option A :=
  match r with
  | Eps => cont st caps
  | Set_ k =>
      match rest st with
      | x :: r' => if cls_mem k x then cont (advance x r' st) caps else None
      | [] => None
      end
  | Lit s =>
      match lit_match s (rest st) with
      | Some r' => cont (MState (pos st + length s) (last_char s (prev st)) r') caps
      | None => None
      end
  | Seq a b => rmatch a st caps (fun st' caps' => rmatch b st' caps' cont)
  | Alt a b =>
      match rmatch a st caps cont with
      | Some x => Some x
      | None => rmatch b st caps cont
      end
  | Rep k lo hi =>
      rep_greedy k lo hi (pos st) (prev st) (rest st) (fun st' => cont st' caps)
  | Opt a =>
      match rmatch a st caps cont with
      | Some x => Some x
      | None => cont st caps
      end
  | Grp n a =>
      rmatch a st caps
        (fun st' caps' => cont st' ((n, firstn (pos st' - pos st) (rest st)) :: caps'))
  | Bol m => if at_bol m st then cont st caps else None
  | Eol m => if at_eol m st then cont st caps else None
  | NotAhead a =>
      match rmatch a st caps (fun _ _ => Some tt) with
      | Some _ => None
      | None => cont st caps
      end
  end.

(** A match object: [m.start()], the position where it ends, its groups. *)
Record mres : Type := MRes { m_start : nat; m_endst : mstate; m_caps : captures }.

Definition m_end (m : mres) : nat := pos (m_endst m).

(** [m.group(n)]; every group read by the program takes part in the match. *)
Definition m_group (n : nat) (m : mres) : str :=
  match group n (m_caps m) with Some s => s | None => [] end.

Definition match_at (r : regex) (st : mstate) : option mres :=
  rmatch r st [] (fun st' caps => Some (MRes (pos st) st' caps)).

(** [pattern.match(s)] *)
Definition re_match (r : regex) (s : str) : option mres :=
  match_at r (start_state s).

Definition is_match (r : regex) (s : str) : bool :=
  match re_match r s with Some _ => true | None => false end.

(** Leftmost match at or after a position. *)
Fixpoint search_from (r : regex) (p : nat) (pv : option N) (s : str) : option mres :=
  match match_at r (MState p pv s) with
  | Some m => Some m
  | None =>
      match s with
      | [] => None
      | x :: s' => search_from r (S p) (Some x) s'
      end
  end.

(** [pattern.search(s)] *)
Definition re_search (r : regex) (s : str) : option mres :=
  search_from r 0 None s.

(** The successive non-overlapping matches.  After a match the scan resumes
    where it ended.  No pattern of the program matches the empty string;
    were a match empty, the scan would step over one character. *)
Fixpoint finditer_from (fuel : nat) (r : regex) (st : mstate) : list mres :=
  match fuel with
  | O => []
  | S fuel' =>
      match search_from r (pos st) (prev st) (rest st) with
      | None => []
      | Some m =>
          let e := m_endst m in
          m :: (if Nat.ltb (m_start m) (pos e) then finditer_from fuel' r e
                else match rest e with
                     | [] => []
                     | x :: r' => finditer_from fuel' r (advance x r' e)
                     end)
      end
  end.

(** [list(pattern.finditer(s))] *)
Definition finditer (r : regex) (s : str) : list mres :=
  finditer_from (S (length s)) r (start_state s).

(** [re.sub(pattern, repl, s, count)] with a literal replacement; [count]
    is [None] for the default (replace all). *)
Fixpoint sub_pieces (repl s : str) (from : nat) (ms : list mres) : str :=
  match ms with
  | [] => skipn from s
  | m :: ms' => slice s from (m_start m) ++ repl ++ sub_pieces repl s (m_end m) ms'
  end.

Definition re_sub (r : regex) (repl : str) (s : str) (count : option nat) : str :=
  let ms := finditer r s in
  let ms := match count with None => ms | Some n => firstn n ms end in
  sub_pieces repl s 0 ms.

(** [re.split(pattern, s, maxsplit=1)] *)
Definition re_split1 (r : regex) (s : str) : list str :=
  match re_search r s with
  | Some m => [firstn (m_start m) s; skipn (m_end m) s]
  | None => [s]
  end.

Declare Scope re_scope.
Delimit Scope re_scope with re.
Notation "a ;; b" := (Seq a b) (at level 61, right associativity) : re_scope.
Notation "a <|> b" := (Alt a b) (at level 62, right associativity) : re_scope.
Local Open Scope re_scope.

(** ** Utils (app.py, lines 53-85) *)

(** "\r\n?", "[\t\f\v]", "[ \u00A0]+" and "\n{3,}" *)
Definition RE_CRLF : regex := Set_ (CChar CR) ;; Opt (Set_ (CChar LF)).
Definition RE_TABS : regex := Set_ (COneOf [TAB; FF; VT]).
Definition RE_SPACES : regex := Plus (COneOf [SP; NBSP]).
Definition RE_NEWLINES : regex := Rep (CChar LF) 3 None.

Definition normalize_spaces (s : str) : str :=
  let s := re_sub RE_CRLF [LF] s None in
  let s := re_sub RE_TABS [SP] s None in
  let s := re_sub RE_SPACES [SP] s None in
  let s := re_sub RE_NEWLINES [LF; LF] s None in
  strip (join [LF] (map rstrip (split_on LF s))).

Fixpoint dedup (s : str) : str :=
  match s with
  | [] => []
  | c :: s' => if mem_N c s' then dedup s' else c :: dedup s'
  end.

Fixpoint insert_sorted (c : N) (s : str) : str :=
  match s with
  | [] => [c]
  | d :: s' => if (c <=? d)%N then c :: s else d :: insert_sorted c s'
  end.

(** [sorted(...)] on characters *)
Definition sorted_chars (s : str) : str := fold_right insert_sorted [] s.

(** [norm_letters]: the letters A..H of [s.upper()], as a sorted set. *)
Definition norm_letters (s : str) : str :=
  let letters := flat_map upper_AH s in
  sorted_chars (dedup letters).

(** ** Parsing rules (app.py, lines 179-268) *)

Definition S_UNKNOWN : str := Eval cbv in utf8 "未知".
Definition S_SINGLE : str := Eval cbv in utf8 "单选题".
Definition S_SINGLE_LONG : str := Eval cbv in utf8 "单项选择题".
Definition S_MULTI : str := Eval cbv in utf8 "多选题".
Definition S_MULTI_LONG : str := Eval cbv in utf8 "多项选择题".
Definition S_JUDGE : str := Eval cbv in utf8 "判断题".
Definition S_FILL : str := Eval cbv in utf8 "填空题".
Definition S_READING : str := Eval cbv in utf8 "阅读理解".
Definition S_SHORT : str := Eval cbv in utf8 "简答题".

(** [一二三四五六七八九十\d] and [、\.] *)
Definition ENUM_CHARS : str := Eval cbv in utf8 "一二三四五六七八九十".
Definition ENUM_SEPS : str := Eval cbv in utf8 "、.".
Definition C_ENUM : cls := COr (COneOf ENUM_CHARS) CDigit.

(** Under (?m): "^\s*", then optionally "[一二三四五六七八九十\d]+[、\.]\s*"
    as one non-capturing group, then "(?:NAMES)\s*$". *)
Definition section_pattern (names : regex) : regex :=
  Bol true ;; Star CSpace ;;
  Opt (Plus C_ENUM ;; Set_ (COneOf ENUM_SEPS) ;; Star CSpace) ;;
  names ;; Star CSpace ;; Eol true.

Definition SECTION_PATTERNS : list (regex * str) :=
  [ (section_pattern (Lit S_SINGLE_LONG <|> Lit S_SINGLE), S_SINGLE);
    (section_pattern (Lit S_MULTI_LONG <|> Lit S_MULTI), S_MULTI);
    (section_pattern (Lit S_JUDGE), S_JUDGE);
    (section_pattern (Lit S_FILL), S_FILL);
    (section_pattern (Lit S_READING), S_READING);
    (section_pattern (Lit S_SHORT), S_SHORT) ].

Definition marker := (nat * str)%type.

Fixpoint insert_marker (x : marker) (l : list marker) : list marker :=
  match l with
  | [] => [x]
  | y :: l' => if Nat.leb (fst x) (fst y) then x :: l else y :: insert_marker x l'
  end.

(** [markers.sort(key=lambda x: x[0])]: a stable sort on the position. *)
Definition sort_markers (l : list marker) : list marker :=
  fold_right insert_marker [] l.

Definition build_section_markers (text : str) : list marker :=
  let markers :=
    flat_map (fun pn : regex * str =>
                map (fun m => (m_start m, snd pn)) (finditer (fst pn) text))
             SECTION_PATTERNS in
  sort_markers markers.

Fixpoint section_at_loop (markers : list marker) (p : nat) (cur : str) : str :=
  match markers with
  | [] => cur
  | (q, name) :: tl => if Nat.leb q p then section_at_loop tl p name else cur
  end.

Definition section_at (markers : list marker) (p : nat) : str :=
  section_at_loop markers p S_UNKNOWN.

Definition C_DUNHAO : N := Eval cbv in hd 0%N (utf8 "、").
Definition C_DOT : N := 46.
Definition OPT_SEPS : str := Eval cbv in utf8 "、.)".
Definition COLONS : str := Eval cbv in utf8 ":：".
Definition OPEN_PARENS : str := Eval cbv in utf8 "（(".
Definition CLOSE_PARENS : str := Eval cbv in utf8 "）)".
Definition C_LETTER : cls := CRange 65 72.

(** "(?m)^\s*(\d+)(?:、|\.(?!\d))\s*" *)
Definition QSTART : regex :=
  Bol true ;; Star CSpace ;; Grp 1 (Plus CDigit) ;;
  (Set_ (CChar C_DUNHAO) <|> Set_ (CChar C_DOT) ;; NotAhead (Set_ CDigit)) ;;
  Star CSpace.

(** "^([A-H])[、\.)]$" *)
Definition OPT_SINGLE : regex :=
  Bol false ;; Grp 1 (Set_ C_LETTER) ;; Set_ (COneOf OPT_SEPS) ;; Eol false.

(** "^([A-H])[、\.)]\s*(.+)$" *)
Definition OPT_INLINE : regex :=
  Bol false ;; Grp 1 (Set_ C_LETTER) ;; Set_ (COneOf OPT_SEPS) ;; Star CSpace ;;
  Grp 2 (Plus CAny) ;; Eol false.

Definition S_ANS1 : str := Eval cbv in utf8 "正确答案".
Definition S_ANS2 : str := Eval cbv in utf8 "参考答案".
Definition S_ANS3 : str := Eval cbv in utf8 "答案".
Definition S_ANA1 : str := Eval cbv in utf8 "解析".
Definition S_ANA2 : str := Eval cbv in utf8 "答案解析".

(** "^(正确答案|参考答案|答案)\s*[:：]?" *)
Definition ANS_MARK : regex :=
  Bol false ;; Grp 1 (Lit S_ANS1 <|> Lit S_ANS2 <|> Lit S_ANS3) ;; Star CSpace ;;
  Opt (Set_ (COneOf COLONS)).

(** "^(解析|答案解析)\s*[:：]?" *)
Definition ANA_MARK : regex :=
  Bol false ;; Grp 1 (Lit S_ANA1 <|> Lit S_ANA2) ;; Star CSpace ;;
  Opt (Set_ (COneOf COLONS)).

(** "(?m)^\s*[（\(](\d{1,2})[）\)]\s*[、\.)]" *)
Definition SUBQ_START : regex :=
  Bol true ;; Star CSpace ;; Set_ (COneOf OPEN_PARENS) ;;
  Grp 1 (Rep CDigit 1 (Some 2)) ;; Set_ (COneOf CLOSE_PARENS) ;; Star CSpace ;;
  Set_ (COneOf OPT_SEPS).

(** [re.split(r"[:：]", l, maxsplit=1)] *)
Definition split_colon (l : str) : list str := re_split1 (Set_ (COneOf COLONS)) l.

(** The first index [j >= i] of a line that is not blank, or [len(lines)]. *)
Fixpoint skip_blank (rem : list str) (j : nat) : nat :=
  match rem with
  | [] => j
  | l :: tl => if nonempty (strip l) then j else skip_blank tl (S j)
  end.

(** The loop of [parse_answer_from_lines]; [rem] is [lines[i:]]. *)
Fixpoint answer_loop (lines rem : list str) (i : nat) : str * nat :=
  match rem with
  | [] => ([], List.length lines)
  | l :: tl =>
      if is_match ANS_MARK l then
        let next_line :=
          let j := skip_blank tl (S i) in
          (match nth_error lines j with Some x => strip x | None => [] end, S j) in
        match split_colon l with
        | [_; p1] => if nonempty (strip p1) then (strip p1, S i) else next_line
        | _ => next_line
        end
      else answer_loop lines tl (S i)
  end.

Definition parse_answer_from_lines (lines : list str) (start_idx : nat) : str * nat :=
  answer_loop lines (skipn start_idx lines) start_idx.

(** The loop of [parse_analysis_from_lines]; [rem] is [lines[i:]]. *)
Fixpoint analysis_loop (rem : list str) : str :=
  match rem with
  | [] => []
  | l :: tl =>
      if is_match ANA_MARK l then
        let rest_lines := strip (join [SP] tl) in
        match split_colon l with
        | [_; p1] => if nonempty (strip p1) then strip p1 else rest_lines
        | _ => rest_lines
        end
      else analysis_loop tl
  end.

Definition parse_analysis_from_lines (lines : list str) (start_idx : nat) : str :=
  analysis_loop (skipn start_idx lines).

Inductive qkind : Type :=
| qt_judge | qt_multi | qt_single | qt_choice | qt_fill | qt_short | qt_text.

(** The string each kind stands for in the source. *)
Definition qtype_str (q : qkind) : str :=
  match q with
  | qt_judge => utf8 "judge"
  | qt_multi => utf8 "multi"
  | qt_single => utf8 "single"
  | qt_choice => utf8 "choice"
  | qt_fill => utf8 "fill"
  | qt_short => utf8 "short"
  | qt_text => utf8 "text"
  end.

(** An option: the dict [{"key": ..., "text": ...}]. *)
Record option_ : Type := Option_ { opt_key : str; opt_text : str }.

Definition infer_qtype (section : str) (options : list option_) (answer : str) : qkind :=
  if str_eqb section S_JUDGE then qt_judge
  else match options with
       | _ :: _ =>
           let letters := norm_letters answer in
           if Nat.leb 2 (List.length letters) then qt_multi
           else if Nat.eqb (List.length letters) 1 then qt_single
           else qt_choice
       | [] =>
           if str_eqb section S_FILL then qt_fill
           else if str_eqb section S_SHORT then qt_short
           else if str_eqb section S_READING then qt_text
           else qt_text
       end.

(** ** Question records and block parsing (app.py, lines 271-423) *)

(** A question: the dict built by the parsers.  [score] is the value of the
    decimal numeral handed to [float()], kept exact. *)
Record question : Type := Question {
  source : str;
  number_in_source : N;
  section : str;
  qtype : qkind;
  stem : str;
  options : list option_;
  answer : str;
  analysis : str;
  score : option Q
}.

(** [[re.sub(r"\s+", " ", l).strip() for l in s.split("\n")]] without the
    lines that come out empty. *)
Definition clean_line (l : str) : str := strip (re_sub (Plus CSpace) [SP] l None).

Definition clean_lines (s : str) : list str :=
  filter nonempty (map clean_line (split_on LF s)).

(** "^\s*{number_in_source}[、\.]\s*", with or without (?m). *)
Definition number_mark (multiline : bool) (number : N) : regex :=
  Bol multiline ;; Star CSpace ;; Lit (str_of_int number) ;;
  Set_ (COneOf ENUM_SEPS) ;; Star CSpace.

Definition C_FW_OPEN : N := Eval cbv in hd 0%N (utf8 "（").
Definition C_FW_CLOSE : N := Eval cbv in hd 0%N (utf8 "）").

(** "（\s*(\d+(?:\.\d+)?)\s*）" and the same without the group. *)
Definition SCORE_MARK : regex :=
  Set_ (CChar C_FW_OPEN) ;; Star CSpace ;;
  Grp 1 (Plus CDigit ;; Opt (Set_ (CChar C_DOT) ;; Plus CDigit)) ;;
  Star CSpace ;; Set_ (CChar C_FW_CLOSE).

Definition SCORE_STRIP : regex :=
  Set_ (CChar C_FW_OPEN) ;; Star CSpace ;;
  (Plus CDigit ;; Opt (Set_ (CChar C_DOT) ;; Plus CDigit)) ;;
  Star CSpace ;; Set_ (CChar C_FW_CLOSE).

(** [float(s)] on a numeral "\d+(?:\.\d+)?", before rounding. *)
Definition float_of_numeral (s : str) : Q :=
  match split_on C_DOT s with
  | ip :: fp :: _ =>
      Qmake (Z.of_N (int_of_digits (ip ++ fp)))
            (Z.to_pos (10 ^ Z.of_nat (List.length fp)))
  | _ => Qmake (Z.of_N (int_of_digits s)) 1
  end.

Definition stem_stop (l : str) : bool :=
  is_match ANS_MARK l || is_match OPT_SINGLE l || is_match OPT_INLINE l.

(** First loop of [parse_block_common]; [rem] is [lines[i:]].  Returns the
    lines appended to [stem_parts] and the index reached. *)
Fixpoint stem_loop (rem : list str) (i : nat) : list str * nat :=
  match rem with
  | [] => ([], i)
  | l :: tl =>
      if stem_stop l then ([], i)
      else let '(parts, j) := stem_loop tl (S i) in (l :: parts, j)
  end.

(** Second loop of [parse_block_common]; [rem] is [lines[i:]]. *)
Fixpoint options_loop (rem : list str) (i : nat) : list option_ * nat :=
  match rem with
  | [] => ([], i)
  | l :: tl =>
      if is_match ANS_MARK l then ([], i)
      else
        match re_match OPT_SINGLE l with
        | Some m1 =>
            match tl with
            | l2 :: tl2 =>
                if negb (is_match ANS_MARK l2) then
                  let '(os, j) := options_loop tl2 (S (S i)) in
                  (Option_ (m_group 1 m1) l2 :: os, j)
                else options_loop tl (S i)
            | [] => options_loop tl (S i)
            end
        | None =>
            match re_match OPT_INLINE l with
            | Some m2 =>
                let '(os, j) := options_loop tl (S i) in
                (Option_ (m_group 1 m2) (m_group 2 m2) :: os, j)
            | None => options_loop tl (S i)
            end
        end
  end.

Definition parse_block_common (block_text : str) (number : N) (sec : str)
    (source_name : str) : list question :=
  let lines := clean_lines block_text in
  match lines with
  | [] => []
  | line0 :: _ =>
      let first := strip (re_sub (number_mark false number) [] line0 None) in
      let '(score, first) :=
        match re_search SCORE_MARK first with
        | Some mscore =>
            (Some (float_of_numeral (m_group 1 mscore)),
             strip (re_sub SCORE_STRIP [] first None))
        | None => (None, first)
        end in
      let '(more, i) := stem_loop (skipn 1 lines) 1 in
      let stem_parts := first :: more in
      let '(opts, i) := options_loop (skipn i lines) i in
      let '(ans, next_idx) := parse_answer_from_lines lines i in
      let ana := parse_analysis_from_lines lines next_idx in
      let stem := strip (join [SP] stem_parts) in
      let qt := infer_qtype sec opts ans in
      [ Question source_name number sec qt stem opts (strip ans) (strip ana) score ]
  end.

Definition S_PASSAGE_TAG : str := Eval cbv in utf8 "【阅读材料】".

(** "^\s*[（\(]\d+[）\)]\s*" *)
Definition SUBQ_STRIP : regex :=
  Bol false ;; Star CSpace ;; Set_ (COneOf OPEN_PARENS) ;; Plus CDigit ;;
  Set_ (COneOf CLOSE_PARENS) ;; Star CSpace.

(** The lines before the first answer marker. *)
Fixpoint stem_lines_of (lines : list str) : list str :=
  match lines with
  | [] => []
  | l :: tl => if is_match ANS_MARK l then [] else l :: stem_lines_of tl
  end.

(** The f-strings of [split_reading_block]. *)
Definition full_stem_of (passage sub_no stm : str) : str :=
  if nonempty passage then
    strip (S_PASSAGE_TAG ++ passage ++ [LF; LF] ++ utf8 "(" ++ sub_no ++ utf8 ") " ++ stm)
  else
    strip (utf8 "(" ++ sub_no ++ utf8 ") " ++ stm).

(** The cleaned lines of one sub-question: the text from its marker [m] up
    to [e], without the leading "(k)". *)
Definition sub_lines (block_wo_num : str) (m : mres) (e : nat) : list str :=
  let sub_text := strip (slice block_wo_num (m_start m) e) in
  let sub_text := strip (re_sub SUBQ_STRIP [] sub_text None) in
  clean_lines sub_text.

(** One turn of the loop over [subs]: [m] is the marker, [e] where the
    sub-question ends. *)
Definition sub_record (block_wo_num passage : str) (number : N)
    (source_name : str) (m : mres) (e : nat) : question :=
  let sub_no := m_group 1 m in
  let lines := sub_lines block_wo_num m e in
  let '(ans, next_idx) := parse_answer_from_lines lines 0 in
  let ana := parse_analysis_from_lines lines next_idx in
  let stm := strip (join [SP] (stem_lines_of lines)) in
  Question source_name number S_READING qt_text (full_stem_of passage sub_no stm)
           [] (strip ans) (strip ana) None.

Fixpoint sub_records (block_wo_num passage : str) (number : N)
    (source_name : str) (subs : list mres) : list question :=
  match subs with
  | [] => []
  | m :: tl =>
      let e := match tl with
               | m' :: _ => m_start m'
               | [] => List.length block_wo_num
               end in
      sub_record block_wo_num passage number source_name m e
        :: sub_records block_wo_num passage number source_name tl
  end.

Definition strip_number (block_text : str) (number : N) : str :=
  strip (re_sub (number_mark true number) [] block_text (Some 1)).

Definition split_reading_block (block_text : str) (number : N)
    (source_name : str) : list question :=
  let block_wo_num := strip_number block_text number in
  let subs := finditer SUBQ_START block_wo_num in
  match subs with
  | [] => parse_block_common block_text number S_READING source_name
  | m0 :: _ =>
      let passage := strip (firstn (m_start m0) block_wo_num) in
      sub_records block_wo_num passage number source_name subs
  end.

(** The spans [(start, end, number)] cut at the question starts. *)
Fixpoint blocks_of (text_len : nat) (ms : list mres) : list (nat * nat * N) :=
  match ms with
  | [] => []
  | m :: tl =>
      let e := match tl with
               | m' :: _ => m_start m'
               | [] => text_len
               end in
      (m_start m, e, int_of_digits (m_group 1 m)) :: blocks_of text_len tl
  end.

Definition segment (text : str) : list (nat * nat * N) :=
  blocks_of (List.length text) (finditer QSTART text).

Definition parse_block (text : str) (markers : list marker) (source_name : str)
    (b : nat * nat * N) : list question :=
  let '(s, e, number) := b in
  let sec := section_at markers s in
  let block := strip (slice text s e) in
  if str_eqb sec S_READING then split_reading_block block number source_name
  else parse_block_common block number sec source_name.

Definition parse_questions (plain_text source_name : str) : list question :=
  let text := normalize_spaces plain_text in
  let markers := build_section_markers text in
  let blocks := segment text in
  flat_map (parse_block text markers source_name) blocks.

(** ** The question hash (app.py, lines 53-54 and 485-496) *)

Definition hex_digit (n : N) : N := (if n <? 10 then 48 + n else 87 + n)%N.

(** The escapes of [json.dumps(..., ensure_ascii=False)]. *)
Definition json_escape (c : N) : str :=
  (if c =? 34 then [92; 34]
   else if c =? 92 then [92; 92]
   else if c =? 10 then [92; 110]
   else if c =? 13 then [92; 114]
   else if c =? 9 then [92; 116]
   else if c =? 8 then [92; 98]
   else if c =? 12 then [92; 102]
   else if c <? 32 then [92; 117; 48; 48; hex_digit (c / 16); hex_digit (c mod 16)]
   else [c])%N.

Definition json_str (s : str) : str := 34%N :: flat_map json_escape s ++ [34%N].

Definition json_option (o : option_) : str :=
  utf8 "{" ++ json_str (utf8 "key") ++ utf8 ": " ++ json_str (opt_key o) ++ utf8 ", "
  ++ json_str (utf8 "text") ++ utf8 ": " ++ json_str (opt_text o) ++ utf8 "}".

Definition json_options (os : list option_) : str :=
  utf8 "[" ++ join (utf8 ", ") (map json_option os) ++ utf8 "]".

(** [json.dumps({"stem":..., "options":..., "answer":..., "section":...},
    ensure_ascii=False, sort_keys=True)] *)
Definition hash_base (q : question) : str :=
  utf8 "{" ++ json_str (utf8 "answer") ++ utf8 ": " ++ json_str (answer q) ++ utf8 ", "
  ++ json_str (utf8 "options") ++ utf8 ": " ++ json_options (options q) ++ utf8 ", "
  ++ json_str (utf8 "section") ++ utf8 ": " ++ json_str (section q) ++ utf8 ", "
  ++ json_str (utf8 "stem") ++ utf8 ": " ++ json_str (stem q) ++ utf8 "}".

(** [s.encode("utf-8", errors="ignore")]: lone surrogates are dropped. *)
Definition utf8_encode_char (c : N) : list N :=
  (if c <? 0x80 then [c]
   else if c <? 0x800 then [0xC0 + c / 64; 0x80 + c mod 64]
   else if c <? 0x10000 then
     if (0xD800 <=? c) && (c <=? 0xDFFF) then []
     else [0xE0 + c / 4096; 0x80 + (c / 64) mod 64; 0x80 + c mod 64]
   else [0xF0 + c / 262144; 0x80 + (c / 4096) mod 64; 0x80 + (c / 64) mod 64;
         0x80 + c mod 64])%N.

Definition utf8_encode (s : str) : list N := flat_map utf8_encode_char s.

Section Hash.

(** [hashlib.sha1(bytes).hexdigest()], a function of the standard library. *)
Variable sha1_hexdigest : list N -> str.

Definition sha1_text (s : str) : str := sha1_hexdigest (utf8_encode s).

(** The [qhash] that [upsert_questions] computes for a question. *)
Definition qhash (q : question) : str := sha1_text (hash_base q).

End Hash.

(** ** Judging a true/false answer (app.py, lines 71-85) *)

Definition TRUE_WORDS : list str :=
  Eval cbv in
    [ utf8 "对"; utf8 "正确"; utf8 "√"; utf8 "是"; utf8 "T"; utf8 "TRUE"; utf8 "True" ].

Definition FALSE_WORDS : list str :=
  Eval cbv in
    [ utf8 "错"; utf8 "错误"; utf8 "×"; utf8 "否"; utf8 "F"; utf8 "FALSE"; utf8 "False" ].

(** [a in (w1, w2, ...)] on a tuple of strings. *)
Definition str_in (a : str) (ws : list str) : bool := existsb (str_eqb a) ws.

Definition judge_to_bool (ans : str) : option bool :=
  let a := strip ans in
  if negb (nonempty a) then None
  else if str_in a TRUE_WORDS then Some true
  else if str_in a FALSE_WORDS then Some false
  else
    let letters := norm_letters a in
    if str_eqb letters [65%N] then Some true
    else if str_eqb letters [66%N] then Some false
    else None.

(** ** The database (app.py, lines 430-598)

    The three tables that [init_db] creates, as the connection sees them:
    the rows in the order of their insertion.  Every write of the program is
    followed by [commit()], which does not change what the connection
    reads.  The exceptions are those of the [sqlite3] module: a violated
    constraint raises [IntegrityError]; an integer outside the 64-bit range
    or a string with a surrogate cannot be bound as a parameter.  Python
    integers are not negative here and keys stay far below the 64-bit
    limit, where AUTOINCREMENT would give up. *)

Inductive exn : Type := IntegrityError | OverflowError | UnicodeEncodeError.

Record question_row : Type := QuestionRow {
  row_id : N;
  row_qhash : str;
  row_source : str;
  row_number_in_source : N;
  row_section : str;
  row_qtype : str;
  row_stem : str;
  row_options_json : str;
  row_answer : str;
  row_analysis : str;
  row_score : option Q
}.

(** [is_correct] is 1, 0 or NULL: [Some true], [Some false], [None]. *)
Record attempt_row : Type := AttemptRow {
  att_id : N;
  att_ts : str;
  att_question_id : N;
  att_user_answer : str;
  att_is_correct : option bool;
  att_mode : str
}.

Record wrong_row : Type := WrongRow {
  question_id : N;
  added_ts : str;
  streak_correct : Z;
  last_ts : str
}.

(** [question_seq] and [attempt_seq] are the counters that SQLite keeps for
    the AUTOINCREMENT keys. *)
Record conn : Type := Conn {
  question_tbl : list question_row;
  question_seq : N;
  attempt_tbl : list attempt_row;
  attempt_seq : N;
  wrongbook_tbl : list wrong_row
}.

(** The database right after [init_db] on a new file. *)
Definition empty_db : conn := Conn [] 0 [] 0 [].

(** The key AUTOINCREMENT gives to a new row: one more than every key the
    table has ever held. *)
Definition next_key (seq : N) (keys : list N) : N :=
  (fold_right N.max seq keys + 1)%N.

Definition is_surrogate (c : N) : bool := ((0xD800 <=? c) && (c <=? 0xDFFF))%N.

Definition has_surrogate (s : str) : bool := existsb is_surrogate s.

(** Binding a parameter of a statement. *)
Definition bind_int (n : N) : option exn :=
  if (2 ^ 63 <=? n)%N then Some OverflowError else None.

Definition bind_text (s : str) : option exn :=
  if has_surrogate s then Some UnicodeEncodeError else None.

(** The parameters are bound in their order; the first failure is raised. *)
Fixpoint bind_all (ps : list (option exn)) : option exn :=
  match ps with
  | [] => None
  | Some e :: _ => Some e
  | None :: tl => bind_all tl
  end.

(** The parameters of the INSERT of [upsert_questions].  The hash is a
    string of hexadecimal digits and the type one of seven ASCII words; the
    score is a float or None. *)
Definition bind_question (q : question) (options_json : str) : option exn :=
  bind_all [ bind_text (source q); bind_int (number_in_source q);
             bind_text (section q); bind_text (stem q); bind_text options_json;
             bind_text (answer q); bind_text (analysis q) ].

Definition has_qhash (c : conn) (h : str) : bool :=
  existsb (fun r => str_eqb (row_qhash r) h) (question_tbl c).

Definition has_question (c : conn) (qid : N) : bool :=
  existsb (fun r => (row_id r =? qid)%N) (question_tbl c).

Section Store.

Variable sha1_hexdigest : list N -> str.

(** One turn of the loop of [upsert_questions]: the INSERT, which fails on
    a hash that the table holds already (the column is UNIQUE). *)
Definition insert_question (c : conn) (q : question) : exn + conn :=
  let options_json := json_options (options q) in
  let h := qhash sha1_hexdigest q in
  match bind_question q options_json with
  | Some e => inl e
  | None =>
      if has_qhash c h then inl IntegrityError
      else
        let id := next_key (question_seq c) (map row_id (question_tbl c)) in
        let row :=
          QuestionRow id h (source q) (number_in_source q) (section q)
                      (qtype_str (qtype q)) (stem q) options_json (answer q)
                      (analysis q) (score q) in
        inr (Conn (question_tbl c ++ [row]) id (attempt_tbl c) (attempt_seq c)
                  (wrongbook_tbl c))
  end.

(** The loop of [upsert_questions]: [IntegrityError] is caught and counted,
    any other exception leaves the function, with the rows inserted so far
    in the connection. *)
Fixpoint upsert_loop (c : conn) (questions : list question) (inserted skipped : nat)
    : conn * (exn + (nat * nat)) :=
  match questions with
  | [] => (c, inr (inserted, skipped))
  | q :: tl =>
      match insert_question c q with
      | inr c' => upsert_loop c' tl (S inserted) skipped
      | inl IntegrityError => upsert_loop c tl inserted (S skipped)
      | inl e => (c, inl e)
      end
  end.

Definition upsert_questions (c : conn) (questions : list question)
    : conn * (exn + (nat * nat)) :=
  upsert_loop c questions 0 0.

End Store.

(** [ts] is what [now_ts()] returns at the call, a string of ASCII
    characters.  The attempt needs its question to exist (foreign key). *)
Definition record_attempt (c : conn) (ts : str) (qid : N) (user_answer : str)
    (is_correct : option bool) (mode : str) : exn + conn :=
  match bind_all [ bind_int qid; bind_text user_answer; bind_text mode ] with
  | Some e => inl e
  | None =>
      if has_question c qid then
        let id := next_key (attempt_seq c) (map att_id (attempt_tbl c)) in
        inr (Conn (question_tbl c) (question_seq c)
                  (attempt_tbl c ++ [AttemptRow id ts qid user_answer is_correct mode])
                  id (wrongbook_tbl c))
      else inl IntegrityError
  end.

Definition set_wrongbook (c : conn) (wb : list wrong_row) : conn :=
  Conn (question_tbl c) (question_seq c) (attempt_tbl c) (attempt_seq c) wb.

(** The row of a question in the wrongbook, if any. *)
Definition find_wrong (c : conn) (qid : N) : option wrong_row :=
  find (fun w => (question_id w =? qid)%N) (wrongbook_tbl c).

(** INSERT ... ON CONFLICT(question_id) DO UPDATE SET last_ts: the row of
    the question is kept but for its [last_ts]; a new row needs the
    question to exist (foreign key). *)
Definition add_to_wrongbook (c : conn) (ts : str) (qid : N) : exn + conn :=
  match bind_int qid with
  | Some e => inl e
  | None =>
      match find_wrong c qid with
      | Some _ =>
          inr (set_wrongbook c
                 (map (fun w =>
                         if (question_id w =? qid)%N
                         then WrongRow (question_id w) (added_ts w) (streak_correct w) ts
                         else w)
                      (wrongbook_tbl c)))
      | None =>
          if has_question c qid
          then inr (set_wrongbook c (wrongbook_tbl c ++ [WrongRow qid ts 0 ts]))
          else inl IntegrityError
      end
  end.

Definition remove_from_wrongbook (c : conn) (qid : N) : exn + conn :=
  match bind_int qid with
  | Some e => inl e
  | None =>
      inr (set_wrongbook c
             (filter (fun w => negb (question_id w =? qid)%N) (wrongbook_tbl c)))
  end.

Definition update_wrong_streak (c : conn) (ts : str) (qid : N) (is_correct : bool)
    : exn + (conn * option Z) :=
  match bind_int qid with
  | Some e => inl e
  | None =>
      match find_wrong c qid with
      | None => inr (c, None)
      | Some row =>
          let streak := streak_correct row in
          let streak := if is_correct then (streak + 1)%Z else 0%Z in
          if (3 <=? streak)%Z then
            match remove_from_wrongbook c qid with
            | inl e => inl e
            | inr c' => inr (c', Some 3%Z)
            end
          else
            inr (set_wrongbook c
                   (map (fun w =>
                           if (question_id w =? qid)%N
                           then WrongRow (question_id w) (added_ts w) streak ts
                           else w)
                        (wrongbook_tbl c)),
                 Some streak)
      end
  end.

(** The counts of [update_stats] (app.py, lines 969-991): the size of the
    wrongbook and its entries with a streak of 0, 1 and 2. *)
Definition wrong_count (c : conn) : nat := List.length (wrongbook_tbl c).

Definition streak_count (c : conn) (k : Z) : nat :=
  List.length (filter (fun w => (streak_correct w =? k)%Z) (wrongbook_tbl c)).

Definition streak_dist (c : conn) : nat * nat * nat :=
  (streak_count c 0, streak_count c 1, streak_count c 2).

(** ** Grading an answer (app.py, lines 1222-1260) *)

(** [a < b] on strings: by code points, a proper prefix first. *)
Fixpoint str_ltb (a b : str) : bool :=
  match a, b with
  | _, [] => false
  | [], _ :: _ => true
  | x :: a', y :: b' => (x <? y)%N || ((x =? y)%N && str_ltb a' b')
  end.

Fixpoint insert_str (k : str) (l : list str) : list str :=
  match l with
  | [] => [k]
  | h :: t => if str_ltb k h then k :: l else h :: insert_str k t
  end.

(** [sorted(...)] on strings *)
Definition sorted_strs (l : list str) : list str := fold_right insert_str [] l.

(** What the user has entered: the keys of the option buttons switched on
    (a set, listed in any order), the key of the button clicked last, and
    the content of the text field as [text_answer.get("1.0", "end")]
    returns it. *)
Record entry : Type := Entry {
  multi_selected : list str;
  single_selected : str;
  text_answer : str
}.

Definition S_NORMAL : str := Eval cbv in utf8 "normal".

Section Grading.

(** [str.casefold], a method of the runtime. *)
Variable casefold : str -> str.

(** [q] is the question on display.  The verdict is 1, 0 or None:
    [Some true], [Some false], [None]. *)
Definition get_user_answer (q : question) (ui : entry) : str * option bool :=
  let answer_std := strip (answer q) in
  match options q with
  | _ :: _ =>
      match qtype q with
      | qt_multi =>
          let user := join [] (sorted_strs (multi_selected ui)) in
          let a := norm_letters answer_std in
          let u := norm_letters user in
          if nonempty a then (user, Some (str_eqb u a)) else (user, None)
      | _ =>
          let user := strip (single_selected ui) in
          let a := norm_letters answer_std in
          let u := norm_letters user in
          if nonempty a then (user, Some (str_eqb u a)) else (user, None)
      end
  | [] =>
      let user := strip (text_answer ui) in
      if negb (nonempty answer_std) then (user, None)
      else
        match qtype q with
        | qt_judge =>
            match judge_to_bool user, judge_to_bool answer_std with
            | Some b1, Some b2 => (user, Some (Bool.eqb b1 b2))
            | _, _ => (user, None)
            end
        | qt_fill =>
            let u := re_sub (Plus CSpace) [] user None in
            let a := re_sub (Plus CSpace) [] answer_std None in
            (user, Some (str_eqb u a))
        | _ =>
            let u := casefold (strip (re_sub (Plus CSpace) [SP] user None)) in
            let a := casefold (strip (re_sub (Plus CSpace) [SP] answer_std None)) in
            (user, Some (str_eqb u a))
        end
  end.

(** What [submit] does to the database (app.py, lines 1282-1305) for the
    question [qid], whose dict is [q]; [ts1] and [ts2] are the two readings
    of the clock. *)
Definition submit (c : conn) (ts1 ts2 : str) (qid : N) (q : question) (mode : str)
    (ui : entry) : exn + conn :=
  let '(user_answer, is_correct) := get_user_answer q ui in
  match record_attempt c ts1 qid user_answer is_correct mode with
  | inl e => inl e
  | inr c1 =>
      if str_eqb mode S_NORMAL then
        match is_correct with
        | Some false => add_to_wrongbook c1 ts2 qid
        | _ => inr c1
        end
      else
        match is_correct with
        | Some b =>
            match update_wrong_streak c1 ts2 qid b with
            | inl e => inl e
            | inr (c2, _) => inr c2
            end
        | None => inr c1
        end
  end.

End Grading.

(** What [mark_subjective] does to the database (app.py, lines 1325-1343). *)
Definition mark_subjective (c : conn) (ts1 ts2 : str) (qid : N) (mode : str)
    (ui : entry) (correct : bool) : exn + conn :=
  let user := strip (text_answer ui) in
  match record_attempt c ts1 qid user (Some correct) mode with
  | inl e => inl e
  | inr c1 =>
      if str_eqb mode S_NORMAL then
        if negb correct then add_to_wrongbook c1 ts2 qid else inr c1
      else
        match update_wrong_streak c1 ts2 qid correct with
        | inl e => inl e
        | inr (c2, _) => inr c2
        end
  end.

(** ** Moving through the question list (app.py, lines 1023-1219)

    [n] is [len(self.qids)], [idx] the index on display. *)
Module Nav.

Definition prev (n : nat) (idx : Z) : Z :=
  if Nat.eqb n 0 then idx else Z.max 0 (idx - 1).

Definition next (n : nat) (idx : Z) : Z :=
  if Nat.eqb n 0 then idx else Z.min (Z.of_nat n - 1) (idx + 1).

(** [typed] is the value of [int(self.jump_entry.get().strip())], or [None]
    when [int] raises. *)
Definition on_jump (n : nat) (typed : option Z) (idx : Z) : Z :=
  if Nat.eqb n 0 then idx
  else match typed with
       | None => idx
       | Some k => Z.max 1 (Z.min (Z.of_nat n) k) - 1
       end.

End Nav.

(** ** What a match looks like

    [Matches r st caps w caps'] reads: at the position [st] the pattern [r]
    can match the word [w], turning the groups [caps] into [caps'].  It is
    the declarative counterpart of [rmatch] (without the order in which
    Python tries the alternatives). *)

(** [st'] is [st] after reading [w]. *)
Definition reach (st : mstate) (w : str) (st' : mstate) : Prop :=
  rest st = w ++ rest st' /\ pos st' = pos st + List.length w /\
  prev st' = last_char w (prev st).

Definition within (hi : option nat) (n : nat) : Prop :=
  match hi with Some h => n <= h | None => True end.

Inductive Matches : regex -> mstate -> captures -> str -> captures -> Prop :=
| M_Eps st c : Matches Eps st c [] c
| M_Set k st c x : cls_mem k x = true -> Matches (Set_ k) st c [x] c
| M_Lit s st c : Matches (Lit s) st c s c
| M_Seq a b st c w1 c1 st1 w2 c2 :
    Matches a st c w1 c1 -> reach st w1 st1 -> Matches b st1 c1 w2 c2 ->
    Matches (Seq a b) st c (w1 ++ w2) c2
| M_AltL a b st c w c' : Matches a st c w c' -> Matches (Alt a b) st c w c'
| M_AltR a b st c w c' : Matches b st c w c' -> Matches (Alt a b) st c w c'
| M_Rep k lo hi st c w :
    Forall (fun x => cls_mem k x = true) w -> lo <= List.length w ->
    within hi (List.length w) -> Matches (Rep k lo hi) st c w c
| M_OptY a st c w c' : Matches a st c w c' -> Matches (Opt a) st c w c'
| M_OptN a st c : Matches (Opt a) st c [] c
| M_Grp n a st c w c' : Matches a st c w c' -> Matches (Grp n a) st c w ((n, w) :: c')
| M_Bol m st c : at_bol m st = true -> Matches (Bol m) st c [] c
| M_Eol m st c : at_eol m st = true -> Matches (Eol m) st c [] c
| M_NotAhead a st c :
    rmatch a st c (fun _ _ => Some tt) = None -> Matches (NotAhead a) st c [] c.

(** [st] is a position of the subject [s]. *)
Definition valid (s : str) (st : mstate) : Prop :=
  exists pre, s = pre ++ rest st /\ pos st = List.length pre /\
              prev st = last_char pre None.

(** The matches follow one another from [lo] on. *)
Fixpoint ascending (lo : nat) (ms : list mres) : Prop :=
  match ms with
  | [] => True
  | m :: tl =>
      lo <= m_start m /\ m_start m <= m_end m /\
      ascending (Nat.max (m_end m) (S (m_start m))) tl
  end.


(** The least number of characters a match of [r] takes. *)
Fixpoint min_len (r : regex) : nat :=
  match r with
  | Eps => 0
  | Set_ _ => 1
  | Lit s => List.length s
  | Seq a b => min_len a + min_len b
  | Alt a b => Nat.min (min_len a) (min_len b)
  | Rep _ lo _ => lo
  | Opt _ => 0
  | Grp _ a => min_len a
  | Bol _ => 0
  | Eol _ => 0
  | NotAhead _ => 0
  end.

(** The patterns the program hands to [finditer] and [re.sub]. *)
Definition scanned_patterns : list regex :=
  [ RE_CRLF; RE_TABS; RE_SPACES; RE_NEWLINES; Plus CSpace; SCORE_STRIP;
    SUBQ_STRIP; SUBQ_START; QSTART ] ++ map fst SECTION_PATTERNS.

(** ** Moving a match along the text *)

Definition shift_state (d : nat) (st : mstate) : mstate :=
  MState (pos st + d) (prev st) (rest st).

Definition shift_mres (d : nat) (m : mres) : mres :=
  MRes (m_start m + d) (shift_state d (m_endst m)) (m_caps m).

(** ** Notions used to state the properties *)

(** *** Lines and blocks *)

(** A text ends at a line boundary / a text starts at one. *)
Definition line_start (pre : str) : Prop := pre = [] \/ exists p, pre = p ++ [LF].
Definition line_end (post : str) : Prop := post = [] \/ exists p, post = LF :: p.

Definition all_space (w : str) : Prop := Forall (fun c => is_space c = true) w.
Definition all_digit (w : str) : Prop := Forall (fun c => is_digit c = true) w.

(** The next character, if any, is not a decimal digit. *)
Definition no_digit_ahead (post : str) : Prop :=
  match post with [] => True | c :: _ => is_digit c = false end.

Definition block := (nat * nat * N)%type.
Definition b_start (b : block) : nat := fst (fst b).
Definition b_end (b : block) : nat := snd (fst b).
Definition b_number (b : block) : N := snd b.

(** The blocks form a chain from [a] to [b]: the first starts at [a], each
    one is non-empty and ends where the next starts, the last ends at [b]. *)
Fixpoint chained (bs : list block) (a b : nat) : Prop :=
  match bs with
  | [] => a = b
  | x :: tl => b_start x = a /\ b_start x < b_end x /\ chained tl (b_end x) b
  end.

(** *** Headings *)

(** The words that head a section, each with the label it stands for. *)
Definition heading_names : list (str * str) :=
  [ (S_SINGLE_LONG, S_SINGLE); (S_SINGLE, S_SINGLE);
    (S_MULTI_LONG, S_MULTI); (S_MULTI, S_MULTI);
    (S_JUDGE, S_JUDGE); (S_FILL, S_FILL); (S_READING, S_READING);
    (S_SHORT, S_SHORT) ].

(** An enumerator: characters of "[一二三四五六七八九十\d]", one of "、" and
    ".", then white space. *)
Definition enumerator (en : str) : Prop :=
  exists e sep ws,
    en = e ++ [sep] ++ ws /\ e <> [] /\
    Forall (fun c => cls_mem C_ENUM c = true) e /\ In sep ENUM_SEPS /\ all_space ws.

(** The line is a heading for the word [nm]: around the word there is only
    white space and, before it, at most one enumerator. *)
Definition heading_line (line nm : str) : Prop :=
  exists ws1 en ws3,
    line = ws1 ++ en ++ nm ++ ws3 /\
    all_space ws1 /\ (en = [] \/ enumerator en) /\ all_space ws3.

(** The label of the last marker at or before [p], [未知] without one. *)
Definition label_at_or_before (markers : list marker) (p : nat) : str :=
  match rev (filter (fun m => Nat.leb (fst m) p) markers) with
  | (_, name) :: _ => name
  | [] => S_UNKNOWN
  end.

Definition markers_sorted (markers : list marker) : Prop :=
  StronglySorted (fun a b : marker => fst a <= fst b) markers.

(** *** Reading comprehension *)

(** The passage that [split_reading_block] shares between the records of a
    block: the text before the first sub-question marker. *)
Definition reading_passage (block_text : str) (number : N) : str :=
  let block_wo_num := strip_number block_text number in
  match finditer SUBQ_START block_wo_num with
  | m0 :: _ => strip (firstn (m_start m0) block_wo_num)
  | [] => []
  end.

(** The sub-question markers of a block, each with the offset where its
    sub-question ends: the next marker, or the end of the text. *)
Fixpoint with_ends (n : nat) (subs : list mres) : list (mres * nat) :=
  match subs with
  | [] => []
  | m :: tl =>
      (m, match tl with m' :: _ => m_start m' | [] => n end) :: with_ends n tl
  end.

Definition reading_subs (block_text : str) (number : N) : list (mres * nat) :=
  let block_wo_num := strip_number block_text number in
  with_ends (List.length block_wo_num) (finditer SUBQ_START block_wo_num).

(** The stem of the sub-question itself: its lines up to the answer
    marker, joined by spaces. *)
Definition sub_stem (block_text : str) (number : N) (me : mres * nat) : str :=
  strip (join [SP]
           (stem_lines_of (sub_lines (strip_number block_text number) (fst me) (snd me)))).

(** How the stem of a sub-question reads: the tagged passage and a blank
    line when there is a passage, the ordinal in parentheses, and the
    sub-stem after one space when there is one. *)
Definition composed_stem (passage k stm : str) : str :=
  (if nonempty passage then S_PASSAGE_TAG ++ passage ++ [LF; LF] else [])
  ++ [40%N] ++ k ++ [41%N] ++ (if nonempty stm then SP :: stm else []).

(** A record as the reading-comprehension splitter emits them. *)
Definition plain_reading_record (q : question) : Prop :=
  options q = [] /\ score q = None /\ qtype q = qt_text /\ section q = S_READING.

(** A numbered block: the number with its separator, a passage, and after a
    line break the lines of the sub-questions. *)
Definition reading_block (number : N) (passage tail : str) : str :=
  str_of_int number ++ [C_DUNHAO] ++ passage ++ [LF] ++ tail.

(** No line of the passage is taken for a sub-question: in the block
    without its number, the first marker found is the line after the
    passage. *)
Definition passage_without_marker (passage tail : str) : Prop :=
  option_map m_start (re_search SUBQ_START (passage ++ LF :: tail))
    = Some (S (List.length passage)).

(** [a] is a prefix of [s]. *)
Fixpoint starts_with (a s : str) : bool :=
  match a, s with
  | [], _ => true
  | x :: a', y :: s' => (x =? y)%N && starts_with a' s'
  | _ :: _, [] => false
  end.

(** *** Letters and the hashed text *)

(** A string of ASCII characters. *)
Definition ascii_only (s : str) : Prop := Forall (fun c => (c < 128)%N) s.

(** Two records agree on what the hash is made of. *)
Definition same_content (q1 q2 : question) : Prop :=
  stem q1 = stem q2 /\ options q1 = options q2 /\
  answer q1 = answer q2 /\ section q1 = section q2.

(** Writes a JSON text with ['] for the double quote. *)
Definition dq (s : str) : str := map (fun c => if (c =? 39)%N then 34%N else c) s.

Definition unhex (h : N) : N := (if h <? 58 then h - 48 else h - 87)%N.

(** Reads one escaped character; [None] at the closing quote. *)
Definition json_unescape_head (s : str) : option (N * str) :=
  match s with
  | [] => None
  | c :: r =>
      if (c =? 34)%N then None
      else if (c =? 92)%N then
        match r with
        | [] => None
        | x :: r' =>
            if (x =? 34)%N then Some (34%N, r')
            else if (x =? 92)%N then Some (92%N, r')
            else if (x =? 110)%N then Some (10%N, r')
            else if (x =? 114)%N then Some (13%N, r')
            else if (x =? 116)%N then Some (9%N, r')
            else if (x =? 98)%N then Some (8%N, r')
            else if (x =? 102)%N then Some (12%N, r')
            else match r' with
                 | _ :: _ :: h1 :: h2 :: r'' => Some ((16 * unhex h1 + unhex h2)%N, r'')
                 | _ => None
                 end
        end
      else Some (c, r)
  end.

(** ** Sample texts *)

Definition DOC_VERSION : str := utf8 "参见 1.2.1 节说明".

Definition DOC_VERSION_MIXED : str := utf8 "1、第一题
参见 1.2.1 节说明
1.2.1 节说明
2. 第二题".

(** The sub-question lines of the specification's example: each answer on
    the line of its sub-question, and each answer on a line of its own. *)
Definition TAIL_INLINE : str := utf8 "（1）、问题一 答案：对
（2）、问题二 答案：错".

Definition TAIL_LINES : str := utf8 "（1）、问题一
答案：对
（2）、问题二
答案：错".

(** A passage that mentions a score [(20.0)], once inside a line and once
    on a line of its own. *)
Definition SAMPLE_PASSAGE : str := utf8 "阅读下面的材料，回答问题。(20.0)
这是一段材料。
(20.0)".

Definition BLOCK_READING_INLINE : str := reading_block 1 SAMPLE_PASSAGE TAIL_INLINE.
Definition BLOCK_READING_LINES : str := reading_block 1 SAMPLE_PASSAGE TAIL_LINES.

Definition HEADING_READING : str := utf8 "阅读理解
".

(** The start of every stem made from the passage [SAMPLE_PASSAGE]. *)
Definition SAMPLE_PREFIX : str := utf8 "【阅读材料】阅读下面的材料，回答问题。(20.0)
这是一段材料。
(20.0)

".

Definition SCORE_TOKEN : str := utf8 "(20.0)".

(** The tag the specification names. *)
Definition S_SPEC_TAG : str := utf8 "【阅读理解材料】".

(** A sub-question followed by option-letter lines. *)
Definition BLOCK_READING_OPTIONS : str := utf8 "2、阅读材料
（1）、下列哪项正确
A、红色
B、蓝色
答案：A".

(** The sub-question of [BLOCK_READING_OPTIONS] as a block of its own. *)
Definition BLOCK_OPTIONS_ALONE : str := utf8 "1、下列哪项正确
A、红色
B、蓝色
答案：A".

(** The options A..D of the classification examples. *)
Definition OPTIONS_ABCD : list option_ :=
  [ Option_ (utf8 "A") (utf8 "红色"); Option_ (utf8 "B") (utf8 "蓝色");
    Option_ (utf8 "C") (utf8 "绿色"); Option_ (utf8 "D") (utf8 "黄色") ].

Definition Q_SAMPLE : question :=
  Question (utf8 "a.docx") 7 S_SINGLE qt_multi (utf8 "下列哪些是颜色")
           [ Option_ (utf8 "A") (utf8 "红色"); Option_ (utf8 "B") (utf8 "蓝") ]
           (utf8 "AB") (utf8 "略") (Some (Qmake 2 1)).

(** The same question with two different point values. *)
Definition BLOCK_SCORE_2 : str := utf8 "3、下列哪项是颜色（2）
A、红色
B、桌子
答案：A".

Definition BLOCK_SCORE_5 : str := utf8 "3、下列哪项是颜色（5）
A、红色
B、桌子
答案：A".

(** A stem line with a bracketed tag, and a document around it. *)
Definition LINE_TAGGED : str := utf8 "请完成下列[简答题]内容".

Definition DOC_TAGGED : str := utf8 "一、判断题
1、下面的说法是否正确
请完成下列[简答题]内容
答案：对
简答题
2、简述原因
答案：略".

(** Two paragraphs separated by two lines that hold one space each. *)
Definition TEXT_BLANK_LINES : str := utf8 "a
 
 
b".


(** ** Notions used to state the properties of the store *)

(** Every parameter of the INSERT of a question can be bound. *)
Definition bindable (q : question) : Prop :=
  bind_question q (json_options (options q)) = None.

(** The constraints of the schema (primary keys, the UNIQUE hash, the
    foreign keys), and the range of the streaks that the program stores. *)
Definition db_ok (c : conn) : Prop :=
  NoDup (map row_id (question_tbl c)) /\
  NoDup (map row_qhash (question_tbl c)) /\
  NoDup (map att_id (attempt_tbl c)) /\
  Forall (fun a => has_question c (att_question_id a) = true) (attempt_tbl c) /\
  NoDup (map question_id (wrongbook_tbl c)) /\
  Forall (fun w => has_question c (question_id w) = true) (wrongbook_tbl c) /\
  Forall (fun w => (0 <= streak_correct w < 3)%Z) (wrongbook_tbl c).

(** A database with one question, and the same with the question in the
    wrongbook. *)
Definition DB_QUESTION : conn :=
  Conn [ QuestionRow 1 (utf8 "00") (utf8 "a.txt") 1 S_JUDGE (utf8 "judge")
                     (utf8 "天是蓝的") (utf8 "[]") (utf8 "对") [] None ]
       1 [] 0 [].

Definition DB_ONE : conn :=
  set_wrongbook DB_QUESTION [ WrongRow 1 (utf8 "t0") 0 (utf8 "t0") ].

(** The question of [DB_QUESTION] as [get_question] returns it. *)
Definition Q_JUDGE : question :=
  Question (utf8 "a.txt") 1 S_JUDGE qt_judge (utf8 "天是蓝的") [] (utf8 "对") [] None.

Definition CASEFOLD_ID (s : str) : str := s.

(** The row holds the columns that [upsert_questions] writes for [q]. *)
Definition stores (sha1_hexdigest : list N -> str) (r : question_row) (q : question)
    : Prop :=
  row_qhash r = qhash sha1_hexdigest q /\ row_source r = source q /\
  row_number_in_source r = number_in_source q /\ row_section r = section q /\
  row_qtype r = qtype_str (qtype q) /\ row_stem r = stem q /\
  row_options_json r = json_options (options q) /\ row_answer r = answer q /\
  row_analysis r = analysis q /\ row_score r = score q.

(** A digest for the examples: the bytes themselves. *)
Definition SHA_ID (bytes : list N) : str := bytes.

(** [Q_SAMPLE] with another source, number, analysis and score. *)
Definition Q_SAMPLE_AGAIN : question :=
  Question (utf8 "b.docx") 12 S_SINGLE qt_multi (utf8 "下列哪些是颜色")
           [ Option_ (utf8 "A") (utf8 "红色"); Option_ (utf8 "B") (utf8 "蓝") ]
           (utf8 "AB") (utf8 "见教材") None.


(** ** Notions used to state the properties of grading *)

(** [c] is one of the letters A..H of [s.upper()]. *)
Definition has_letter (c : N) (s : str) : Prop := In c (flat_map upper_AH s).

(** The text without its whitespace. *)
Definition no_space (s : str) : str := filter (fun c => negb (is_space c)) s.

(** An action in the question list. *)
Inductive nav_action : Type :=
| GoPrev
| GoNext
| GoJump (typed : option Z).

Definition nav_step (n : nat) (idx : Z) (a : nav_action) : Z :=
  match a with
  | GoPrev => Nav.prev n idx
  | GoNext => Nav.next n idx
  | GoJump typed => Nav.on_jump n typed idx
  end.

(** A question with options whose answer is the set A, C. *)
Definition Q_MULTI : question :=
  Question (utf8 "a.docx") 3 S_MULTI qt_multi (utf8 "下列哪些是颜色") OPTIONS_ABCD
           (utf8 "CA") [] None.

(** A fill-in question. *)
Definition Q_FILL : question :=
  Question (utf8 "a.docx") 4 S_FILL qt_fill (utf8 "中国的首都是") [] (utf8 "北 京") [] None.

(** ** Replacing without the matcher

    The patterns that [normalize_spaces], [clean_line] and the grading of
    fill-in answers hand to [re.sub] look only at the text ahead.  For such
    a pattern the replacement is a scan from left to right: [step s] is the
    length of the match at the start of [s], if there is one. *)

Fixpoint scan_sub (step : str -> option nat) (repl : str) (fuel : nat) (s : str) : str :=
  match fuel with
  | O => s
  | S fuel' =>
      match s with
      | [] => []
      | c :: s' =>
          match step s with
          | Some n => repl ++ scan_sub step repl fuel' (skipn n s)
          | None => c :: scan_sub step repl fuel' s'
          end
      end
  end.

(** The length of the longest prefix made of characters of the class. *)
Fixpoint run_len (k : cls) (s : str) : nat :=
  match s with
  | [] => 0
  | c :: s' => if cls_mem k c then S (run_len k s') else 0
  end.

(** A run of at least [lo] characters of the class, [lo >= 1]. *)
Definition step_run (k : cls) (lo : nat) (s : str) : option nat :=
  if Nat.leb lo (run_len k s) then Some (run_len k s) else None.

(** One character of the class. *)
Definition step_set (k : cls) (s : str) : option nat :=
  match s with
  | c :: _ => if cls_mem k c then Some 1 else None
  | [] => None
  end.

(** A carriage return, with the line feed after it if there is one. *)
Definition step_crlf (s : str) : option nat :=
  match s with
  | c :: s' =>
      if (c =? CR)%N then
        match s' with
        | d :: _ => if (d =? LF)%N then Some 2 else Some 1
        | [] => Some 1
        end
      else None
  | [] => None
  end.

(** The state [n] characters after [st]. *)
Definition state_after (n : nat) (st : mstate) : mstate :=
  MState (pos st + n) (last_char (firstn n (rest st)) (prev st)) (skipn n (rest st)).

(** ** Notions used to state the properties of the parsers *)

(** The text is empty or made of whitespace only. *)
Definition blank (s : str) : bool := forallb is_space s.

(** The names a section can have. *)
Definition section_labels : list str :=
  [ S_UNKNOWN; S_SINGLE; S_MULTI; S_JUDGE; S_FILL; S_READING; S_SHORT ].

(** A record as the parsers leave it: the texts are stripped and the type
    is the one that [infer_qtype] gives for the stored fields. *)
Definition well_formed (q : question) : Prop :=
  strip (stem q) = stem q /\ strip (answer q) = answer q /\
  strip (analysis q) = analysis q /\
  qtype q = infer_qtype (section q) (options q) (answer q).

(** An option as the parsers accept it: its key is one of the letters A..H
    and its text is not empty. *)
Definition option_ok (o : option_) : Prop :=
  (exists x, opt_key o = [x] /\ (65 <= x <= 72)%N) /\ opt_text o <> [].

(** ** Notions used to state the properties of normalisation *)

(** The character [c] occurs twice in a row. *)
Fixpoint doubled (c : N) (t : str) : bool :=
  match t with
  | [] => false
  | a :: t' =>
      match t' with
      | b :: _ => (a =? c)%N && (b =? c)%N
      | [] => false
      end || doubled c t'
  end.

(** Three newlines in a row: a run that the normaliser is meant to cut. *)
Fixpoint has_triple_LF (t : str) : bool :=
  match t with
  | [] => false
  | a :: t' =>
      match t' with
      | b :: c :: _ => (a =? LF)%N && (b =? LF)%N && (c =? LF)%N
      | _ => false
      end || has_triple_LF t'
  end.

(** An option line as a document writes it: the key, a separator and the
    text. *)
Definition option_line (sep : N) (o : option_) : str :=
  opt_key o ++ [sep] ++ opt_text o.

(** An option whose line reads back as it is: a letter A..H as key and a
    text on one line that does not start with whitespace. *)
Definition option_plain (o : option_) : Prop :=
  (exists x, opt_key o = [x] /\ (65 <= x <= 72)%N) /\
  (exists c t, opt_text o = c :: t /\ is_space c = false) /\
  ~ In LF (opt_text o).

(** The row that stores [Q_SAMPLE] under the key 1. *)
Definition ROW_SAMPLE : question_row :=
  QuestionRow 1 (qhash SHA_ID Q_SAMPLE) (source Q_SAMPLE) (number_in_source Q_SAMPLE)
              (section Q_SAMPLE) (qtype_str (qtype Q_SAMPLE)) (stem Q_SAMPLE)
              (json_options (options Q_SAMPLE)) (answer Q_SAMPLE) (analysis Q_SAMPLE)
              (score Q_SAMPLE).

(** A line as [clean_lines] returns it: not empty, neither starting nor
    ending with whitespace, and with single spaces as its only whitespace. *)
Definition clean (l : str) : Prop :=
  l <> [] /\ strip l = l /\ doubled SP l = false /\
  (forall c, In c l -> is_space c = true -> c = SP).

(** ** Notions used to state the properties of the hashed bytes *)

(** A Unicode scalar value: a code point that is not a surrogate. *)
Definition scalar (c : N) : Prop := (c < 0x110000)%N /\ is_surrogate c = false.

(** The hashed fields of the question hold scalar values only. *)
Definition hashed_text_scalar (q : question) : Prop :=
  Forall scalar (stem q) /\ Forall scalar (answer q) /\ Forall scalar (section q) /\
  Forall (fun o => Forall scalar (opt_key o) /\ Forall scalar (opt_text o)) (options q).
(* ================================================================== *)
(** * Part II: properties                                              *)
(* ================================================================== *)

(** ** Strings *)

Ltac inv H := inversion H; subst; clear H.

Lemma str_eqb_eq (a b : str) : str_eqb a b = true <-> a = b.
Proof.
  revert b; induction a as [|x a IH]; intros [|y b]; simpl; split;
    try congruence; try reflexivity.
  - intros H. apply andb_true_iff in H as [H1 H2].
    apply N.eqb_eq in H1. apply IH in H2. congruence.
  - intros H. inversion H; subst. rewrite N.eqb_refl. simpl. now apply IH.
Qed.

Lemma str_eqb_refl (a : str) : str_eqb a a = true.
Proof. now apply str_eqb_eq. Qed.

Lemma str_eqb_neq (a b : str) : str_eqb a b = false <-> a <> b.
Proof.
  split.
  - intros H E. apply str_eqb_eq in E. congruence.
  - intros H. destruct (str_eqb a b) eqn:E; [|reflexivity].
    apply str_eqb_eq in E. contradiction.
Qed.

Lemma last_char_app (w1 w2 : str) (d : option N) :
  last_char (w1 ++ w2) d = last_char w2 (last_char w1 d).
Proof.
  unfold last_char. rewrite rev_app_distr.
  destruct (rev w2); simpl; reflexivity.
Qed.

Lemma last_char_nil (d : option N) : last_char [] d = d.
Proof. reflexivity. Qed.

Lemma last_char_one (x : N) (d : option N) : last_char [x] d = Some x.
Proof. reflexivity. Qed.

Lemma last_char_snoc (w : str) (x : N) (d : option N) :
  last_char (w ++ [x]) d = Some x.
Proof. now rewrite last_char_app. Qed.

(** *** Stripping *)

Lemma rstrip_cons (c : N) (s : str) :
  rstrip (c :: s) =
  match rstrip s with [] => if is_space c then [] else [c] | r => c :: r end.
Proof. reflexivity. Qed.

Lemma rstrip_nil_iff (s : str) : rstrip s = [] <-> all_space s.
Proof.
  induction s as [|c s IH]; [split; [constructor|reflexivity]|].
  rewrite rstrip_cons. split.
  - destruct (rstrip s) eqn:E; [|discriminate].
    destruct (is_space c) eqn:Ec; [|discriminate].
    intros _. constructor; [assumption|]. now apply IH.
  - intros F. inv F. rewrite (proj2 IH H2), H1. reflexivity.
Qed.

Lemma rstrip_app (a b : str) :
  rstrip (a ++ b) = match rstrip b with [] => rstrip a | r => a ++ r end.
Proof.
  induction a as [|c a IH]; simpl app.
  - destruct (rstrip b); reflexivity.
  - rewrite !rstrip_cons, IH.
    destruct (rstrip b) as [|y r]; [reflexivity|].
    destruct a; reflexivity.
Qed.

Lemma rstrip_idem (s : str) : rstrip (rstrip s) = rstrip s.
Proof.
  induction s as [|c s IH]; [reflexivity|].
  rewrite rstrip_cons. destruct (rstrip s) as [|y r] eqn:E.
  - destruct (is_space c) eqn:Ec; [reflexivity|].
    rewrite rstrip_cons. simpl. now rewrite Ec.
  - rewrite rstrip_cons, IH. reflexivity.
Qed.

Lemma rstrip_keeps_head (c : N) (s : str) :
  is_space c = false -> exists r, rstrip (c :: s) = c :: r.
Proof.
  intros H. rewrite rstrip_cons. destruct (rstrip s) as [|y r].
  - rewrite H. now exists [].
  - now exists (y :: r).
Qed.

Lemma lstrip_cases (s : str) :
  lstrip s = [] \/ exists c r, lstrip s = c :: r /\ is_space c = false.
Proof.
  induction s as [|c s IH]; [now left|]. simpl.
  destruct (is_space c) eqn:E; [exact IH|]. right. now exists c, s.
Qed.

Lemma lstrip_nonspace (c : N) (s : str) : is_space c = false -> lstrip (c :: s) = c :: s.
Proof. intros H. simpl. now rewrite H. Qed.

Lemma strip_idem (s : str) : strip (strip s) = strip s.
Proof.
  unfold strip. destruct (lstrip_cases s) as [E|(c & r & E & Hc)]; rewrite E.
  - reflexivity.
  - destruct (rstrip_keeps_head c r Hc) as (r' & E').
    rewrite E', (lstrip_nonspace c r' Hc), <- E'. apply rstrip_idem.
Qed.

(** A stripped string is empty or has no white space at either end. *)
Lemma stripped_cases (s : str) :
  strip s = s -> s = [] \/ (lstrip s = s /\ rstrip s = s /\ s <> []).
Proof.
  intros H. destruct s as [|c s]; [now left|]. right.
  unfold strip in H. destruct (lstrip_cases (c :: s)) as [E|(d & r & E & Hd)].
  - rewrite E in H. discriminate.
  - assert (Ec : is_space c = false).
    { destruct (is_space c) eqn:Ec; [|reflexivity]. exfalso.
      cbn [lstrip] in E, H. rewrite Ec in E, H. rewrite E in H.
      destruct (rstrip_keeps_head d r Hd) as (r' & E').
      rewrite E' in H. inv H. congruence. }
    rewrite (lstrip_nonspace c s Ec) in *. repeat split; auto. discriminate.
Qed.

(** ** The matcher is sound for [Matches] *)

Lemma reach_refl (st : mstate) : reach st [] st.
Proof. unfold reach; simpl. auto. Qed.

Lemma reach_trans (st st1 st2 : mstate) (w1 w2 : str) :
  reach st w1 st1 -> reach st1 w2 st2 -> reach st (w1 ++ w2) st2.
Proof.
  intros (R1 & P1 & V1) (R2 & P2 & V2). unfold reach.
  rewrite R1, R2, P2, P1, V2, V1, length_app, last_char_app, <- app_assoc.
  repeat split; lia.
Qed.

Lemma reach_fun (st st1 st2 : mstate) (w : str) :
  reach st w st1 -> reach st w st2 -> st1 = st2.
Proof.
  intros (R1 & P1 & V1) (R2 & P2 & V2).
  destruct st1 as [p1 v1 r1], st2 as [p2 v2 r2]; simpl in *.
  rewrite R1 in R2. apply app_inv_head in R2. congruence.
Qed.

Lemma lit_match_sound (s r r' : str) :
  lit_match s r = Some r' -> r = s ++ r'.
Proof.
  revert r; induction s as [|x s IH]; intros r; simpl.
  - intros H. now inversion H.
  - destruct r as [|y r]; [discriminate|].
    destruct (x =? y)%N eqn:E; [|discriminate].
    apply N.eqb_eq in E; subst. intros H. now rewrite (IH _ H).
Qed.

Lemma rep_greedy_sound (A : Type) (k : cls) (r : str) :
  forall lo hi p pv (cont : mstate -> option A) a,
    rep_greedy k lo hi p pv r cont = Some a ->
    exists w r',
      r = w ++ r' /\ Forall (fun x => cls_mem k x = true) w /\
      lo <= List.length w /\ within hi (List.length w) /\
      cont (MState (p + List.length w) (last_char w pv) r') = Some a.
Proof.
  induction r as [|x r IH]; intros lo hi p pv cont a H; simpl in H.
  - destruct lo; [|discriminate].
    exists [], []. simpl. rewrite Nat.add_0_r.
    repeat split; auto. destruct hi; simpl; lia.
  - assert (Hstop : match lo with O => cont (MState p pv (x :: r)) | S _ => None end = Some a ->
                    exists w r', x :: r = w ++ r' /\ Forall (fun x => cls_mem k x = true) w /\
                      lo <= List.length w /\ within hi (List.length w) /\
                      cont (MState (p + List.length w) (last_char w pv) r') = Some a).
    { intros Hs. destruct lo; [|discriminate].
      exists [], (x :: r). simpl. rewrite Nat.add_0_r.
      repeat split; auto. destruct hi; simpl; lia. }
    destruct (cls_mem k x && hi_allows hi) eqn:E; [|auto].
    apply andb_true_iff in E as [Ek Eh].
    destruct (rep_greedy k (Nat.pred lo) (option_map Nat.pred hi) (S p) (Some x) r cont)
      as [a'|] eqn:E2; [|auto].
    inversion H; subst a'. clear H Hstop.
    apply IH in E2 as (w & r' & -> & Hw & Hlo & Hhi & Hc).
    exists (x :: w), r'. simpl.
    repeat split; auto.
    + lia.
    + destruct hi as [[|h]|]; simpl in *; try discriminate; auto; lia.
    + replace (p + S (List.length w)) with (S p + List.length w) by lia.
      replace (last_char (x :: w) pv) with (last_char w (Some x)); [exact Hc|].
      change (x :: w) with ([x] ++ w). now rewrite last_char_app.
Qed.

Lemma rmatch_sound (r : regex) :
  forall (A : Type) st caps (cont : mstate -> captures -> option A) a,
    rmatch r st caps cont = Some a ->
    exists w st' caps',
      Matches r st caps w caps' /\ reach st w st' /\ cont st' caps' = Some a.
Proof.
  induction r as [|k|s|r1 IH1 r2 IH2|r1 IH1 r2 IH2|k lo hi|r IH|n r IH|m|m|r IH];
    intros A st caps cont a H; simpl in H.
  - exists [], st, caps. split; [constructor|]. split; [apply reach_refl|assumption].
  - destruct (rest st) as [|x r'] eqn:Er; [discriminate|].
    destruct (cls_mem k x) eqn:Ek; [|discriminate].
    exists [x], (advance x r' st), caps. split; [now constructor|].
    split; [|assumption]. unfold reach, advance; simpl. rewrite Er.
    repeat split; auto. lia.
  - destruct (lit_match s (rest st)) as [r'|] eqn:El; [|discriminate].
    apply lit_match_sound in El.
    eexists s, _, caps. split; [constructor|]. split; [|exact H].
    unfold reach; simpl. auto.
  - apply IH1 in H as (w1 & st1 & c1 & M1 & R1 & H).
    apply IH2 in H as (w2 & st2 & c2 & M2 & R2 & H).
    exists (w1 ++ w2), st2, c2. split; [econstructor; eauto|].
    split; [eapply reach_trans; eauto|assumption].
  - destruct (rmatch r1 st caps cont) as [a'|] eqn:E1.
    + inversion H; subst a'. apply IH1 in E1 as (w & st' & c' & M & R & Hc).
      exists w, st', c'. split; [now apply M_AltL|auto].
    + apply IH2 in H as (w & st' & c' & M & R & Hc).
      exists w, st', c'. split; [now apply M_AltR|auto].
  - apply rep_greedy_sound in H as (w & r' & Er & Hw & Hlo & Hhi & Hc).
    eexists w, _, caps. split; [now constructor|]. split; [|exact Hc].
    unfold reach; simpl. auto.
  - destruct (rmatch r st caps cont) as [a'|] eqn:E1.
    + inversion H; subst a'. apply IH in E1 as (w & st' & c' & M & R & Hc).
      exists w, st', c'. split; [now apply M_OptY|auto].
    + exists [], st, caps. split; [apply M_OptN|]. split; [apply reach_refl|assumption].
  - apply IH in H as (w & st' & c' & M & R & Hc).
    exists w, st', ((n, w) :: c'). split; [now constructor|]. split; [assumption|].
    destruct R as (Rr & Rp & Rv). rewrite Rp, Rr in Hc.
    replace (pos st + List.length w - pos st) with (List.length w) in Hc by lia.
    rewrite firstn_app, Nat.sub_diag, firstn_all in Hc. simpl in Hc.
    now rewrite app_nil_r in Hc.
  - destruct (at_bol m st) eqn:E; [|discriminate].
    exists [], st, caps. split; [now constructor|]. split; [apply reach_refl|assumption].
  - destruct (at_eol m st) eqn:E; [|discriminate].
    exists [], st, caps. split; [now constructor|]. split; [apply reach_refl|assumption].
  - destruct (rmatch r st caps (fun _ _ => Some tt)) eqn:E; [discriminate|].
    exists [], st, caps. split; [now constructor|]. split; [apply reach_refl|assumption].
Qed.

Lemma match_at_sound (r : regex) (st : mstate) (m : mres) :
  match_at r st = Some m ->
  m_start m = pos st /\
  exists w, Matches r st [] w (m_caps m) /\ reach st w (m_endst m).
Proof.
  unfold match_at. intros H.
  apply rmatch_sound in H as (w & st' & caps' & M & R & Hc).
  inversion Hc; subst m; simpl. split; [reflexivity|]. now exists w.
Qed.

Lemma search_from_sound (r : regex) (s : str) :
  forall p pv m,
    search_from r p pv s = Some m ->
    exists skipped st0,
      reach (MState p pv s) skipped st0 /\ match_at r st0 = Some m.
Proof.
  induction s as [|x s IH]; intros p pv m H; simpl in H.
  - destruct (match_at r (MState p pv [])) as [m'|] eqn:E; [|discriminate].
    inversion H; subst m'. exists [], (MState p pv []).
    split; [apply reach_refl|assumption].
  - destruct (match_at r (MState p pv (x :: s))) as [m'|] eqn:E.
    + inversion H; subst m'. exists [], (MState p pv (x :: s)).
      split; [apply reach_refl|assumption].
    + apply IH in H as (sk & st0 & R & M).
      exists (x :: sk), st0. split; [|assumption].
      destruct R as (Rr & Rp & Rv); simpl in *.
      unfold reach; simpl. rewrite Rr, Rp, Rv.
      repeat split; [lia|].
      change (x :: sk) with ([x] ++ sk). now rewrite last_char_app.
Qed.

Lemma search_from_none (r : regex) (s : str) :
  forall p pv,
    search_from r p pv s = None ->
    forall skipped st0, reach (MState p pv s) skipped st0 -> match_at r st0 = None.
Proof.
  induction s as [|x s IH]; intros p pv H sk st0 (Rr & Rp & Rv); simpl in *.
  - destruct (match_at r (MState p pv [])) eqn:E; [discriminate|].
    destruct sk; [|discriminate]. simpl in *.
    destruct st0 as [p0 v0 r0]; simpl in *. subst.
    now rewrite Nat.add_0_r.
  - destruct (match_at r (MState p pv (x :: s))) eqn:E; [discriminate|].
    destruct sk as [|y sk]; simpl in *.
    + destruct st0 as [p0 v0 r0]; simpl in *. subst.
      now rewrite Nat.add_0_r.
    + inversion Rr; subst y. apply (IH _ _ H sk st0).
      unfold reach; simpl. repeat split; [assumption|lia|].
      rewrite Rv. change (x :: sk) with ([x] ++ sk). now rewrite last_char_app.
Qed.

Lemma valid_start (s : str) : valid s (start_state s).
Proof. exists []. simpl. auto. Qed.

Lemma valid_reach (s : str) (st st' : mstate) (w : str) :
  valid s st -> reach st w st' -> valid s st'.
Proof.
  intros (pre & E & P & V) (Rr & Rp & Rv).
  exists (pre ++ w). rewrite E, Rr, Rp, Rv, P, V, length_app, last_char_app, app_assoc.
  auto.
Qed.

Lemma valid_advance (s : str) (st : mstate) (x : N) (r : str) :
  valid s st -> rest st = x :: r -> valid s (advance x r st).
Proof.
  intros V E. apply (valid_reach (w := [x]) V).
  unfold reach, advance; simpl. rewrite E. repeat split; lia.
Qed.

Lemma valid_length (s : str) (st : mstate) :
  valid s st -> pos st + List.length (rest st) = List.length s.
Proof. intros (pre & E & P & V). rewrite E, length_app. lia. Qed.

Lemma valid_state (s : str) (st : mstate) :
  valid s st ->
  exists pre post,
    s = pre ++ post /\ st = MState (List.length pre) (last_char pre None) post.
Proof.
  intros (pre & E & P & V). exists pre, (rest st). split; [assumption|].
  destruct st; simpl in *. congruence.
Qed.

(** The matches [finditer] returns are matches of the pattern at positions
    of the subject, and they follow one another. *)
Lemma finditer_from_spec (r : regex) (s : str) :
  forall fuel st,
    valid s st ->
    ascending (pos st) (finditer_from fuel r st) /\
    Forall (fun m => exists st0, valid s st0 /\ match_at r st0 = Some m)
           (finditer_from fuel r st).
Proof.
  induction fuel as [|fuel IH]; intros st V; simpl; [auto|].
  destruct (search_from r (pos st) (prev st) (rest st)) as [m|] eqn:E;
    [|split; simpl; auto].
  apply search_from_sound in E as (sk & st0 & R & M).
  assert (R' : reach st sk st0) by (destruct st; exact R).
  assert (V0 : valid s st0) by (eapply valid_reach; eauto).
  destruct (match_at_sound _ _ M) as (Hs & w & _ & Rw).
  assert (Ve : valid s (m_endst m)) by (eapply valid_reach; eauto).
  assert (Hle : pos st <= m_start m) by (destruct R' as (_ & P & _); lia).
  assert (Hend : m_end m = m_start m + List.length w)
    by (unfold m_end; destruct Rw as (_ & P & _); lia).
  destruct (Nat.ltb (m_start m) (pos (m_endst m))) eqn:El.
  - apply Nat.ltb_lt in El. fold (m_end m) in El.
    destruct (IH _ Ve) as (Ha & Hf). split.
    + simpl. repeat split; [assumption|lia|].
      rewrite Nat.max_l by lia. exact Ha.
    + constructor; [now exists st0|assumption].
  - apply Nat.ltb_ge in El. fold (m_end m) in El.
    destruct (rest (m_endst m)) as [|x r'] eqn:Er.
    + split; [simpl; repeat split; [assumption|lia]|].
      constructor; [now exists st0|constructor].
    + destruct (IH _ (valid_advance Ve Er)) as (Ha & Hf). split.
      * simpl. repeat split; [assumption|lia|].
        rewrite Nat.max_r by lia.
        unfold advance in Ha; simpl in Ha. fold (m_end m) in Ha.
        replace (S (m_start m)) with (S (m_end m)) by lia. exact Ha.
      * constructor; [now exists st0|assumption].
Qed.

Lemma finditer_ascending (r : regex) (s : str) : ascending 0 (finditer r s).
Proof. exact (proj1 (finditer_from_spec r (S (List.length s)) (valid_start s))). Qed.

(** Each match of [finditer] cuts the subject in three. *)
Lemma finditer_In (r : regex) (s : str) (m : mres) :
  In m (finditer r s) ->
  exists pre w post,
    s = pre ++ w ++ post /\
    m_start m = List.length pre /\ m_end m = List.length pre + List.length w /\
    Matches r (MState (List.length pre) (last_char pre None) (w ++ post)) []
            w (m_caps m) /\
    reach (MState (List.length pre) (last_char pre None) (w ++ post)) w (m_endst m) /\
    rest (m_endst m) = post.
Proof.
  intros H.
  pose proof (proj2 (finditer_from_spec r (S (List.length s)) (valid_start s))) as F.
  rewrite Forall_forall in F. destruct (F _ H) as (st0 & V0 & M). clear F.
  destruct (match_at_sound _ _ M) as (Hs & w & Mw & R).
  destruct (valid_state V0) as (pre & post & E & Est). subst st0.
  pose proof R as (Rr & Rp & Rv). simpl in Rr, Rp, Hs.
  exists pre, w, (rest (m_endst m)). subst post.
  repeat split; auto.
Qed.

(** The fuel of [finditer] never runs out: any larger amount gives the same
    list. *)
Lemma finditer_from_fuel (r : regex) :
  forall fuel1 fuel2 st,
    List.length (rest st) < fuel1 -> List.length (rest st) < fuel2 ->
    finditer_from fuel1 r st = finditer_from fuel2 r st.
Proof.
  induction fuel1 as [|fuel1 IH]; intros fuel2 st H1 H2; [lia|].
  destruct fuel2 as [|fuel2]; [lia|]. simpl.
  destruct (search_from r (pos st) (prev st) (rest st)) as [m|] eqn:E; [|reflexivity].
  apply search_from_sound in E as (sk & st0 & (Rr & Rp & Rv) & M).
  destruct (match_at_sound _ _ M) as (Hs & w & _ & (Wr & Wp & Wv)).
  simpl in *.
  assert (L : List.length (rest st) =
              List.length sk + List.length w + List.length (rest (m_endst m))).
  { rewrite Rr, Wr, !length_app. lia. }
  f_equal.
  destruct (Nat.ltb (m_start m) (pos (m_endst m))) eqn:El.
  - apply Nat.ltb_lt in El. apply IH; lia.
  - destruct (rest (m_endst m)) as [|x r'] eqn:Er; [reflexivity|].
    apply IH; simpl in *; lia.
Qed.

Lemma finditer_nil_iff (r : regex) (s : str) :
  finditer r s = [] <-> re_search r s = None.
Proof.
  unfold finditer, re_search. simpl.
  destruct (search_from r 0 None s); split; intros H; try discriminate; reflexivity.
Qed.

(** ** The matcher does not depend on the offset

    Offsets only serve to report where a match lies, so matching at a
    position of a longer text is matching at the start of the rest of it,
    moved along. *)

Lemma rep_greedy_ext (A : Type) (k : cls) (r : str) :
  forall lo hi p pv (c1 c2 : mstate -> option A),
    (forall st, c1 st = c2 st) ->
    rep_greedy k lo hi p pv r c1 = rep_greedy k lo hi p pv r c2.
Proof.
  induction r as [|x r IH]; intros lo hi p pv c1 c2 H; simpl.
  - destruct lo; auto.
  - rewrite (IH (Nat.pred lo) (option_map Nat.pred hi) (S p) (Some x) c1 c2 H).
    destruct lo; rewrite ?H; reflexivity.
Qed.

Lemma rmatch_ext (r : regex) :
  forall (A : Type) st caps (c1 c2 : mstate -> captures -> option A),
    (forall st' caps', c1 st' caps' = c2 st' caps') ->
    rmatch r st caps c1 = rmatch r st caps c2.
Proof.
  induction r as [|k|s|r1 IH1 r2 IH2|r1 IH1 r2 IH2|k lo hi|r IH|n r IH|m|m|r IH];
    intros A st caps c1 c2 H; simpl.
  - apply H.
  - destruct (rest st) as [|x r']; [reflexivity|]. now rewrite H.
  - destruct (lit_match s (rest st)); [apply H|reflexivity].
  - apply IH1. intros st' caps'. now apply IH2.
  - now rewrite (IH1 A st caps c1 c2 H), (IH2 A st caps c1 c2 H).
  - apply rep_greedy_ext. intros st'. apply H.
  - now rewrite (IH A st caps c1 c2 H), H.
  - apply IH. intros st' caps'. apply H.
  - now rewrite H.
  - now rewrite H.
  - now rewrite H.
Qed.

Lemma rep_greedy_shift (A : Type) (k : cls) (d : nat) (r : str) :
  forall lo hi p pv (cont : mstate -> option A),
    rep_greedy k lo hi (p + d) pv r cont =
    rep_greedy k lo hi p pv r (fun st => cont (shift_state d st)).
Proof.
  induction r as [|x r IH]; intros lo hi p pv cont; simpl.
  - reflexivity.
  - rewrite <- (IH (Nat.pred lo) (option_map Nat.pred hi) (S p) (Some x) cont).
    reflexivity.
Qed.

Lemma rmatch_shift (d : nat) (r : regex) :
  forall (A : Type) st caps (cont : mstate -> captures -> option A),
    rmatch r (shift_state d st) caps cont =
    rmatch r st caps (fun st' caps' => cont (shift_state d st') caps').
Proof.
  induction r as [|k|s|r1 IH1 r2 IH2|r1 IH1 r2 IH2|k lo hi|r IH|n r IH|m|m|r IH];
    intros A st caps cont; simpl.
  - reflexivity.
  - destruct (rest st) as [|x r']; reflexivity.
  - destruct (lit_match s (rest st)); [|reflexivity].
    unfold shift_state; simpl. f_equal. f_equal. lia.
  - rewrite IH1. apply rmatch_ext. intros st' caps'. apply IH2.
  - now rewrite IH1, IH2.
  - apply rep_greedy_shift.
  - now rewrite IH.
  - rewrite IH. apply rmatch_ext. intros st' caps'.
    replace (pos (shift_state d st') - (pos st + d)) with (pos st' - pos st)
      by (unfold shift_state; simpl; lia).
    reflexivity.
  - reflexivity.
  - reflexivity.
  - rewrite IH. reflexivity.
Qed.

Lemma rep_greedy_map (A B : Type) (f : A -> B) (k : cls) (r : str) :
  forall lo hi p pv (cont : mstate -> option A),
    rep_greedy k lo hi p pv r (fun st => option_map f (cont st)) =
    option_map f (rep_greedy k lo hi p pv r cont).
Proof.
  induction r as [|x r IH]; intros lo hi p pv cont; simpl.
  - destruct lo; reflexivity.
  - rewrite IH.
    destruct (cls_mem k x && hi_allows hi); [|destruct lo; reflexivity].
    destruct (rep_greedy k (Nat.pred lo) (option_map Nat.pred hi) (S p) (Some x) r cont);
      [reflexivity|].
    destruct lo; reflexivity.
Qed.

Lemma rmatch_map (A B : Type) (f : A -> B) (r : regex) :
  forall st caps (cont : mstate -> captures -> option A),
    rmatch r st caps (fun st' caps' => option_map f (cont st' caps')) =
    option_map f (rmatch r st caps cont).
Proof.
  induction r as [|k|s|r1 IH1 r2 IH2|r1 IH1 r2 IH2|k lo hi|r IH|n r IH|m|m|r IH];
    intros st caps cont; simpl.
  - reflexivity.
  - destruct (rest st) as [|x t]; [reflexivity|]. destruct (cls_mem k x); reflexivity.
  - destruct (lit_match s (rest st)); reflexivity.
  - rewrite <- IH1. apply rmatch_ext. intros st' caps'. apply IH2.
  - rewrite IH1, IH2. destruct (rmatch r1 st caps cont); reflexivity.
  - apply rep_greedy_map.
  - rewrite IH. destruct (rmatch r st caps cont); reflexivity.
  - rewrite <- IH. reflexivity.
  - destruct (at_bol m st); reflexivity.
  - destruct (at_eol m st); reflexivity.
  - destruct (rmatch r st caps (fun _ _ => Some tt)); reflexivity.
Qed.

Lemma match_at_shift (d : nat) (r : regex) (st : mstate) :
  match_at r (shift_state d st) = option_map (shift_mres d) (match_at r st).
Proof.
  unfold match_at. rewrite rmatch_shift, <- rmatch_map.
  apply rmatch_ext. intros st' caps'. reflexivity.
Qed.

Lemma search_from_shift (d : nat) (r : regex) (s : str) :
  forall p pv,
    search_from r (p + d) pv s = option_map (shift_mres d) (search_from r p pv s).
Proof.
  induction s as [|x s IH]; intros p pv; simpl.
  - change (MState (p + d) pv []) with (shift_state d (MState p pv [])).
    rewrite match_at_shift. destruct (match_at r (MState p pv [])); reflexivity.
  - change (MState (p + d) pv (x :: s)) with (shift_state d (MState p pv (x :: s))).
    rewrite match_at_shift.
    destruct (match_at r (MState p pv (x :: s))); [reflexivity|].
    apply (IH (S p) (Some x)).
Qed.

Lemma finditer_from_shift (d : nat) (r : regex) :
  forall fuel st,
    finditer_from fuel r (shift_state d st) =
    map (shift_mres d) (finditer_from fuel r st).
Proof.
  induction fuel as [|fuel IH]; intros st; [reflexivity|].
  cbn [finditer_from]. cbn [shift_state pos prev rest].
  rewrite search_from_shift.
  destruct (search_from r (pos st) (prev st) (rest st)) as [m|]; [|reflexivity].
  cbn [option_map map shift_mres m_start m_endst shift_state pos prev rest].
  f_equal.
  replace (Nat.ltb (m_start m + d) (pos (m_endst m) + d))
    with (Nat.ltb (m_start m) (pos (m_endst m))).
  2:{ destruct (Nat.ltb_spec (m_start m) (pos (m_endst m)));
      destruct (Nat.ltb_spec (m_start m + d) (pos (m_endst m) + d)); auto; lia. }
  destruct (Nat.ltb (m_start m) (pos (m_endst m))).
  - apply (IH (m_endst m)).
  - destruct (rest (m_endst m)) as [|x r']; [reflexivity|].
    apply (IH (advance x r' (m_endst m))).
Qed.

Lemma search_from_here (r : regex) (p : nat) (pv : option N) (s : str) (m : mres) :
  match_at r (MState p pv s) = Some m -> search_from r p pv s = Some m.
Proof. intros H. destruct s; simpl; now rewrite H. Qed.

Lemma app_same_length (A : Type) (a b x y : list A) :
  List.length a = List.length b -> a ++ x = b ++ y -> a = b /\ x = y.
Proof.
  revert b. induction a as [|c a IH]; intros [|d b] L E; simpl in *; try discriminate.
  - auto.
  - inv E. destruct (IH b) as (-> & ->); auto.
Qed.

(** When the first match starts right after [A], the matches in [A ++ T]
    are those found in [T] after the last character of [A], moved by the
    length of [A]. *)
Lemma finditer_prefix (r : regex) (A T : str) :
  option_map m_start (re_search r (A ++ T)) = Some (List.length A) ->
  finditer r (A ++ T) =
  map (shift_mres (List.length A))
      (finditer_from (S (List.length T)) r (MState 0 (last_char A None) T)).
Proof.
  intros H. unfold re_search in H.
  destruct (search_from r 0 None (A ++ T)) as [m|] eqn:E; [|discriminate].
  assert (H1 : m_start m = List.length A) by (simpl in H; congruence). clear H.
  pose proof E as E'.
  apply search_from_sound in E' as (sk & st0 & (Rr & Rp & Rv) & M). simpl in Rr, Rp, Rv.
  destruct (match_at_sound _ _ M) as (Hs & _).
  assert (L : List.length sk = List.length A) by lia.
  destruct (app_same_length _ _ _ _ L (eq_sym Rr)) as (-> & ET).
  assert (Est : st0 = MState (List.length A) (last_char A None) T).
  { destruct st0 as [p0 v0 r0]. simpl in *. congruence. }
  subst st0.
  rewrite <- finditer_from_shift.
  change (shift_state (List.length A) (MState 0 (last_char A None) T))
    with (MState (List.length A) (last_char A None) T).
  rewrite (@finditer_from_fuel r (S (List.length T)) (S (List.length (A ++ T)))
             (MState (List.length A) (last_char A None) T))
    by (simpl; rewrite ?length_app; lia).
  unfold finditer. cbn [finditer_from start_state pos prev rest].
  rewrite E, (@search_from_here _ _ _ _ _ M). reflexivity.
Qed.

(** ** No match of the program's patterns is empty *)

Lemma Matches_min_len (r : regex) (st : mstate) (c : captures) (w : str) (c' : captures) :
  Matches r st c w c' -> min_len r <= List.length w.
Proof.
  induction 1; simpl; try lia.
  rewrite length_app. lia.
Qed.

(** For such a pattern the scan always resumes where the match ended. *)
Lemma finditer_from_step (r : regex) (fuel : nat) (st : mstate) :
  1 <= min_len r ->
  finditer_from (S fuel) r st =
  match search_from r (pos st) (prev st) (rest st) with
  | None => []
  | Some m => m :: finditer_from fuel r (m_endst m)
  end.
Proof.
  intros H. simpl.
  destruct (search_from r (pos st) (prev st) (rest st)) as [m|] eqn:E; [|reflexivity].
  apply search_from_sound in E as (sk & st0 & _ & M).
  destruct (match_at_sound _ _ M) as (Hs & w & Mw & (_ & Rp & _)).
  apply Matches_min_len in Mw.
  replace (Nat.ltb (m_start m) (pos (m_endst m))) with true; [reflexivity|].
  symmetry. apply Nat.ltb_lt. lia.
Qed.

Lemma scanned_patterns_nonempty :
  Forall (fun r => 1 <= min_len r) scanned_patterns /\
  forall (multiline : bool) (number : N), 1 <= min_len (number_mark multiline number).
Proof.
  split.
  - unfold scanned_patterns. simpl. repeat constructor; simpl; lia.
  - intros multiline number. simpl. lia.
Qed.

(** ** Reading a match off its pattern *)

Ltac inv_matches :=
  repeat match goal with
         | H : Matches (Seq _ _) _ _ _ _ |- _ => inv H
         | H : Matches (Alt _ _) _ _ _ _ |- _ => inv H
         | H : Matches (Opt _) _ _ _ _ |- _ => inv H
         | H : Matches (Grp _ _) _ _ _ _ |- _ => inv H
         | H : Matches (Set_ _) _ _ _ _ |- _ => inv H
         | H : Matches (Lit _) _ _ _ _ |- _ => inv H
         | H : Matches (Rep _ _ _) _ _ _ _ |- _ => inv H
         | H : Matches Eps _ _ _ _ |- _ => inv H
         | H : Matches (Bol _) _ _ _ _ |- _ => inv H
         | H : Matches (Eol _) _ _ _ _ |- _ => inv H
         | H : Matches (NotAhead _) _ _ _ _ |- _ => inv H
         end.

Lemma at_bol_line_start (pre post : str) (p : nat) :
  at_bol true (MState p (last_char pre None) post) = true -> line_start pre.
Proof.
  unfold at_bol, line_start; simpl.
  destruct pre as [|x pre] using rev_ind; [now left|].
  rewrite last_char_snoc. simpl. intros H. apply N.eqb_eq in H. subst.
  right. now exists pre.
Qed.

Lemma at_eol_line_end (p : nat) (pv : option N) (post : str) :
  at_eol true (MState p pv post) = true -> line_end post.
Proof.
  unfold at_eol, line_end; simpl. destruct post as [|c r]; [now left|].
  rewrite andb_true_r. intros H. apply N.eqb_eq in H. subst.
  right. now exists r.
Qed.

Lemma reach_rest (st st1 st' : mstate) (w1 w2 : str) :
  reach st w1 st1 -> reach st (w1 ++ w2) st' -> rest st1 = w2 ++ rest st'.
Proof.
  intros (R1 & _) (R2 & _). rewrite R1, <- app_assoc in R2.
  now apply app_inv_head in R2.
Qed.

Lemma reach_rest_eq (st st1 st' : mstate) (w1 w : str) :
  reach st w1 st1 -> reach st w st' ->
  forall w2, w = w1 ++ w2 -> rest st1 = w2 ++ rest st'.
Proof. intros R1 R w2 ->. eapply reach_rest; eauto. Qed.

Lemma reach_fun_eq (st st1 st2 : mstate) (w1 w2 : str) :
  reach st w1 st1 -> reach st w2 st2 -> w1 = w2 -> st1 = st2.
Proof. intros R1 R2 E. subst. eapply reach_fun; eauto. Qed.

(** Composes the [reach] facts at hand that start from [st]. *)
Ltac reach_from st :=
  repeat match goal with
         | H1 : reach st ?w1 ?b, H2 : reach ?b ?w2 ?c |- _ =>
             lazymatch goal with
             | _ : reach st _ c |- _ => fail
             | _ => pose proof (reach_trans H1 H2)
             end
         end.

Ltac norm_app := rewrite <- ?app_assoc; simpl; rewrite ?app_nil_r.

Lemma length_pos_nonnil (A : Type) (l : list A) : 1 <= List.length l -> l <> [].
Proof. destruct l; simpl; [lia|discriminate]. Qed.

(** What a match of [QSTART] is made of. *)
Lemma QSTART_shape (st : mstate) (c : captures) (w : str) (c' : captures) (st' : mstate) :
  Matches QSTART st c w c' -> reach st w st' ->
  at_bol true st = true /\
  exists ws ds sep ws',
    w = ws ++ ds ++ [sep] ++ ws' /\
    all_space ws /\ ds <> [] /\ all_digit ds /\ all_space ws' /\
    (sep = C_DUNHAO \/ sep = C_DOT /\ no_digit_ahead (ws' ++ rest st')) /\
    c' = (1, ds) :: c.
Proof.
  unfold QSTART, Star, Plus. intros M R. inv_matches.
  - (* the separator is the full-width one *)
    split; [assumption|].
    do 4 eexists. split; [simpl; reflexivity|].
    match goal with H : cls_mem (CChar _) _ = true |- _ =>
      simpl in H; apply N.eqb_eq in H; subst end.
    repeat split; auto using length_pos_nonnil.
  - split; [assumption|].
    do 4 eexists. split; [simpl; reflexivity|].
    match goal with H : cls_mem (CChar _) _ = true |- _ =>
      simpl in H; apply N.eqb_eq in H; subst end.
    repeat split; auto using length_pos_nonnil.
    right. split; [reflexivity|].
    (* the look-ahead was evaluated right after the dot *)
    reach_from st.
    match goal with
    | HL : rmatch (Set_ CDigit) ?s _ _ = None, H : reach st _ ?s |- no_digit_ahead (?x ++ _) =>
        pose proof (reach_rest_eq H R x) as Hr; simpl in HL;
        rewrite Hr in HL by (norm_app; reflexivity)
    end.
    unfold no_digit_ahead.
    match goal with |- match ?l with _ => _ end => destruct l as [|y t]; [exact I|] end.
    destruct (is_digit y); [discriminate|reflexivity].
Qed.

(** ** Segmentation *)

Lemma QSTART_nonempty (st : mstate) (c : captures) (w : str) (c' : captures) (st' : mstate) :
  Matches QSTART st c w c' -> reach st w st' -> 1 <= List.length w.
Proof.
  intros M R. destruct (QSTART_shape M R) as (_ & ws & ds & sep & ws' & -> & _).
  rewrite !length_app. simpl. lia.
Qed.

Lemma finditer_QSTART_bounds (text : str) :
  Forall (fun m => m_start m < m_end m <= List.length text) (finditer QSTART text).
Proof.
  apply Forall_forall. intros m H.
  apply finditer_In in H as (pre & w & post & -> & Hs & He & M & R & _).
  pose proof (QSTART_nonempty M R). rewrite !length_app. lia.
Qed.

Lemma blocks_of_chained (n : nat) :
  forall ms lo m0,
    ascending lo (m0 :: ms) ->
    Forall (fun m => m_start m < m_end m <= n) (m0 :: ms) ->
    chained (blocks_of n (m0 :: ms)) (m_start m0) n.
Proof.
  induction ms as [|m1 ms IH]; intros lo m0 A F.
  - inv F. simpl. unfold b_start, b_end; simpl. lia.
  - inv F. destruct A as (_ & _ & A).
    change (blocks_of n (m0 :: m1 :: ms))
      with ((m_start m0, m_start m1, int_of_digits (m_group 1 m0))
              :: blocks_of n (m1 :: ms)).
    cbn [chained]. unfold b_start at 1 2, b_end at 1 2. cbn [fst snd].
    pose proof A as (A1 & _).
    split; [reflexivity|]. split; [lia|]. eapply IH; eauto.
Qed.

Lemma chained_le (bs : list block) : forall a b, chained bs a b -> a <= b.
Proof.
  induction bs as [|x bs IH]; intros a b H; simpl in H; [lia|].
  destruct H as (H1 & H2 & H3). apply IH in H3. lia.
Qed.

Lemma chained_bounds (bs : list block) :
  forall a b, chained bs a b ->
    Forall (fun x => a <= b_start x /\ b_start x < b_end x /\ b_end x <= b) bs.
Proof.
  induction bs as [|x bs IH]; intros a b H; simpl in H; [constructor|].
  destruct H as (H1 & H2 & H3). pose proof (chained_le _ _ _ H3).
  constructor; [lia|]. apply IH in H3.
  eapply Forall_impl; [|exact H3]. simpl. intros; lia.
Qed.

Lemma chained_cover (bs : list block) :
  forall a b, chained bs a b ->
    forall p, a <= p < b <-> exists x, In x bs /\ b_start x <= p < b_end x.
Proof.
  induction bs as [|x bs IH]; intros a b H p; simpl in H.
  - subst. split; [lia|]. intros (x & [] & _).
  - destruct H as (H1 & H2 & H3). pose proof (chained_le _ _ _ H3).
    specialize (IH _ _ H3 p). split.
    + intros Hp. destruct (Nat.lt_ge_cases p (b_end x)).
      * exists x. split; [now left|lia].
      * destruct (proj1 IH) as (y & Hy & Hp'); [lia|].
        exists y. split; [now right|assumption].
    + intros (y & [<-|Hy] & Hp); [lia|].
      destruct (proj2 IH) as (Ha & Hb); [now exists y|]. lia.
Qed.

Lemma chained_apart (bs : list block) :
  forall a b, chained bs a b ->
    forall i j bi bj, i < j ->
      nth_error bs i = Some bi -> nth_error bs j = Some bj ->
      b_end bi <= b_start bj.
Proof.
  induction bs as [|x bs IH]; intros a b H i j bi bj Hij Hi Hj.
  - destruct i; discriminate.
  - simpl in H. destruct H as (H1 & H2 & H3).
    destruct j as [|j]; [lia|]. simpl in Hj.
    destruct i as [|i]; simpl in Hi.
    + inv Hi. apply nth_error_In in Hj.
      pose proof (chained_bounds _ _ _ H3) as F. rewrite Forall_forall in F.
      apply F in Hj. exact (proj1 Hj).
    + apply (IH _ _ H3 i j bi bj); [lia|assumption|assumption].
Qed.

Lemma blocks_of_In (n : nat) (ms : list mres) (b : block) :
  In b (blocks_of n ms) ->
  exists m, In m ms /\ b_start b = m_start m /\
            b_number b = int_of_digits (m_group 1 m).
Proof.
  induction ms as [|m ms IH]; simpl; [intros []|].
  intros [<-|H].
  - exists m. auto.
  - destruct (IH H) as (m' & Hm & E). exists m'. auto.
Qed.

Lemma finditer_QSTART_shape (text : str) (m : mres) :
  In m (finditer QSTART text) ->
  exists pre ws ds sep ws' post,
    text = pre ++ ws ++ ds ++ [sep] ++ ws' ++ post /\
    m_start m = List.length pre /\ line_start pre /\
    all_space ws /\ ds <> [] /\ all_digit ds /\ m_group 1 m = ds /\
    (sep = C_DUNHAO \/ sep = C_DOT /\ no_digit_ahead (ws' ++ post)) /\
    all_space ws'.
Proof.
  intros H. apply finditer_In in H as (pre & w & post & E & Hs & He & M & R & Hp).
  destruct (QSTART_shape M R) as (B & ws & ds & sep & ws' & -> & W1 & D1 & D2 & W2 & Hsep & C).
  exists pre, ws, ds, sep, ws', post.
  split; [rewrite E; now norm_app|].
  split; [assumption|]. split; [eapply at_bol_line_start; eauto|].
  repeat split; auto.
  - unfold m_group. rewrite C. reflexivity.
  - now rewrite Hp in Hsep.
Qed.

(** C4. A question start is recognised only where a line begins, after
    optional white space, with one or more digits followed by the separator
    [、] or by a period that no digit follows: every block that segmentation
    cuts starts at such a place and carries those digits as its number.  In
    particular the text [参见 1.2.1 节说明] gives no block at all, and in a
    document that also has real questions no block starts at the lines that
    mention [1.2.1]. *)
Theorem C4_question_start_guard :
  (forall (text : str) (b : block),
      In b (segment text) ->
      exists pre ws ds sep ws' post,
        text = pre ++ ws ++ ds ++ [sep] ++ ws' ++ post /\
        b_start b = List.length pre /\ line_start pre /\
        all_space ws /\ ds <> [] /\ all_digit ds /\
        b_number b = int_of_digits ds /\
        (sep = C_DUNHAO \/ sep = C_DOT /\ no_digit_ahead (ws' ++ post)) /\
        all_space ws') /\
  segment (normalize_spaces DOC_VERSION) = [] /\
  segment (normalize_spaces DOC_VERSION_MIXED) = [(0, 29, 1%N); (29, 35, 2%N)].
Proof.
  split; [|split; vm_compute; reflexivity].
  intros text b H. unfold segment in H.
  apply blocks_of_In in H as (m & Hm & Hs & Hn).
  apply finditer_QSTART_shape in Hm
    as (pre & ws & ds & sep & ws' & post & E & Hs' & L & W1 & D1 & D2 & G & Hsep & W2).
  exists pre, ws, ds, sep, ws', post.
  repeat split; auto; congruence.
Qed.

(** C4 at the second question of [DOC_VERSION_MIXED]. *)
Lemma C4_question_start_guard_witness :
  In (29, 35, 2%N) (segment (normalize_spaces DOC_VERSION_MIXED)) /\
  exists pre ws ds sep ws' post,
    normalize_spaces DOC_VERSION_MIXED = pre ++ ws ++ ds ++ [sep] ++ ws' ++ post /\
    b_start (29, 35, 2%N) = List.length pre /\ line_start pre /\
    all_space ws /\ ds <> [] /\ all_digit ds /\
    b_number (29, 35, 2%N) = int_of_digits ds /\
    (sep = C_DUNHAO \/ sep = C_DOT /\ no_digit_ahead (ws' ++ post)) /\
    all_space ws'.
Proof.
  split.
  - vm_compute. right. left. reflexivity.
  - apply (proj1 C4_question_start_guard). vm_compute. right. left. reflexivity.
Defined.

(** C7. When the text has at least one question start, the spans of the
    blocks are contiguous, in ascending order and non-overlapping, and
    together they cover exactly the positions from the start of the first
    match to the end of the text: the first block starts at the first match,
    every block is non-empty and ends where the next one starts, and the
    last block ends at the end of the text. *)
Theorem C7_segmentation_coverage (text : str) (first : nat) :
  option_map m_start (hd_error (finditer QSTART text)) = Some first ->
  chained (segment text) first (List.length text) /\
  (forall p, first <= p < List.length text <->
             exists b, In b (segment text) /\ b_start b <= p < b_end b) /\
  (forall i j bi bj, i < j ->
     nth_error (segment text) i = Some bi -> nth_error (segment text) j = Some bj ->
     b_end bi <= b_start bj).
Proof.
  intros H. unfold segment.
  pose proof (finditer_ascending QSTART text) as A.
  pose proof (finditer_QSTART_bounds text) as F.
  destruct (finditer QSTART text) as [|m0 ms]; [discriminate|].
  simpl in H. inv H.
  pose proof (blocks_of_chained A F) as C.
  split; [exact C|]. split.
  - apply chained_cover. exact C.
  - eapply chained_apart. exact C.
Qed.

(** C7 at the document [DOC_VERSION_MIXED]. *)
Lemma C7_segmentation_coverage_witness :
  option_map m_start (hd_error (finditer QSTART (normalize_spaces DOC_VERSION_MIXED)))
    = Some 0 /\
  chained (segment (normalize_spaces DOC_VERSION_MIXED)) 0
          (List.length (normalize_spaces DOC_VERSION_MIXED)).
Proof.
  assert (H : option_map m_start
                (hd_error (finditer QSTART (normalize_spaces DOC_VERSION_MIXED))) = Some 0)
    by (vm_compute; reflexivity).
  split.
  - exact H.
  - exact (proj1 (@C7_segmentation_coverage (normalize_spaces DOC_VERSION_MIXED) 0 H)).
Defined.

(** ** Blocks without content *)

Lemma rep_greedy_all (A : Type) (k : cls) (w : str) :
  forall lo p pv (cont : mstate -> option A) a,
    Forall (fun x => cls_mem k x = true) w -> lo <= List.length w ->
    cont (MState (p + List.length w) (last_char w pv) []) = Some a ->
    rep_greedy k lo None p pv w cont = Some a.
Proof.
  induction w as [|x w IH]; intros lo p pv cont a F L H; simpl in *.
  - replace lo with 0 by lia. now rewrite Nat.add_0_r in H.
  - inv F. match goal with H : cls_mem k x = true |- _ => rewrite H end. simpl.
    rewrite (IH (Nat.pred lo) (S p) (Some x) cont a); auto; [lia|].
    replace (S p + List.length w) with (p + S (List.length w)) by lia.
    replace (last_char w (Some x)) with (last_char (x :: w) pv); [exact H|].
    change (x :: w) with ([x] ++ w). now rewrite last_char_app.
Qed.

Lemma clean_line_all_space (l : str) : all_space l -> clean_line l = [].
Proof.
  intros F. unfold clean_line, re_sub, finditer.
  destruct l as [|x l]; [reflexivity|].
  set (e := MState (0 + List.length (x :: l)) (last_char (x :: l) None) []).
  assert (M : match_at (Plus CSpace) (start_state (x :: l)) = Some (MRes 0 e [])).
  { unfold match_at, Plus. cbn [rmatch start_state pos prev rest].
    apply rep_greedy_all; [exact F|simpl; lia|reflexivity]. }
  cbn [finditer_from start_state pos prev rest search_from].
  unfold start_state in M. rewrite M.
  cbn [m_start m_endst pos e]. cbn [List.length Nat.add Nat.ltb Nat.leb].
  destruct (List.length l); cbn [finditer_from search_from pos prev rest e];
    unfold match_at; cbn; rewrite skipn_all; reflexivity.
Qed.

Lemma split_on_all_space (s : str) :
  all_space s -> Forall all_space (split_on LF s).
Proof.
  induction s as [|c s IH]; intros F; simpl.
  - repeat constructor.
  - inv F. specialize (IH H2).
    destruct (c =? LF)%N.
    + constructor; [constructor|assumption].
    + destruct (split_on LF s) as [|l ls]; [repeat constructor; assumption|].
      inv IH. constructor; [constructor; assumption|assumption].
Qed.

Lemma clean_lines_all_space (s : str) : all_space s -> clean_lines s = [].
Proof.
  intros F. unfold clean_lines. apply split_on_all_space in F.
  induction F as [|l ls Hl _ IH]; [reflexivity|].
  simpl. rewrite (clean_line_all_space Hl). simpl. exact IH.
Qed.

(** C9. Structural absence is not an error.  The parser is a total
    function to lists of records; when the normalised text has no question
    start anywhere, [parse_questions] returns the empty list, and a block
    that leaves no non-empty line once its lines are trimmed -- which is what
    a block of white space does -- gives no record. *)
Theorem C9_structural_absence :
  (forall plain source_name : str,
      re_search QSTART (normalize_spaces plain) = None ->
      parse_questions plain source_name = []) /\
  (forall (block_text : str) (number : N) (sec source_name : str),
      clean_lines block_text = [] ->
      parse_block_common block_text number sec source_name = []) /\
  (forall (block_text : str) (number : N) (sec source_name : str),
      all_space block_text ->
      parse_block_common block_text number sec source_name = []).
Proof.
  split; [|split].
  - intros plain src H. unfold parse_questions, segment.
    apply finditer_nil_iff in H. rewrite H. reflexivity.
  - intros b n sec src H. unfold parse_block_common. rewrite H. reflexivity.
  - intros b n sec src H. unfold parse_block_common.
    rewrite (clean_lines_all_space H). reflexivity.
Qed.

(** C9 at the document [DOC_VERSION], which has no question start. *)
Lemma C9_structural_absence_witness :
  re_search QSTART (normalize_spaces DOC_VERSION) = None /\
  parse_questions DOC_VERSION (utf8 "a.txt") = [].
Proof.
  split.
  - vm_compute. reflexivity.
  - apply (proj1 C9_structural_absence). vm_compute. reflexivity.
Defined.

(** ** Reading comprehension *)

Lemma SUBQ_START_group (st : mstate) (c : captures) (w : str) (c' : captures) :
  Matches SUBQ_START st c w c' ->
  exists k, c' = (1, k) :: c /\ all_digit k /\ 1 <= List.length k <= 2.
Proof.
  unfold SUBQ_START, Star. intros M. inv_matches.
  eexists. split; [reflexivity|]. split; [assumption|].
  simpl in *. lia.
Qed.

Lemma finditer_SUBQ_group (s : str) :
  Forall (fun m => all_digit (m_group 1 m) /\ 1 <= List.length (m_group 1 m) <= 2)
         (finditer SUBQ_START s).
Proof.
  apply Forall_forall. intros m H.
  apply finditer_In in H as (pre & w & post & _ & _ & _ & M & _).
  apply SUBQ_START_group in M as (k & C & D & L).
  unfold m_group. rewrite C. simpl. auto.
Qed.

Lemma rstrip_close_paren (stm : str) :
  strip stm = stm ->
  rstrip ([41; 32]%N ++ stm) = 41%N :: (if nonempty stm then SP :: stm else []).
Proof.
  intros H. destruct (stripped_cases H) as [->|(_ & R & Hn)]; [reflexivity|].
  simpl app. rewrite !rstrip_cons, R.
  destruct stm; [contradiction|reflexivity].
Qed.

Lemma strip_compose (c : N) (a b : str) :
  is_space c = false -> rstrip b <> [] ->
  strip ((c :: a) ++ b) = (c :: a) ++ rstrip b.
Proof.
  intros Hc Hb. unfold strip. simpl app at 1.
  rewrite (lstrip_nonspace c (a ++ b) Hc).
  change (c :: a ++ b) with ((c :: a) ++ b). rewrite rstrip_app.
  destruct (rstrip b); [contradiction|reflexivity].
Qed.

Lemma full_stem_of_composed (passage k stm : str) :
  strip stm = stm -> full_stem_of passage k stm = composed_stem passage k stm.
Proof.
  intros H. unfold full_stem_of, composed_stem.
  change (utf8 "(") with [40%N]. change (utf8 ") ") with [41%N; 32%N].
  pose proof (rstrip_close_paren H) as R.
  assert (Hne : rstrip ([41; 32]%N ++ stm) <> []) by (rewrite R; discriminate).
  destruct (nonempty passage).
  - transitivity
      (strip ((12304%N :: (tl S_PASSAGE_TAG ++ passage ++ [LF; LF] ++ [40%N] ++ k))
                ++ ([41%N; 32%N] ++ stm))).
    { f_equal. unfold S_PASSAGE_TAG. simpl. rewrite <- ?app_assoc. reflexivity. }
    rewrite strip_compose by (reflexivity || assumption). rewrite R.
    unfold S_PASSAGE_TAG. simpl. rewrite <- ?app_assoc. reflexivity.
  - transitivity (strip ((40%N :: k) ++ ([41%N; 32%N] ++ stm))); [reflexivity|].
    rewrite strip_compose by (reflexivity || assumption). rewrite R. reflexivity.
Qed.

Lemma sub_records_map (bw passage : str) (number : N) (source_name : str)
    (subs : list mres) :
  sub_records bw passage number source_name subs =
  map (fun me => sub_record bw passage number source_name (fst me) (snd me))
      (with_ends (List.length bw) subs).
Proof.
  induction subs as [|m tl IH]; [reflexivity|].
  cbn [sub_records with_ends map fst snd]. now rewrite IH.
Qed.

Lemma with_ends_length (n : nat) (subs : list mres) :
  List.length (with_ends n subs) = List.length subs.
Proof. induction subs; simpl; congruence. Qed.

Lemma with_ends_fst (n : nat) (subs : list mres) :
  map fst (with_ends n subs) = subs.
Proof. induction subs; simpl; congruence. Qed.

Lemma sub_record_fields (bw passage : str) (number : N) (source_name : str)
    (m : mres) (e : nat) :
  let q := sub_record bw passage number source_name m e in
  plain_reading_record q /\ source q = source_name /\ number_in_source q = number /\
  stem q = full_stem_of passage (m_group 1 m)
             (strip (join [SP] (stem_lines_of (sub_lines bw m e)))).
Proof.
  unfold sub_record, plain_reading_record.
  destruct (parse_answer_from_lines (sub_lines bw m e) 0) as [ans next_idx].
  simpl. auto 10.
Qed.

(** With at least one marker the block is fanned out, one record a marker. *)
Lemma split_reading_block_map (block_text : str) (number : N) (source_name : str) :
  0 < List.length (finditer SUBQ_START (strip_number block_text number)) ->
  split_reading_block block_text number source_name =
  map (fun me => sub_record (strip_number block_text number)
                   (reading_passage block_text number) number source_name
                   (fst me) (snd me))
      (reading_subs block_text number).
Proof.
  unfold split_reading_block, reading_passage, reading_subs. intros H.
  destruct (finditer SUBQ_START (strip_number block_text number)) as [|m0 ms] eqn:E;
    [simpl in H; lia|].
  apply sub_records_map.
Qed.

(** *** A block made of a number, a passage and sub-question lines *)

Lemma uint_chars_digits (d : Decimal.uint) :
  Forall (fun c => is_space c = false) (uint_chars d).
Proof. induction d; simpl; constructor; auto. Qed.

Lemma str_of_int_head (n : N) :
  exists d D, str_of_int n = d :: D /\ is_space d = false.
Proof.
  unfold str_of_int.
  assert (H : N.to_uint n <> Decimal.Nil).
  { destruct n; simpl; [discriminate|]. apply DecimalPos.Unsigned.to_uint_nonnil. }
  pose proof (uint_chars_digits (N.to_uint n)) as F.
  destruct (N.to_uint n); try contradiction; simpl in *; inv F; eauto.
Qed.

Lemma stripped_head (s : str) :
  strip s = s -> s <> [] -> exists c t, s = c :: t /\ is_space c = false.
Proof.
  intros H Hn. destruct (stripped_cases H) as [->|(L & _ & _)]; [contradiction|].
  destruct s as [|c t]; [contradiction|]. exists c, t. split; [reflexivity|].
  simpl in L. destruct (is_space c) eqn:E; [|reflexivity].
  exfalso. destruct (lstrip_cases t) as [E0|(x & y & E0 & Hx)]; rewrite E0 in L.
  - discriminate.
  - inv L. congruence.
Qed.

Lemma rep_greedy_stop (A : Type) (k : cls) (hi : option nat) (p : nat) (pv : option N)
    (x : N) (r : str) (cont : mstate -> option A) :
  hd_error r = Some x -> cls_mem k x = false ->
  rep_greedy k 0 hi p pv r cont = cont (MState p pv r).
Proof.
  intros E H. destruct r as [|y r]; [discriminate|]. inv E. simpl. now rewrite H.
Qed.

Lemma lit_match_app (s r : str) : lit_match s (s ++ r) = Some r.
Proof.
  induction s as [|x s IH]; simpl; [reflexivity|]. now rewrite N.eqb_refl.
Qed.

Lemma skipn_past (A : Type) (a : list A) (x : A) (y : list A) :
  skipn (S (0 + List.length a)) (a ++ x :: y) = y.
Proof.
  simpl. induction a as [|c a IH]; [reflexivity|]. simpl. destruct a; simpl in *; auto.
Qed.

Lemma strip_number_reading_block (number : N) (passage tail : str) :
  strip passage = passage -> passage <> [] ->
  rstrip tail = tail -> tail <> [] ->
  strip_number (reading_block number passage tail) number = passage ++ LF :: tail.
Proof.
  intros Hp Hpn Ht Htn.
  destruct (stripped_head Hp Hpn) as (c & P' & -> & Hc).
  destruct (str_of_int_head number) as (d & D & ED & Hd).
  unfold strip_number, reading_block, re_sub.
  set (block := str_of_int number ++ [C_DUNHAO] ++ (c :: P') ++ [LF] ++ tail).
  set (Y := (c :: P') ++ [LF] ++ tail).
  assert (M : match_at (number_mark true number) (MState 0 None block) =
              Some (MRes 0 (MState (S (0 + List.length (str_of_int number))) (Some C_DUNHAO) Y) [])).
  { unfold match_at, number_mark, Star. cbn [rmatch at_bol prev pos rest].
    rewrite (@rep_greedy_stop _ CSpace None 0 None d block)
      by (unfold block; rewrite ?ED; auto).
    cbn [rmatch pos prev rest]. unfold block at 1.
    change ([C_DUNHAO] ++ (c :: P') ++ [LF] ++ tail) with (C_DUNHAO :: Y).
    rewrite lit_match_app. cbn [rmatch pos prev rest].
    change (cls_mem (COneOf ENUM_SEPS) C_DUNHAO) with true. cbn iota.
    unfold advance. cbn [pos prev rest].
    rewrite (@rep_greedy_stop _ CSpace None _ _ c Y) by (auto). reflexivity. }
  unfold finditer.
  rewrite finditer_from_step by (simpl; lia).
  cbn [start_state pos prev rest].
  rewrite (@search_from_here _ _ _ _ _ M).
  cbn [firstn sub_pieces m_start m_end m_endst pos]. unfold slice.
  cbn [Nat.sub firstn app].
  unfold block. change ([C_DUNHAO] ++ (c :: P') ++ [LF] ++ tail) with (C_DUNHAO :: Y).
  rewrite skipn_past. unfold Y.
  change ((c :: P') ++ [LF] ++ tail) with ((c :: P') ++ (LF :: tail)).
  rewrite strip_compose; [|exact Hc|].
  - rewrite rstrip_cons, Ht. destruct tail; [contradiction|reflexivity].
  - rewrite rstrip_cons, Ht. destruct tail; [contradiction|discriminate].
Qed.

Lemma skipn_shift (A : Type) (a t : list A) (n : nat) :
  skipn (n + List.length a) (a ++ t) = skipn n t.
Proof.
  rewrite skipn_app, skipn_all2 by lia.
  replace (n + List.length a - List.length a) with n by lia. reflexivity.
Qed.

Lemma slice_shift (a t : str) (i j : nat) :
  slice (a ++ t) (i + List.length a) (j + List.length a) = slice t i j.
Proof.
  unfold slice. rewrite skipn_shift.
  replace (j + List.length a - (i + List.length a)) with (j - i) by lia. reflexivity.
Qed.

Lemma sub_record_shift (a t passage : str) (number : N) (source_name : str)
    (m : mres) (e : nat) :
  sub_record (a ++ t) passage number source_name
             (shift_mres (List.length a) m) (e + List.length a) =
  sub_record t passage number source_name m e.
Proof.
  unfold sub_record, sub_lines, m_group. cbn [shift_mres m_start m_caps].
  now rewrite slice_shift.
Qed.

Lemma sub_records_shift (a t passage : str) (number : N) (source_name : str)
    (subs : list mres) :
  sub_records (a ++ t) passage number source_name (map (shift_mres (List.length a)) subs) =
  sub_records t passage number source_name subs.
Proof.
  induction subs as [|m tl IH]; [reflexivity|].
  cbn [map sub_records]. rewrite IH. f_equal.
  destruct tl as [|m' tl]; cbn [map].
  - replace (List.length (a ++ t)) with (List.length t + List.length a)
      by (rewrite length_app; lia).
    apply sub_record_shift.
  - apply sub_record_shift.
Qed.

Lemma finditer_hd (r : regex) (s : str) : hd_error (finditer r s) = re_search r s.
Proof.
  unfold finditer, re_search. simpl.
  destruct (search_from r 0 None s); reflexivity.
Qed.

(** The fan-out of a block depends on the passage only through the stems:
    the sub-questions are found and parsed in the lines after it. *)
Lemma split_reading_block_tail (number : N) (source_name passage tail : str) :
  strip passage = passage -> passage <> [] ->
  rstrip tail = tail -> tail <> [] ->
  option_map m_start (re_search SUBQ_START (passage ++ LF :: tail))
    = Some (S (List.length passage)) ->
  split_reading_block (reading_block number passage tail) number source_name =
  sub_records tail passage number source_name
    (finditer_from (S (List.length tail)) SUBQ_START (MState 0 (Some LF) tail)).
Proof.
  intros Hp Hpn Ht Htn Hfirst. unfold split_reading_block.
  rewrite (strip_number_reading_block number Hp Hpn Ht Htn).
  replace (passage ++ LF :: tail) with ((passage ++ [LF]) ++ tail) in *
    by (now rewrite <- app_assoc).
  assert (L : List.length (passage ++ [LF]) = S (List.length passage))
    by (rewrite length_app; simpl; lia).
  rewrite <- L in Hfirst.
  pose proof (finditer_hd SUBQ_START ((passage ++ [LF]) ++ tail)) as Hhd.
  rewrite (finditer_prefix _ _ _ Hfirst) in *.
  rewrite last_char_snoc in *.
  destruct (finditer_from (S (List.length tail)) SUBQ_START (MState 0 (Some LF) tail))
    as [|m0 ms] eqn:E.
  - simpl in Hhd. rewrite <- Hhd in Hfirst. discriminate.
  - cbn [map hd_error] in Hhd. rewrite <- Hhd in Hfirst. cbn [option_map] in Hfirst.
    cbn [map].
    assert (Hs : m_start m0 + List.length (passage ++ [LF]) = List.length (passage ++ [LF]))
      by (injection Hfirst; auto).
    change (m_start (shift_mres (List.length (passage ++ [LF])) m0))
      with (m_start m0 + List.length (passage ++ [LF])).
    rewrite Hs.
    rewrite firstn_app, Nat.sub_diag, firstn_all. cbn [firstn]. rewrite app_nil_r.
    assert (Ep : strip (passage ++ [LF]) = passage).
    { destruct (stripped_head Hp Hpn) as (c & P' & -> & Hc).
      change ((c :: P') ++ [LF]) with (c :: (P' ++ [LF])).
      unfold strip. rewrite (lstrip_nonspace c (P' ++ [LF]) Hc).
      change (c :: P' ++ [LF]) with ((c :: P') ++ [LF]).
      rewrite rstrip_app. simpl (rstrip [LF]). cbv iota.
      destruct (stripped_cases Hp) as [?|(_ & R & _)]; [discriminate|exact R]. }
    rewrite Ep.
    change (shift_mres (List.length (passage ++ [LF])) m0
              :: map (shift_mres (List.length (passage ++ [LF]))) ms)
      with (map (shift_mres (List.length (passage ++ [LF]))) (m0 :: ms)).
    apply sub_records_shift.
Qed.

(** C3 (as the code has it).  When a reading-comprehension block has at
    least one sub-question marker, the stems of the records are, marker by
    marker: the passage tagged once with the literal [【阅读材料】] and
    followed by a blank line, then the ordinal of the sub-question (its one
    or two digits) in ASCII parentheses, then a space and the sub-stem; with
    an empty passage the tagged prefix is left out, and with an empty
    sub-stem the stem ends after the closing parenthesis.  The tag is
    [【阅读材料】], not [【阅读理解材料】]. *)
Theorem C3_reading_stem_composition (block_text : str) (number : N) (source_name : str) :
  0 < List.length (finditer SUBQ_START (strip_number block_text number)) ->
  map stem (split_reading_block block_text number source_name) =
    map (fun me => composed_stem (reading_passage block_text number)
                     (m_group 1 (fst me)) (sub_stem block_text number me))
        (reading_subs block_text number) /\
  Forall (fun me => all_digit (m_group 1 (fst me)) /\
                    1 <= List.length (m_group 1 (fst me)) <= 2)
         (reading_subs block_text number).
Proof.
  intros H. split.
  - rewrite (split_reading_block_map _ _ source_name H), map_map.
    apply map_ext. intros me.
    destruct (sub_record_fields (strip_number block_text number)
                (reading_passage block_text number) number source_name (fst me) (snd me))
      as (_ & _ & _ & E).
    rewrite E. apply full_stem_of_composed, strip_idem.
  - unfold reading_subs. apply Forall_forall. intros me Hin.
    pose proof (finditer_SUBQ_group (strip_number block_text number)) as F.
    rewrite Forall_forall in F. apply F.
    rewrite <- (with_ends_fst (List.length (strip_number block_text number))
                  (finditer SUBQ_START (strip_number block_text number))).
    now apply in_map.
Qed.

(** C3 at the block [BLOCK_READING_LINES]. *)
Lemma C3_reading_stem_composition_witness :
  0 < List.length (finditer SUBQ_START (strip_number BLOCK_READING_LINES 1)) /\
  map stem (split_reading_block BLOCK_READING_LINES 1 (utf8 "a.txt")) =
    map (fun me => composed_stem (reading_passage BLOCK_READING_LINES 1)
                     (m_group 1 (fst me)) (sub_stem BLOCK_READING_LINES 1 me))
        (reading_subs BLOCK_READING_LINES 1).
Proof.
  split.
  - vm_compute. lia.
  - apply (@C3_reading_stem_composition BLOCK_READING_LINES 1 (utf8 "a.txt")).
    vm_compute. lia.
Defined.

(** C3 as the specification words it fails: the block [BLOCK_READING_LINES]
    has a passage and two sub-questions, and no stem made from it starts
    with the tag [【阅读理解材料】] and the passage. *)
Lemma C3_spec_tag_counterexample :
  0 < List.length (finditer SUBQ_START (strip_number BLOCK_READING_LINES 1)) /\
  reading_passage BLOCK_READING_LINES 1 = SAMPLE_PASSAGE /\
  ~ Forall (fun q => starts_with (S_SPEC_TAG ++ SAMPLE_PASSAGE) (stem q) = true)
           (split_reading_block BLOCK_READING_LINES 1 (utf8 "a.txt")).
Proof.
  split; [vm_compute; lia|]. split; [vm_compute; reflexivity|].
  remember (split_reading_block BLOCK_READING_LINES 1 (utf8 "a.txt")) as records eqn:E.
  vm_compute in E. subst records.
  intros F. apply Forall_inv in F. vm_compute in F. discriminate.
Qed.

(** C10. Every record that the reading-comprehension splitter emits for a
    block with at least one sub-question marker has no options, no score and
    the kind [text] (under the section [阅读理解]), one record a marker.
    Lines that look like options are not parsed: every line before the
    answer marker goes to the stem, as for the block
    [BLOCK_READING_OPTIONS], whose sub-question parsed on its own as an
    ordinary block would have the two options. *)
Theorem C10_reading_records_plain :
  (forall (block_text : str) (number : N) (source_name : str),
      0 < List.length (finditer SUBQ_START (strip_number block_text number)) ->
      Forall plain_reading_record (split_reading_block block_text number source_name) /\
      List.length (split_reading_block block_text number source_name) =
        List.length (finditer SUBQ_START (strip_number block_text number))) /\
  (forall lines : list str,
      Forall (fun l => is_match ANS_MARK l = false) lines ->
      stem_lines_of lines = lines) /\
  (forall source_name : str,
      split_reading_block BLOCK_READING_OPTIONS 2 source_name =
        [ Question source_name 2 S_READING qt_text
            (utf8 "【阅读材料】阅读材料

(1) 、下列哪项正确 A、红色 B、蓝色")
            [] (utf8 "A") [] None ]) /\
  (forall source_name : str,
      map options (parse_block_common BLOCK_OPTIONS_ALONE 1 S_READING source_name) =
        [ [ Option_ (utf8 "A") (utf8 "红色"); Option_ (utf8 "B") (utf8 "蓝色") ] ]).
Proof.
  split; [|split; [|split]].
  - intros block_text number source_name H.
    rewrite (split_reading_block_map _ _ source_name H). split.
    + apply Forall_forall. intros q Hq. apply in_map_iff in Hq as (me & <- & _).
      apply sub_record_fields.
    + rewrite length_map. unfold reading_subs. apply with_ends_length.
  - intros lines F. induction F as [|l ls Hl _ IH]; [reflexivity|].
    simpl. now rewrite Hl, IH.
  - intros source_name. vm_compute. reflexivity.
  - intros source_name. vm_compute. reflexivity.
Qed.

(** C10 at the block [BLOCK_READING_OPTIONS]. *)
Lemma C10_reading_records_plain_witness :
  0 < List.length (finditer SUBQ_START (strip_number BLOCK_READING_OPTIONS 2)) /\
  Forall plain_reading_record
         (split_reading_block BLOCK_READING_OPTIONS 2 (utf8 "a.txt")).
Proof.
  split.
  - vm_compute. lia.
  - apply (proj1 C10_reading_records_plain BLOCK_READING_OPTIONS 2%N (utf8 "a.txt")).
    vm_compute. lia.
Defined.

Lemma sub_record_eq (bw passage : str) (number : N) (source_name : str)
    (m : mres) (e : nat) :
  sub_record bw passage number source_name m e =
  Question source_name number S_READING qt_text
    (composed_stem passage (m_group 1 m)
       (strip (join [SP] (stem_lines_of (sub_lines bw m e)))))
    []
    (strip (fst (parse_answer_from_lines (sub_lines bw m e) 0)))
    (strip (parse_analysis_from_lines (sub_lines bw m e)
              (snd (parse_answer_from_lines (sub_lines bw m e) 0))))
    None.
Proof.
  unfold sub_record.
  destruct (parse_answer_from_lines (sub_lines bw m e) 0) as [ans next_idx].
  cbn [fst snd]. now rewrite full_stem_of_composed by apply strip_idem.
Qed.

Lemma score_token_no_marker (p : nat) (pv : option N) (t : str) :
  match_at SUBQ_START (MState p pv (SCORE_TOKEN ++ t)) = None.
Proof.
  unfold match_at, SUBQ_START, Star. cbn [rmatch].
  destruct (at_bol true (MState p pv (SCORE_TOKEN ++ t))); reflexivity.
Qed.

(** C2 (as the code has it).  Take a block under [阅读理解] made of its
    number, a passage (stripped, not empty, none of whose lines is taken
    for a sub-question), then the line [（1）、问题一 答案：对], then the
    line [（2）、问题二 答案：错].  The splitter yields exactly two records;
    both stems start with the same tagged passage and go on with the
    ordinals [(1)] and [(2)].  An answer marker counts only at the start of
    a line, so both answers are empty and the words [答案：对], [答案：错]
    stay in the stems; with the answers on lines of their own the two
    answers are [对] and [错].  No sub-question marker starts at a token
    [(20.0)]: the passage [SAMPLE_PASSAGE], which has it inside a line and
    on a line of its own, is such a passage, and the document made of the
    heading [阅读理解] and that block parses to the same two records. *)
Theorem C2_reading_fan_out :
  (forall (number : N) (source_name passage : str),
      strip passage = passage -> passage <> [] ->
      passage_without_marker passage TAIL_INLINE ->
      split_reading_block (reading_block number passage TAIL_INLINE) number source_name =
        [ Question source_name number S_READING qt_text
            (S_PASSAGE_TAG ++ passage ++ [LF; LF] ++ utf8 "(1) 、问题一 答案：对")
            [] [] [] None;
          Question source_name number S_READING qt_text
            (S_PASSAGE_TAG ++ passage ++ [LF; LF] ++ utf8 "(2) 、问题二 答案：错")
            [] [] [] None ]) /\
  (forall (number : N) (source_name passage : str),
      strip passage = passage -> passage <> [] ->
      passage_without_marker passage TAIL_LINES ->
      split_reading_block (reading_block number passage TAIL_LINES) number source_name =
        [ Question source_name number S_READING qt_text
            (S_PASSAGE_TAG ++ passage ++ [LF; LF] ++ utf8 "(1) 、问题一")
            [] (utf8 "对") [] None;
          Question source_name number S_READING qt_text
            (S_PASSAGE_TAG ++ passage ++ [LF; LF] ++ utf8 "(2) 、问题二")
            [] (utf8 "错") [] None ]) /\
  (forall (p : nat) (pv : option N) (t : str),
      match_at SUBQ_START (MState p pv (SCORE_TOKEN ++ t)) = None) /\
  (strip SAMPLE_PASSAGE = SAMPLE_PASSAGE /\
   passage_without_marker SAMPLE_PASSAGE TAIL_INLINE /\
   passage_without_marker SAMPLE_PASSAGE TAIL_LINES) /\
  (forall source_name : str,
      parse_questions (HEADING_READING ++ BLOCK_READING_INLINE) source_name =
        split_reading_block BLOCK_READING_INLINE 1 source_name /\
      parse_questions (HEADING_READING ++ BLOCK_READING_LINES) source_name =
        split_reading_block BLOCK_READING_LINES 1 source_name).
Proof.
  split; [|split; [|split; [|split]]].
  - intros number source_name passage Hp Hpn Hm.
    rewrite (split_reading_block_tail number source_name Hp Hpn) by
      (try exact Hm; try discriminate; reflexivity).
    destruct (stripped_head Hp Hpn) as (c & P' & -> & _).
    match goal with |- sub_records _ _ _ _ ?subs = _ =>
      let v := eval vm_compute in subs in change subs with v end.
    cbn [sub_records]. rewrite !sub_record_eq.
    unfold composed_stem. cbn [nonempty]. rewrite <- !app_assoc.
    vm_compute. reflexivity.
  - intros number source_name passage Hp Hpn Hm.
    rewrite (split_reading_block_tail number source_name Hp Hpn) by
      (try exact Hm; try discriminate; reflexivity).
    destruct (stripped_head Hp Hpn) as (c & P' & -> & _).
    match goal with |- sub_records _ _ _ _ ?subs = _ =>
      let v := eval vm_compute in subs in change subs with v end.
    cbn [sub_records]. rewrite !sub_record_eq.
    unfold composed_stem. cbn [nonempty]. rewrite <- !app_assoc.
    vm_compute. reflexivity.
  - exact score_token_no_marker.
  - repeat split; vm_compute; reflexivity.
  - intros source_name. split; vm_compute; reflexivity.
Qed.

(** C2 at the passage [SAMPLE_PASSAGE] and the number 1. *)
Lemma C2_reading_fan_out_witness :
  (strip SAMPLE_PASSAGE = SAMPLE_PASSAGE /\ SAMPLE_PASSAGE <> [] /\
   passage_without_marker SAMPLE_PASSAGE TAIL_LINES) /\
  split_reading_block (reading_block 1 SAMPLE_PASSAGE TAIL_LINES) 1 (utf8 "a.txt") =
    [ Question (utf8 "a.txt") 1 S_READING qt_text
        (S_PASSAGE_TAG ++ SAMPLE_PASSAGE ++ [LF; LF] ++ utf8 "(1) 、问题一")
        [] (utf8 "对") [] None;
      Question (utf8 "a.txt") 1 S_READING qt_text
        (S_PASSAGE_TAG ++ SAMPLE_PASSAGE ++ [LF; LF] ++ utf8 "(2) 、问题二")
        [] (utf8 "错") [] None ].
Proof.
  split.
  - split; [vm_compute; reflexivity|]. split; [discriminate|vm_compute; reflexivity].
  - apply (proj1 (proj2 C2_reading_fan_out) 1%N (utf8 "a.txt") SAMPLE_PASSAGE).
    + vm_compute. reflexivity.
    + discriminate.
    + vm_compute. reflexivity.
Defined.

(** C2 as the specification words it fails: on the block with the answers
    on the lines of the sub-questions the answers of the two records are
    not [对] and [错]. *)
Lemma C2_inline_answers_counterexample :
  map answer (split_reading_block BLOCK_READING_INLINE 1 (utf8 "a.txt"))
    <> [utf8 "对"; utf8 "错"].
Proof. vm_compute. discriminate. Qed.

(** ** Letters and kinds *)

Lemma mem_N_In (c : N) (s : str) : mem_N c s = true <-> In c s.
Proof.
  unfold mem_N. rewrite existsb_exists. split.
  - intros (x & Hx & E). apply N.eqb_eq in E. now subst.
  - intros H. exists c. split; [assumption|apply N.eqb_refl].
Qed.

Lemma dedup_In (c : N) (s : str) : In c (dedup s) <-> In c s.
Proof.
  induction s as [|d s IH]; simpl; [tauto|].
  destruct (mem_N d s) eqn:E.
  - apply mem_N_In in E. rewrite IH. split; [auto|]. intros [<-|H]; auto.
  - simpl. rewrite IH. tauto.
Qed.

Lemma dedup_NoDup (s : str) : NoDup (dedup s).
Proof.
  induction s as [|d s IH]; simpl; [constructor|].
  destruct (mem_N d s) eqn:E; [assumption|].
  constructor; [|assumption].
  rewrite dedup_In, <- mem_N_In. congruence.
Qed.

Lemma insert_sorted_In (x c : N) (s : str) :
  In x (insert_sorted c s) <-> x = c \/ In x s.
Proof.
  induction s as [|d s IH]; simpl; [intuition|].
  destruct (c <=? d)%N; simpl; [intuition|]. rewrite IH. intuition.
Qed.

Lemma sorted_chars_In (x : N) (s : str) : In x (sorted_chars s) <-> In x s.
Proof.
  induction s as [|d s IH]; simpl; [tauto|].
  unfold sorted_chars in *. simpl. rewrite insert_sorted_In, IH. intuition.
Qed.

Lemma insert_sorted_length (c : N) (s : str) :
  List.length (insert_sorted c s) = S (List.length s).
Proof.
  induction s as [|d s IH]; simpl; [reflexivity|].
  destruct (c <=? d)%N; simpl; congruence.
Qed.

Lemma sorted_chars_length (s : str) : List.length (sorted_chars s) = List.length s.
Proof.
  induction s as [|d s IH]; [reflexivity|].
  unfold sorted_chars in *. simpl. now rewrite insert_sorted_length, IH.
Qed.

Lemma insert_sorted_strict (c : N) (s : str) :
  ~ In c s -> StronglySorted N.lt s -> StronglySorted N.lt (insert_sorted c s).
Proof.
  induction s as [|d s IH]; intros Hc Hs; simpl.
  - repeat constructor.
  - inv Hs. destruct (c <=? d)%N eqn:E.
    + apply N.leb_le in E.
      assert (c < d)%N by (simpl in Hc; assert (d <> c) by tauto; lia).
      constructor; [constructor; assumption|].
      constructor; [assumption|].
      eapply Forall_impl; [|eassumption]. simpl. intros; lia.
    + apply N.leb_gt in E. constructor.
      * apply IH; [simpl in Hc; tauto|assumption].
      * apply Forall_forall. intros x Hx. apply insert_sorted_In in Hx as [-> | Hx];
          [assumption|]. rewrite Forall_forall in H2. now apply H2.
Qed.

Lemma sorted_chars_strict (s : str) : NoDup s -> StronglySorted N.lt (sorted_chars s).
Proof.
  induction 1 as [|c s Hc Hs IH]; [constructor|].
  unfold sorted_chars in *. simpl. apply insert_sorted_strict; [|assumption].
  fold (sorted_chars s). now rewrite sorted_chars_In.
Qed.

Lemma upper_AH_range (x c : N) : In c (upper_AH x) -> (65 <= c <= 72)%N.
Proof.
  unfold upper_AH.
  repeat match goal with
         | |- context [if ?b then _ else _] => destruct b eqn:?
         end; simpl; intros H;
    repeat match goal with
           | H : _ \/ _ |- _ => destruct H
           | H : False |- _ => destruct H
           | H : andb _ _ = true |- _ => apply andb_true_iff in H as []
           | H : (_ <=? _)%N = true |- _ => apply N.leb_le in H
           end; subst; lia.
Qed.

Lemma upper_AH_ascii (x c : N) :
  (x < 128)%N -> (In c (upper_AH x) <-> (65 <= c <= 72)%N /\ (x = c \/ x = c + 32)%N).
Proof.
  intros Hx. unfold upper_AH.
  destruct ((65 <=? x) && (x <=? 72))%N eqn:E1.
  { apply andb_true_iff in E1 as [A B]. apply N.leb_le in A, B. simpl.
    split; [intros [<-|[]]; lia|]. intros (R & [-> | ->]); [now left|lia]. }
  destruct ((97 <=? x) && (x <=? 104))%N eqn:E2.
  { apply andb_true_iff in E2 as [A B]. apply N.leb_le in A, B. simpl.
    split; [intros [<-|[]]; lia|]. intros (R & [-> | ->]); [|left]; lia. }
  assert (Hout : ~ ((65 <= x <= 72) \/ (97 <= x <= 104))%N).
  { intros [[A B]|[A B]]; apply N.leb_le in A, B.
    - rewrite A, B in E1. discriminate.
    - rewrite A, B in E2. discriminate. }
  repeat match goal with
         | |- context [if (?a =? ?b)%N then _ else _] =>
             destruct (N.eqb_spec a b); [subst; compute in Hx; discriminate|]
         end.
  simpl. split; [tauto|]. intros (R & [-> | ->]); apply Hout; lia.
Qed.

Lemma norm_letters_In (s : str) (c : N) :
  In c (norm_letters s) <-> In c (flat_map upper_AH s).
Proof. unfold norm_letters. now rewrite sorted_chars_In, dedup_In. Qed.

Lemma norm_letters_strict (s : str) : StronglySorted N.lt (norm_letters s).
Proof. apply sorted_chars_strict, dedup_NoDup. Qed.

Lemma infer_qtype_options (sec : str) (opts : list option_) (ans : str) :
  sec <> S_JUDGE -> opts <> [] ->
  (2 <= List.length (norm_letters ans) -> infer_qtype sec opts ans = qt_multi) /\
  (List.length (norm_letters ans) = 1 -> infer_qtype sec opts ans = qt_single) /\
  (List.length (norm_letters ans) = 0 -> infer_qtype sec opts ans = qt_choice).
Proof.
  intros Hs Ho. unfold infer_qtype.
  rewrite (proj2 (str_eqb_neq sec S_JUDGE) Hs).
  destruct opts; [contradiction|].
  repeat split; intros L.
  - apply Nat.leb_le in L. now rewrite L.
  - now rewrite L.
  - now rewrite L.
Qed.

Lemma infer_qtype_no_options (sec ans : str) :
  sec <> S_JUDGE -> sec <> S_FILL -> sec <> S_SHORT ->
  infer_qtype sec [] ans = qt_text.
Proof.
  intros H1 H2 H3. unfold infer_qtype.
  rewrite (proj2 (str_eqb_neq sec S_JUDGE) H1), (proj2 (str_eqb_neq sec S_FILL) H2),
    (proj2 (str_eqb_neq sec S_SHORT) H3).
  now destruct (str_eqb sec S_READING).
Qed.

Lemma norm_letters_range (s : str) (c : N) :
  In c (norm_letters s) -> (65 <= c <= 72)%N.
Proof.
  intros H. apply norm_letters_In, in_flat_map in H as (x & _ & Hx).
  apply (upper_AH_range x c Hx).
Qed.

Lemma norm_letters_ascii (s : str) (c : N) :
  ascii_only s ->
  (In c (norm_letters s) <-> (65 <= c <= 72)%N /\ (In c s \/ In (c + 32)%N s)).
Proof.
  intros A. unfold ascii_only in A. rewrite Forall_forall in A.
  rewrite norm_letters_In, in_flat_map. split.
  - intros (x & Hin & Hx).
    apply (upper_AH_ascii c (A _ Hin)) in Hx as (R & [-> | ->]); auto.
  - intros (R & [Hin|Hin]); eexists; (split; [exact Hin|]);
      apply (upper_AH_ascii c (A _ Hin)); split; auto.
Qed.

(** C6. The kind of a question follows the decision table, read from the
    top: the section [判断题] gives [judge] whatever the options and the
    answer; otherwise, with options, the number of letters the answer
    normalises to decides between [multi] (two or more), [single] (one) and
    [choice] (none); otherwise, without options, [填空题] gives [fill],
    [简答题] gives [short], and every other section, [阅读理解] included,
    gives [text].  The normalised answer is strictly increasing (sorted,
    without repetition) and holds exactly the letters A..H of the
    upper-cased answer; for an ASCII answer these are the letters A..H that
    occur in it in either case.  With the options A..D and a section other
    than [判断题], the answer [AC] gives [multi], [B] gives [single] and the
    empty answer gives [choice]. *)
Theorem C6_type_classifier :
  (forall opts ans, infer_qtype S_JUDGE opts ans = qt_judge) /\
  (forall sec opts ans, sec <> S_JUDGE -> opts <> [] ->
      (2 <= List.length (norm_letters ans) -> infer_qtype sec opts ans = qt_multi) /\
      (List.length (norm_letters ans) = 1 -> infer_qtype sec opts ans = qt_single) /\
      (List.length (norm_letters ans) = 0 -> infer_qtype sec opts ans = qt_choice)) /\
  (forall ans, infer_qtype S_FILL [] ans = qt_fill) /\
  (forall ans, infer_qtype S_SHORT [] ans = qt_short) /\
  (forall ans, infer_qtype S_READING [] ans = qt_text) /\
  (forall sec ans, sec <> S_JUDGE -> sec <> S_FILL -> sec <> S_SHORT ->
      infer_qtype sec [] ans = qt_text) /\
  (forall ans,
      StronglySorted N.lt (norm_letters ans) /\
      (forall c, In c (norm_letters ans) <-> In c (flat_map upper_AH ans)) /\
      (forall c, In c (norm_letters ans) -> (65 <= c <= 72)%N) /\
      (ascii_only ans ->
       forall c, In c (norm_letters ans) <->
                 (65 <= c <= 72)%N /\ (In c ans \/ In (c + 32)%N ans))) /\
  (forall sec, sec <> S_JUDGE ->
      infer_qtype sec OPTIONS_ABCD (utf8 "AC") = qt_multi /\
      infer_qtype sec OPTIONS_ABCD (utf8 "B") = qt_single /\
      infer_qtype sec OPTIONS_ABCD [] = qt_choice).
Proof.
  split; [reflexivity|].
  split; [exact infer_qtype_options|].
  split; [reflexivity|]. split; [reflexivity|]. split; [reflexivity|].
  split; [exact infer_qtype_no_options|].
  split.
  - intros ans. split; [apply norm_letters_strict|].
    split; [apply norm_letters_In|].
    split; [apply norm_letters_range|].
    intros A c. now apply norm_letters_ascii.
  - intros sec Hs. unfold infer_qtype.
    rewrite (proj2 (str_eqb_neq sec S_JUDGE) Hs). repeat split.
Qed.

(** C6 at the section [单选题], the options A..D and the answer [cA]. *)
Lemma C6_type_classifier_witness :
  (S_SINGLE <> S_JUDGE /\ OPTIONS_ABCD <> [] /\
   2 <= List.length (norm_letters (utf8 "cA"))) /\
  infer_qtype S_SINGLE OPTIONS_ABCD (utf8 "cA") = qt_multi.
Proof.
  split.
  - split; [discriminate|]. split; [discriminate|]. vm_compute. lia.
  - apply (proj1 (proj2 C6_type_classifier) S_SINGLE OPTIONS_ABCD (utf8 "cA")).
    + discriminate.
    + discriminate.
    + vm_compute. lia.
Defined.

(** ** The question hash *)

Lemma Forall2_flat_map (A B C : Type) (R : B -> C -> Prop)
    (f : A -> list B) (g : A -> list C) (l : list A) :
  (forall x, Forall2 R (f x) (g x)) -> Forall2 R (flat_map f l) (flat_map g l).
Proof.
  intros H. induction l as [|x l IH]; simpl; [constructor|].
  apply Forall2_app; auto.
Qed.

Lemma same_content_hash (sha1_hexdigest : list N -> str) (q1 q2 : question) :
  same_content q1 q2 -> qhash sha1_hexdigest q1 = qhash sha1_hexdigest q2.
Proof.
  intros (E1 & E2 & E3 & E4). unfold qhash, sha1_text, hash_base.
  now rewrite E1, E2, E3, E4.
Qed.

Lemma Forall2_same_content_hash (sha1_hexdigest : list N -> str) (l1 l2 : list question) :
  Forall2 same_content l1 l2 ->
  map (qhash sha1_hexdigest) l1 = map (qhash sha1_hexdigest) l2.
Proof.
  induction 1 as [|q1 q2 l1 l2 H _ IH]; [reflexivity|].
  simpl. now rewrite IH, (same_content_hash sha1_hexdigest H).
Qed.

Lemma parse_block_common_source (block_text : str) (number : N) (sec s1 s2 : str) :
  Forall2 same_content (parse_block_common block_text number sec s1)
                       (parse_block_common block_text number sec s2).
Proof.
  unfold parse_block_common.
  destruct (clean_lines block_text) as [|line0 lines]; [constructor|].
  destruct (re_search SCORE_MARK _);
    destruct (stem_loop _ _) as [more i];
    destruct (options_loop _ _) as [opts i'];
    destruct (parse_answer_from_lines _ _) as [ans next_idx];
    repeat constructor.
Qed.

Lemma sub_records_source (bw passage : str) (number : N) (s1 s2 : str) (subs : list mres) :
  Forall2 same_content (sub_records bw passage number s1 subs)
                       (sub_records bw passage number s2 subs).
Proof.
  induction subs as [|m tl IH]; [constructor|].
  cbn [sub_records]. constructor; [|exact IH].
  unfold sub_record.
  destruct (parse_answer_from_lines _ _) as [ans next_idx]. repeat constructor.
Qed.

Lemma split_reading_block_source (block_text : str) (number : N) (s1 s2 : str) :
  Forall2 same_content (split_reading_block block_text number s1)
                       (split_reading_block block_text number s2).
Proof.
  unfold split_reading_block.
  destruct (finditer SUBQ_START (strip_number block_text number)).
  - apply parse_block_common_source.
  - apply sub_records_source.
Qed.

Lemma parse_questions_source (plain s1 s2 : str) :
  Forall2 same_content (parse_questions plain s1) (parse_questions plain s2).
Proof.
  unfold parse_questions. apply Forall2_flat_map. intros [[s e] number].
  unfold parse_block.
  destruct (str_eqb _ S_READING).
  - apply split_reading_block_source.
  - apply parse_block_common_source.
Qed.

(** *** The hashed text determines the four fields *)

Lemma json_unescape_escape (c : N) (r : str) :
  json_unescape_head (json_escape c ++ r) = Some (c, r).
Proof.
  destruct (N.lt_ge_cases c 32) as [Hlt|Hge].
  - (* a control character: one of thirty-two cases *)
    assert (H : In c (map N.of_nat (seq 0 32))).
    { apply in_map_iff. exists (N.to_nat c). split; [apply N2Nat.id|].
      apply in_seq. lia. }
    simpl in H.
    repeat (destruct H as [<-|H]; [reflexivity|]). destruct H.
  - unfold json_escape.
    destruct (N.eqb_spec c 34) as [->|H34]; [reflexivity|].
    destruct (N.eqb_spec c 92) as [->|H92]; [reflexivity|].
    destruct (N.eqb_spec c 10); [lia|]. destruct (N.eqb_spec c 13); [lia|].
    destruct (N.eqb_spec c 9); [lia|]. destruct (N.eqb_spec c 8); [lia|].
    destruct (N.eqb_spec c 12); [lia|].
    destruct (N.ltb_spec c 32); [lia|].
    simpl. destruct (N.eqb_spec c 34); [contradiction|].
    destruct (N.eqb_spec c 92); [contradiction|]. reflexivity.
Qed.

Lemma json_body_inj (s1 : str) :
  forall s2 r1 r2,
    flat_map json_escape s1 ++ 34%N :: r1 = flat_map json_escape s2 ++ 34%N :: r2 ->
    s1 = s2 /\ r1 = r2.
Proof.
  induction s1 as [|c1 s1 IH]; intros [|c2 s2] r1 r2 H; simpl in H.
  - inv H. auto.
  - apply (f_equal json_unescape_head) in H.
    rewrite <- app_assoc, json_unescape_escape in H. discriminate.
  - apply (f_equal json_unescape_head) in H.
    rewrite <- app_assoc, json_unescape_escape in H. discriminate.
  - apply (f_equal json_unescape_head) in H.
    rewrite <- !app_assoc, !json_unescape_escape in H. inv H.
    apply IH in H2 as (-> & ->). auto.
Qed.

Lemma json_str_inj (s1 s2 r1 r2 : str) :
  json_str s1 ++ r1 = json_str s2 ++ r2 -> s1 = s2 /\ r1 = r2.
Proof.
  unfold json_str. simpl. rewrite <- !app_assoc. simpl.
  intros H. inv H. now apply json_body_inj.
Qed.

Lemma json_option_inj (o1 o2 : option_) (r1 r2 : str) :
  json_option o1 ++ r1 = json_option o2 ++ r2 -> o1 = o2 /\ r1 = r2.
Proof.
  unfold json_option. rewrite <- !app_assoc. intros H.
  apply app_inv_head in H. apply app_inv_head in H. apply app_inv_head in H.
  apply json_str_inj in H as (Ek & H).
  apply app_inv_head in H. apply app_inv_head in H. apply app_inv_head in H.
  apply json_str_inj in H as (Et & H).
  apply app_inv_head in H.
  destruct o1, o2; simpl in *. subst. auto.
Qed.

Lemma json_option_head (o : option_) (r : str) :
  exists t, json_option o ++ r = 123%N :: t.
Proof. unfold json_option. eexists. reflexivity. Qed.

Lemma json_items_head (o : option_) (os : list option_) (r : str) :
  exists t, join (utf8 ", ") (map json_option (o :: os)) ++ r = 123%N :: t.
Proof.
  cbn [map join]. destruct (map json_option os); unfold json_option;
    eexists; reflexivity.
Qed.

Lemma json_items_inj (os1 : list option_) :
  forall os2 r1 r2,
    join (utf8 ", ") (map json_option os1) ++ 93%N :: r1 =
    join (utf8 ", ") (map json_option os2) ++ 93%N :: r2 ->
    os1 = os2 /\ r1 = r2.
Proof.
  induction os1 as [|o1 os1 IH]; intros os2 r1 r2 H.
  - destruct os2 as [|o2 os2]; [simpl in H; inv H; auto|].
    exfalso. destruct (json_items_head o2 os2 (93%N :: r2)) as (t & E).
    rewrite E in H. discriminate.
  - destruct os2 as [|o2 os2].
    + exfalso. destruct (json_items_head o1 os1 (93%N :: r1)) as (t & E).
      rewrite E in H. discriminate.
    + destruct os1 as [|o1' os1]; destruct os2 as [|o2' os2]; cbn [map join] in H.
      * apply json_option_inj in H as (-> & H). inv H. auto.
      * rewrite <- app_assoc in H. apply json_option_inj in H as (_ & H).
        discriminate.
      * rewrite <- app_assoc in H. apply json_option_inj in H as (_ & H).
        discriminate.
      * rewrite <- !app_assoc in H. apply json_option_inj in H as (-> & H).
        apply app_inv_head in H.
        destruct (IH (o2' :: os2) r1 r2 H) as (E & ->). rewrite E. auto.
Qed.

Lemma json_options_inj (os1 os2 : list option_) (r1 r2 : str) :
  json_options os1 ++ r1 = json_options os2 ++ r2 -> os1 = os2 /\ r1 = r2.
Proof.
  unfold json_options. rewrite <- !app_assoc. intros H.
  apply app_inv_head in H. now apply json_items_inj in H.
Qed.

Lemma hash_base_inj (q1 q2 : question) :
  hash_base q1 = hash_base q2 -> same_content q1 q2.
Proof.
  unfold hash_base, same_content. intros H.
  do 3 apply app_inv_head in H. apply json_str_inj in H as (Ea & H).
  do 3 apply app_inv_head in H. apply json_options_inj in H as (Eo & H).
  do 3 apply app_inv_head in H. apply json_str_inj in H as (Es & H).
  do 3 apply app_inv_head in H. apply json_str_inj in H as (Et & H).
  auto.
Qed.

(** C8. The hash of a question is the SHA-1 digest of the UTF-8 bytes of
    one JSON text, with the keys in sorted order, of its answer, its options
    (the key and the text of each, in their order), its section and its
    stem, and of nothing else: records that agree on these four fields have
    the same hash whatever their source, number, analysis, kind and score,
    and the JSON text is the same only for records that agree on the four
    fields.  Parsing is a function of the text, so a document parsed again
    gives the same records and hashes; parsed under another source name it
    gives the same hashes, record by record; and a question whose point
    value changes keeps its hash. *)
Theorem C8_fingerprint_basis (sha1_hexdigest : list N -> str) :
  (forall q1 q2 : question,
      stem q1 = stem q2 -> options q1 = options q2 ->
      answer q1 = answer q2 -> section q1 = section q2 ->
      qhash sha1_hexdigest q1 = qhash sha1_hexdigest q2) /\
  (forall q : question,
      qhash sha1_hexdigest q = sha1_hexdigest (utf8_encode (hash_base q))) /\
  (forall q1 q2 : question, hash_base q1 = hash_base q2 -> same_content q1 q2) /\
  hash_base Q_SAMPLE =
    dq (utf8 "{'answer': 'AB', 'options': [{'key': 'A', 'text': '红色'}, {'key': 'B', 'text': '蓝'}], 'section': '单选题', 'stem': '下列哪些是颜色'}") /\
  (forall plain s1 s2 : str,
      map (qhash sha1_hexdigest) (parse_questions plain s1) =
      map (qhash sha1_hexdigest) (parse_questions plain s2)) /\
  (forall s1 s2 : str,
      map score (parse_block_common BLOCK_SCORE_2 3 S_SINGLE s1) = [Some (Qmake 2 1)] /\
      map score (parse_block_common BLOCK_SCORE_5 3 S_SINGLE s2) = [Some (Qmake 5 1)] /\
      map (qhash sha1_hexdigest) (parse_block_common BLOCK_SCORE_2 3 S_SINGLE s1) =
      map (qhash sha1_hexdigest) (parse_block_common BLOCK_SCORE_5 3 S_SINGLE s2)).
Proof.
  split; [|split; [|split; [|split; [|split]]]].
  - intros q1 q2 E1 E2 E3 E4. apply same_content_hash. repeat split; assumption.
  - reflexivity.
  - exact hash_base_inj.
  - vm_compute. reflexivity.
  - intros plain s1 s2. apply Forall2_same_content_hash, parse_questions_source.
  - intros s1 s2. split; [vm_compute; reflexivity|].
    split; [vm_compute; reflexivity|].
    apply Forall2_same_content_hash. vm_compute. repeat constructor.
Qed.

(** C8 at [Q_SAMPLE] and a record that differs from it in source, number,
    kind, analysis and score (with the identity standing for the digest). *)
Lemma C8_fingerprint_basis_witness :
  same_content Q_SAMPLE
    (Question (utf8 "b.docx") 9 (section Q_SAMPLE) qt_single (stem Q_SAMPLE)
              (options Q_SAMPLE) (answer Q_SAMPLE) (utf8 "见教材") None) /\
  qhash (fun bytes => bytes) Q_SAMPLE =
  qhash (fun bytes => bytes)
    (Question (utf8 "b.docx") 9 (section Q_SAMPLE) qt_single (stem Q_SAMPLE)
              (options Q_SAMPLE) (answer Q_SAMPLE) (utf8 "见教材") None).
Proof.
  split.
  - repeat split.
  - apply (proj1 (C8_fingerprint_basis (fun bytes => bytes))); reflexivity.
Defined.

(** ** Section headings *)

Lemma section_pattern_shape (names : regex) (st : mstate) (c : captures) (w : str)
    (c' : captures) (st' : mstate) :
  Matches (section_pattern names) st c w c' -> reach st w st' ->
  at_bol true st = true /\ at_eol true st' = true /\
  exists ws1 en nm ws3 stn cn cn',
    w = ws1 ++ en ++ nm ++ ws3 /\
    all_space ws1 /\ (en = [] \/ enumerator en) /\ all_space ws3 /\
    Matches names stn cn nm cn'.
Proof.
  unfold section_pattern, Star, Plus. intros M R. inv_matches.
  all: split; [assumption|].
  all: match type of R with reach ?s0 _ ?s1 =>
         reach_from s0;
         match goal with
         | HE : at_eol true ?s = true, H : reach s0 _ ?s |- _ =>
             assert (E : s = s1) by (apply (reach_fun_eq H R); norm_app; reflexivity);
             rewrite E in HE
         end
       end.
  all: split; [assumption|].
  - match type of R with
    | reach _ ([] ++ ?a ++ (?e ++ [?x] ++ ?b) ++ ?n ++ ?z ++ []) _ =>
        exists a, (e ++ [x] ++ b), n, z
    end.
    do 3 eexists. split; [norm_app; reflexivity|].
    split; [assumption|]. split; [|split; [assumption|eassumption]].
    right. eexists _, _, _. split; [reflexivity|].
    split; [now apply length_pos_nonnil|]. split; [assumption|].
    split; [|assumption].
    match goal with H : cls_mem (COneOf _) _ = true |- _ => now apply mem_N_In in H end.
  - match type of R with
    | reach _ ([] ++ ?a ++ [] ++ ?n ++ ?z ++ []) _ => exists a, [], n, z
    end.
    do 3 eexists. split; [norm_app; reflexivity|].
    split; [assumption|]. split; [now left|]. split; [assumption|eassumption].
Qed.

Lemma split_last_LF (l : str) :
  exists a b, l = a ++ b /\ ~ In LF b /\ line_start a.
Proof.
  induction l as [|x l IH] using rev_ind.
  - exists [], []. repeat split; [intros []|now left].
  - destruct (N.eq_dec x LF) as [->|Hx].
    + exists (l ++ [LF]), []. rewrite app_nil_r.
      repeat split; [intros []|]. right. now exists l.
    + destruct IH as (a & b & -> & Hb & La).
      exists a, (b ++ [x]). rewrite app_assoc. repeat split; [|assumption].
      rewrite in_app_iff. simpl. intros [H|[H|[]]]; [contradiction|congruence].
Qed.

Lemma split_first_LF (l : str) :
  exists b a, l = b ++ a /\ ~ In LF b /\ line_end a.
Proof.
  induction l as [|x l IH].
  - exists [], []. repeat split; [intros []|now left].
  - destruct (N.eq_dec x LF) as [->|Hx].
    + exists [], (LF :: l). repeat split; [intros []|]. right. now exists l.
    + destruct IH as (b & a & -> & Hb & La).
      exists (x :: b), a. repeat split; [|assumption].
      simpl. intros [H|H]; [congruence|contradiction].
Qed.

Lemma line_start_app (pre a : str) :
  line_start pre -> line_start a -> line_start (pre ++ a).
Proof.
  intros Hp [->|(a' & ->)]; [now rewrite app_nil_r|].
  right. exists (pre ++ a'). now rewrite app_assoc.
Qed.

Lemma line_end_app (a post : str) :
  line_end a -> line_end post -> line_end (a ++ post).
Proof.
  intros [->|(a' & ->)] Hp; [assumption|]. right. now exists (a' ++ post).
Qed.

Lemma line_start_snoc (pre : str) : line_start (pre ++ [LF]).
Proof. right. now exists pre. Qed.

Lemma all_space_app (a b : str) : all_space (a ++ b) <-> all_space a /\ all_space b.
Proof. apply Forall_app. Qed.

Lemma enum_no_LF (e : str) :
  Forall (fun c => cls_mem C_ENUM c = true) e -> ~ In LF e.
Proof.
  intros F H. rewrite Forall_forall in F. apply F in H. vm_compute in H. discriminate.
Qed.

Lemma sep_no_LF (sep : N) : In sep ENUM_SEPS -> sep <> LF.
Proof. intros H E. subst. vm_compute in H. intuition discriminate. Qed.

Lemma heading_names_no_LF (nm name : str) :
  In (nm, name) heading_names -> ~ In LF nm.
Proof.
  unfold heading_names. simpl.
  intros H; repeat (destruct H as [H|H]; [inv H; vm_compute; intuition discriminate|]).
  destruct H.
Qed.

(** A stretch of white space, enumerator, word and white space that runs
    from a line boundary to a line boundary has the word on a heading
    line. *)
Lemma heading_region_line (pre0 ws1 en nm ws3 post0 : str) :
  line_start pre0 -> line_end post0 ->
  all_space ws1 -> en = [] \/ enumerator en -> all_space ws3 -> ~ In LF nm ->
  exists pre line post,
    pre0 ++ (ws1 ++ en ++ nm ++ ws3) ++ post0 = pre ++ line ++ post /\
    line_start pre /\ line_end post /\ ~ In LF line /\ heading_line line nm /\
    List.length pre0 <= List.length pre.
Proof.
  intros Ls Le W1 En W3 Hn.
  destruct (split_first_LF ws3) as (b3 & a3 & -> & N3 & L3).
  apply all_space_app in W3 as (W3b & W3a).
  assert (Lpost : line_end (a3 ++ post0)) by now apply line_end_app.
  assert (Case1 : forall ws, all_space ws -> forall pre1, line_start pre1 ->
            exists pre line post,
              pre1 ++ ws ++ nm ++ (b3 ++ a3) ++ post0 = pre ++ line ++ post /\
              line_start pre /\ line_end post /\ ~ In LF line /\ heading_line line nm /\
              List.length pre1 <= List.length pre).
  { intros ws W pre1 L1.
    destruct (split_last_LF ws) as (a1 & b1 & -> & N1 & L1').
    apply all_space_app in W as (Wa & Wb).
    exists (pre1 ++ a1), (b1 ++ nm ++ b3), (a3 ++ post0).
    split; [now norm_app|]. split; [now apply line_start_app|].
    split; [assumption|]. split.
    - rewrite !in_app_iff. tauto.
    - split; [|rewrite length_app; lia].
      exists b1, [], b3. simpl. auto. }
  destruct En as [->|(e & sep & ws2 & -> & He & Fe & Hsep & W2)].
  - destruct (Case1 ws1 W1 pre0 Ls) as (pre & line & post & E & H).
    exists pre, line, post. split; [|exact H]. rewrite <- E. now norm_app.
  - destruct (split_last_LF ws2) as (a2 & b2 & -> & N2 & [->|(a2' & ->)]).
    + (* the enumerator stands on the line of the word *)
      simpl app in *.
      destruct (split_last_LF ws1) as (a1 & b1 & -> & N1 & L1).
      apply all_space_app in W1 as (W1a & W1b).
      exists (pre0 ++ a1), (b1 ++ (e ++ [sep] ++ b2) ++ nm ++ b3), (a3 ++ post0).
      split; [now norm_app|]. split; [now apply line_start_app|].
      split; [assumption|]. split.
      * rewrite !in_app_iff. simpl.
        pose proof (enum_no_LF Fe). pose proof (sep_no_LF Hsep).
        intuition congruence.
      * split; [|rewrite length_app; lia].
        exists b1, (e ++ [sep] ++ b2), b3. repeat split; auto.
        right. exists e, sep, b2. auto.
    + (* a line break separates the enumerator from the word *)
      apply all_space_app in W2 as (W2a & W2b).
      destruct (Case1 b2 W2b (pre0 ++ ws1 ++ e ++ [sep] ++ a2' ++ [LF]))
        as (pre & line & post & E & L & L' & N & Hh & Hl).
      { replace (pre0 ++ ws1 ++ e ++ [sep] ++ a2' ++ [LF])
          with ((pre0 ++ ws1 ++ e ++ [sep] ++ a2') ++ [LF]) by now norm_app.
        apply line_start_snoc. }
      exists pre, line, post. split; [rewrite <- E; now norm_app|].
      repeat split; auto. rewrite length_app in Hl. lia.
Qed.

Lemma insert_marker_In (x y : marker) (l : list marker) :
  In x (insert_marker y l) <-> x = y \/ In x l.
Proof.
  induction l as [|z l IH]; simpl; [intuition|].
  destruct (Nat.leb (fst y) (fst z)); simpl; [intuition|]. rewrite IH. intuition.
Qed.

Lemma sort_markers_In (x : marker) (l : list marker) :
  In x (sort_markers l) <-> In x l.
Proof.
  induction l as [|y l IH]; simpl; [tauto|].
  rewrite insert_marker_In, IH. intuition.
Qed.

Lemma insert_marker_sorted (y : marker) (l : list marker) :
  markers_sorted l -> markers_sorted (insert_marker y l).
Proof.
  unfold markers_sorted. induction l as [|z l IH]; intros H; simpl.
  - repeat constructor.
  - inv H. destruct (Nat.leb (fst y) (fst z)) eqn:E.
    + apply Nat.leb_le in E. constructor; [constructor; assumption|].
      constructor; [assumption|].
      eapply Forall_impl; [|eassumption]. simpl. intros; lia.
    + apply Nat.leb_gt in E. constructor; [now apply IH|].
      apply Forall_forall. intros x Hx. apply insert_marker_In in Hx as [-> | Hx]; [lia|].
      rewrite Forall_forall in H3. now apply H3.
Qed.

Lemma sort_markers_sorted (l : list marker) : markers_sorted (sort_markers l).
Proof.
  induction l as [|y l IH]; simpl; [constructor|]. now apply insert_marker_sorted.
Qed.

Lemma filter_none (A : Type) (f : A -> bool) (l : list A) :
  (forall x, In x l -> f x = false) -> filter f l = [].
Proof.
  induction l as [|x l IH]; intros H; [reflexivity|].
  simpl. rewrite (H x (or_introl eq_refl)). apply IH. intros y Hy. apply H. now right.
Qed.

Lemma section_at_loop_sorted (markers : list marker) (p : nat) :
  markers_sorted markers ->
  forall cur,
    section_at_loop markers p cur =
    match rev (filter (fun m => Nat.leb (fst m) p) markers) with
    | (_, name) :: _ => name
    | [] => cur
    end.
Proof.
  unfold markers_sorted. induction 1 as [|[q name] l Hs IH Hall]; intros cur; [reflexivity|].
  simpl. destruct (Nat.leb q p) eqn:E.
  - rewrite IH. simpl.
    destruct (rev (filter (fun m => Nat.leb (fst m) p) l)) as [|[q' n'] t]; reflexivity.
  - apply Nat.leb_gt in E.
    replace (filter (fun m => Nat.leb (fst m) p) l) with (@nil marker); [reflexivity|].
    symmetry. apply filter_none. intros x Hx. rewrite Forall_forall in Hall.
    apply Hall in Hx. simpl in Hx. apply Nat.leb_gt. lia.
Qed.

Lemma section_names_words (pn : regex * str) :
  In pn SECTION_PATTERNS ->
  exists names,
    fst pn = section_pattern names /\
    forall st c w c', Matches names st c w c' -> In (w, snd pn) heading_names.
Proof.
  unfold SECTION_PATTERNS. simpl.
  intros H;
    repeat (destruct H as [<-|H];
            [eexists; split; [reflexivity|];
             intros st c w c' M; inv_matches; simpl; tauto|]).
  destruct H.
Qed.

(** Every section marker comes from a heading line. *)
Lemma marker_heading_line (text : str) (p : nat) (name : str) :
  In (p, name) (build_section_markers text) ->
  exists pre line post nm,
    text = pre ++ line ++ post /\
    line_start pre /\ line_end post /\ ~ In LF line /\
    In (nm, name) heading_names /\ heading_line line nm /\
    p <= List.length pre.
Proof.
  unfold build_section_markers. rewrite sort_markers_In, in_flat_map.
  intros (pn & Hpn & Hin). apply in_map_iff in Hin as (m & E & Hm). inv E.
  destruct (section_names_words Hpn) as (names & Epat & Hnames).
  rewrite Epat in Hm.
  apply finditer_In in Hm as (pre0 & w & post0 & -> & Hs & He & M & R & Hp).
  destruct (section_pattern_shape M R)
    as (B & Eo & ws1 & en & nm & ws3 & stn & cn & cn' & -> & W1 & En & W3 & Mn).
  apply Hnames in Mn. apply at_bol_line_start in B.
  assert (Lpost : line_end post0).
  { destruct (m_endst m) as [pe ve re]. simpl in Hp. subst re.
    eapply at_eol_line_end; eauto. }
  destruct (@heading_region_line pre0 ws1 en nm ws3 post0 B Lpost W1 En W3
              (@heading_names_no_LF _ _ Mn))
    as (pre & line & post & E & L1 & L2 & N & Hh & Hl).
  exists pre, line, post, nm. rewrite Hs.
  split; [rewrite <- E; now norm_app|]. auto 10.
Qed.

Lemma tagged_line_no_heading (nm name : str) :
  In (nm, name) heading_names -> ~ heading_line LINE_TAGGED nm.
Proof.
  intros Hn (ws1 & en & ws3 & E & W1 & En & W3).
  (* the line starts with a character that is no white space *)
  destruct ws1 as [|x ws1].
  2:{ inv W1. inv E. vm_compute in H1. discriminate. }
  simpl in E. destruct En as [->|(e & sep & ws & -> & He & Fe & _)].
  - (* ... nor the first character of a section word *)
    simpl in E. unfold heading_names in Hn. simpl in Hn.
    repeat (destruct Hn as [Hn|Hn]; [inv Hn; discriminate E|]). destruct Hn.
  - (* ... nor a character of an enumerator *)
    destruct e as [|y e]; [contradiction|]. inv Fe. inv E.
    vm_compute in H1. discriminate.
Qed.

(** C5. A section marker is recorded only for a heading line: whenever
    [build_section_markers] yields a marker, the text has a whole line that
    consists of one of the fixed section words, with at most an ordinal
    enumerator before it and white space around, and the marker carries the
    label of that word and an offset at or before that line.  A stem line
    such as [请完成下列[简答题]内容] is no heading line, so it never gives a
    marker.  The markers come out sorted by offset, and on sorted markers
    [section_at] returns the label of the last marker at or before the
    position, [未知] when there is none.  In the document [DOC_TAGGED] the
    tagged stem line leaves the first question under [判断题]; the isolated
    line [简答题] further down starts the next section. *)
Theorem C5_section_markers :
  (forall (text : str) (p : nat) (name : str),
      In (p, name) (build_section_markers text) ->
      exists pre line post nm,
        text = pre ++ line ++ post /\
        line_start pre /\ line_end post /\ ~ In LF line /\
        In (nm, name) heading_names /\ heading_line line nm /\
        p <= List.length pre) /\
  (forall nm name : str,
      In (nm, name) heading_names -> ~ heading_line LINE_TAGGED nm) /\
  (forall text : str, markers_sorted (build_section_markers text)) /\
  (forall (markers : list marker) (p : nat),
      markers_sorted markers ->
      section_at markers p = label_at_or_before markers p) /\
  build_section_markers (normalize_spaces DOC_TAGGED) = [(0, S_JUDGE); (36, S_SHORT)] /\
  map (fun b => section_at (build_section_markers (normalize_spaces DOC_TAGGED)) (b_start b))
      (segment (normalize_spaces DOC_TAGGED)) = [S_JUDGE; S_SHORT] /\
  map section (parse_questions DOC_TAGGED (utf8 "a.txt")) = [S_JUDGE; S_SHORT].
Proof.
  split; [exact marker_heading_line|].
  split; [exact tagged_line_no_heading|].
  split; [intros text; apply sort_markers_sorted|].
  split.
  - intros markers p H. unfold section_at, label_at_or_before.
    now rewrite (section_at_loop_sorted p H).
  - repeat split; vm_compute; reflexivity.
Qed.

(** C5 at the marker of the line [简答题] of [DOC_TAGGED]. *)
Lemma C5_section_markers_witness :
  In (36, S_SHORT) (build_section_markers (normalize_spaces DOC_TAGGED)) /\
  exists pre line post nm,
    normalize_spaces DOC_TAGGED = pre ++ line ++ post /\
    line_start pre /\ line_end post /\ ~ In LF line /\
    In (nm, S_SHORT) heading_names /\ heading_line line nm /\
    36 <= List.length pre.
Proof.
  split.
  - vm_compute. right. left. reflexivity.
  - apply (proj1 C5_section_markers). vm_compute. right. left. reflexivity.
Defined.

(** ** Normalisation *)

(** C1. Normalisation is not idempotent on the text [TEXT_BLANK_LINES].
    Runs of three or more newlines are collapsed before the lines are
    trimmed, so the two lines that hold one space each survive the collapse
    and are emptied afterwards: the first pass returns [a], three newlines,
    [b]; the second pass collapses them to two. *)
Theorem C1_normalize_twice_differs :
  normalize_spaces TEXT_BLANK_LINES = [97; 10; 10; 10; 98]%N /\
  normalize_spaces (normalize_spaces TEXT_BLANK_LINES) = [97; 10; 10; 98]%N /\
  normalize_spaces (normalize_spaces TEXT_BLANK_LINES) <> normalize_spaces TEXT_BLANK_LINES.
Proof.
  split; [vm_compute; reflexivity|]. split; [vm_compute; reflexivity|].
  vm_compute. discriminate.
Qed.

(* ================================================================== *)
(** * Part III: further properties of the code                         *)
(* ================================================================== *)

(** ** The database *)

Lemma bind_all_not_integrity (ps : list (option exn)) :
  Forall (fun p => p <> Some IntegrityError) ps -> bind_all ps <> Some IntegrityError.
Proof.
  induction 1 as [|p ps Hp _ IH]; simpl; [discriminate|].
  destruct p as [e|]; [assumption|exact IH].
Qed.

Lemma bind_int_not_integrity (n : N) : bind_int n <> Some IntegrityError.
Proof. unfold bind_int. destruct (2 ^ 63 <=? n)%N; discriminate. Qed.

Lemma bind_text_not_integrity (s : str) : bind_text s <> Some IntegrityError.
Proof. unfold bind_text. destruct (has_surrogate s); discriminate. Qed.

Lemma bind_question_not_integrity (q : question) (oj : str) :
  bind_question q oj <> Some IntegrityError.
Proof.
  unfold bind_question. apply bind_all_not_integrity.
  repeat constructor;
    first [apply bind_int_not_integrity | apply bind_text_not_integrity].
Qed.

Section StoreFacts.

Variable sha1_hexdigest : list N -> str.

Lemma has_qhash_app (c : conn) (h : str) (rows : list question_row) :
  existsb (fun r => str_eqb (row_qhash r) h) (question_tbl c ++ rows) =
  has_qhash c h || existsb (fun r => str_eqb (row_qhash r) h) rows.
Proof. unfold has_qhash. apply existsb_app. Qed.

(** What one INSERT does. *)
Lemma insert_question_cases (c : conn) (q : question) :
  match insert_question sha1_hexdigest c q with
  | inr c' =>
      bindable q /\ has_qhash c (qhash sha1_hexdigest q) = false /\
      exists row,
        question_tbl c' = question_tbl c ++ [row] /\ stores sha1_hexdigest row q /\
        row_id row = next_key (question_seq c) (map row_id (question_tbl c)) /\
        question_seq c' = row_id row /\
        attempt_tbl c' = attempt_tbl c /\ attempt_seq c' = attempt_seq c /\
        wrongbook_tbl c' = wrongbook_tbl c
  | inl IntegrityError => bindable q /\ has_qhash c (qhash sha1_hexdigest q) = true
  | inl e => bind_question q (json_options (options q)) = Some e
  end.
Proof.
  unfold insert_question, bindable.
  pose proof (bind_question_not_integrity q (json_options (options q))) as NI.
  destruct (bind_question q (json_options (options q))) as [e|].
  - destruct e; [congruence|reflexivity|reflexivity].
  - destruct (has_qhash c (qhash sha1_hexdigest q)) eqn:E; [auto|].
    split; [reflexivity|]. split; [reflexivity|].
    eexists. simpl. unfold stores. simpl. repeat split; reflexivity.
Qed.


(** What a run of the loop that ends without an exception has done. *)
Lemma upsert_loop_ok (qs : list question) :
  forall c i s c' i' s',
    upsert_loop sha1_hexdigest c qs i s = (c', inr (i', s')) ->
    i' + s' = i + s + List.length qs /\ i <= i' /\
    (exists new,
        question_tbl c' = question_tbl c ++ new /\ List.length new = i' - i /\
        Forall (fun r => exists q, In q qs /\ stores sha1_hexdigest r q) new) /\
    attempt_tbl c' = attempt_tbl c /\ attempt_seq c' = attempt_seq c /\
    wrongbook_tbl c' = wrongbook_tbl c /\
    Forall bindable qs /\
    Forall (fun q => has_qhash c' (qhash sha1_hexdigest q) = true) qs /\
    (forall h, has_qhash c h = true -> has_qhash c' h = true).
Proof.
  induction qs as [|q qs IH]; simpl; intros c i s c' i' s' H.
  - inv H. repeat split; try lia; auto.
    exists []. rewrite app_nil_r. repeat split; [simpl; lia|constructor].
  - pose proof (insert_question_cases c q) as Hq.
    destruct (insert_question sha1_hexdigest c q) as [e|c1].
    + destruct e; try discriminate.
      destruct Hq as (Hb & Hh).
      apply IH in H as (Hn & Hi & (new & Hnew & Hlen & Hrows) & Ha & Has & Hw & Hbs & Hhs & Hmono).
      repeat split; try lia; auto.
      exists new. repeat split; auto.
      eapply Forall_impl; [|exact Hrows]. simpl.
      intros r (q0 & Hin & Hr). exists q0. auto.
    + destruct Hq as (Hb & Hh & row & Ht & Hst & Hid & Hseq & Ha1 & Has1 & Hw1).
      apply IH in H as (Hn & Hi & (new & Hnew & Hlen & Hrows) & Ha & Has & Hw & Hbs & Hhs & Hmono).
      assert (Hhere : forall h, has_qhash c h = true -> has_qhash c1 h = true).
      { intros h Hc. unfold has_qhash in *. rewrite Ht, existsb_app, Hc. reflexivity. }
      repeat split; try lia; try congruence; auto.
      * exists (row :: new). rewrite Hnew, Ht, <- app_assoc. simpl.
        repeat split; [lia|].
        constructor.
        -- exists q. split; [now left|assumption].
        -- eapply Forall_impl; [|exact Hrows]. simpl.
           intros r (q0 & Hin & Hr). exists q0. auto.
      * constructor; [|assumption]. apply Hmono.
        unfold has_qhash. rewrite Ht, existsb_app. simpl.
        destruct Hst as (Hrh & _). rewrite Hrh, str_eqb_refl.
        now rewrite orb_true_r.
Qed.


End StoreFacts.

(** *** The constraints of the schema are kept *)












Lemma find_wrong_In (c : conn) (qid : N) (w : wrong_row) :
  find_wrong c qid = Some w -> In w (wrongbook_tbl c) /\ question_id w = qid.
Proof.
  unfold find_wrong. intros H. apply find_some in H as (Hin & E).
  apply N.eqb_eq in E. auto.
Qed.

Lemma find_wrong_None (c : conn) (qid : N) :
  find_wrong c qid = None -> ~ In qid (map question_id (wrongbook_tbl c)).
Proof.
  unfold find_wrong. intros H Hin. apply in_map_iff in Hin as (w & E & Hw).
  apply (find_none _ _ H) in Hw. simpl in Hw. apply N.eqb_neq in Hw. contradiction.
Qed.






(** *** Looking a question up in the wrongbook *)

Lemma find_wrong_set (c : conn) (wb : list wrong_row) (k : N) :
  find_wrong (set_wrongbook c wb) k = find (fun w => (question_id w =? k)%N) wb.
Proof. reflexivity. Qed.

Lemma find_map_update (g : wrong_row -> wrong_row) (k : N) (l : list wrong_row) :
  (forall w, question_id (g w) = question_id w) ->
  find (fun w => (question_id w =? k)%N) (map g l) =
  option_map g (find (fun w => (question_id w =? k)%N) l).
Proof.
  intros Hg. induction l as [|x l IH]; simpl; [reflexivity|].
  rewrite Hg. destruct (question_id x =? k)%N; [reflexivity|exact IH].
Qed.

Lemma find_filter_other (qid k : N) (l : list wrong_row) :
  find (fun w => (question_id w =? k)%N)
       (filter (fun w => negb (question_id w =? qid)%N) l) =
  if (k =? qid)%N then None else find (fun w => (question_id w =? k)%N) l.
Proof.
  induction l as [|x l IH]; simpl; [now destruct (k =? qid)%N|].
  destruct (question_id x =? qid)%N eqn:E1; simpl.
  - rewrite IH. apply N.eqb_eq in E1.
    destruct (k =? qid)%N eqn:E2; [reflexivity|].
    apply N.eqb_neq in E2.
    assert (E3 : (question_id x =? k)%N = false) by (apply N.eqb_neq; congruence).
    now rewrite E3.
  - destruct (question_id x =? k)%N eqn:E3; [|exact IH].
    apply N.eqb_eq in E3. apply N.eqb_neq in E1.
    assert (E2 : (k =? qid)%N = false) by (apply N.eqb_neq; congruence).
    now rewrite E2.
Qed.

Lemma find_snoc (A : Type) (p : A -> bool) (l : list A) (x : A) :
  find p (l ++ [x]) =
  match find p l with Some y => Some y | None => if p x then Some x else None end.
Proof.
  induction l as [|y l IH]; simpl; [reflexivity|]. now destruct (p y).
Qed.

Lemma filter_all (A : Type) (f : A -> bool) (l : list A) :
  (forall x, In x l -> f x = true) -> filter f l = l.
Proof.
  induction l as [|x l IH]; intros H; [reflexivity|].
  simpl. rewrite (H x (or_introl eq_refl)). f_equal. apply IH.
  intros y Hy. apply H. now right.
Qed.

Lemma bind_int_small (qid : N) : (qid < 2 ^ 63)%N -> bind_int qid = None.
Proof. unfold bind_int. intros H. apply N.leb_gt in H. now rewrite H. Qed.

(** One call of [update_wrong_streak] on a question of the wrongbook. *)
Lemma update_wrong_streak_found (c : conn) (ts : str) (qid : N) (b : bool)
    (w : wrong_row) :
  (qid < 2 ^ 63)%N -> find_wrong c qid = Some w ->
  let streak := if b then (streak_correct w + 1)%Z else 0%Z in
  exists c',
    update_wrong_streak c ts qid b =
      inr (c', Some (if (3 <=? streak)%Z then 3%Z else streak)) /\
    find_wrong c' qid =
      (if (3 <=? streak)%Z then None else Some (WrongRow qid (added_ts w) streak ts)) /\
    (forall k, k <> qid -> find_wrong c' k = find_wrong c k) /\
    question_tbl c' = question_tbl c /\ attempt_tbl c' = attempt_tbl c.
Proof.
  intros Hq F streak. unfold update_wrong_streak, remove_from_wrongbook.
  rewrite (bind_int_small Hq), F. fold streak.
  destruct (3 <=? streak)%Z.
  - eexists. split; [reflexivity|]. rewrite !find_wrong_set.
    split; [|split; [|split; reflexivity]].
    + now rewrite find_filter_other, N.eqb_refl.
    + intros k Hk. rewrite find_wrong_set, find_filter_other.
      apply N.eqb_neq in Hk. now rewrite Hk.
  - eexists. split; [reflexivity|]. rewrite !find_wrong_set.
    split; [|split; [|split; reflexivity]].
    + rewrite find_map_update by (intros x; now destruct (question_id x =? qid)%N).
      fold (find_wrong c qid). rewrite F. simpl.
      apply find_wrong_In in F as (_ & ->). now rewrite N.eqb_refl.
    + intros k Hk. rewrite find_wrong_set.
      rewrite find_map_update by (intros x; now destruct (question_id x =? qid)%N).
      fold (find_wrong c k). destruct (find_wrong c k) as [x|] eqn:Fk; [|reflexivity].
      simpl. apply find_wrong_In in Fk as (_ & ->).
      apply N.eqb_neq in Hk. now rewrite Hk.
Qed.

(** One call of [add_to_wrongbook]. *)
Lemma add_to_wrongbook_cases (c : conn) (ts : str) (qid : N) :
  (qid < 2 ^ 63)%N ->
  match find_wrong c qid with
  | Some w =>
      exists c', add_to_wrongbook c ts qid = inr c' /\
                 find_wrong c' qid =
                   Some (WrongRow qid (added_ts w) (streak_correct w) ts) /\
                 (forall k, k <> qid -> find_wrong c' k = find_wrong c k) /\
                 wrong_count c' = wrong_count c /\
                 question_tbl c' = question_tbl c /\ attempt_tbl c' = attempt_tbl c
  | None =>
      if has_question c qid then
        exists c', add_to_wrongbook c ts qid = inr c' /\
                   find_wrong c' qid = Some (WrongRow qid ts 0 ts) /\
                   (forall k, k <> qid -> find_wrong c' k = find_wrong c k) /\
                   wrong_count c' = S (wrong_count c) /\
                   question_tbl c' = question_tbl c /\ attempt_tbl c' = attempt_tbl c
      else add_to_wrongbook c ts qid = inl IntegrityError
  end.
Proof.
  intros Hq. unfold add_to_wrongbook. rewrite (bind_int_small Hq).
  destruct (find_wrong c qid) as [w|] eqn:F.
  - eexists. split; [reflexivity|]. rewrite !find_wrong_set.
    split; [|split; [|split; [|split; reflexivity]]].
    + rewrite find_map_update by (intros x; now destruct (question_id x =? qid)%N).
      fold (find_wrong c qid). rewrite F. simpl.
      apply find_wrong_In in F as (_ & ->). now rewrite N.eqb_refl.
    + intros k Hk. rewrite find_wrong_set.
      rewrite find_map_update by (intros x; now destruct (question_id x =? qid)%N).
      fold (find_wrong c k). destruct (find_wrong c k) as [x|] eqn:Fk; [|reflexivity].
      simpl. apply find_wrong_In in Fk as (_ & ->).
      apply N.eqb_neq in Hk. now rewrite Hk.
    + unfold wrong_count. simpl. apply length_map.
  - destruct (has_question c qid); [|reflexivity].
    eexists. split; [reflexivity|]. rewrite !find_wrong_set.
    split; [|split; [|split; [|split; reflexivity]]].
    + rewrite find_snoc. fold (find_wrong c qid). rewrite F. simpl.
      now rewrite N.eqb_refl.
    + intros k Hk. rewrite find_wrong_set, find_snoc. fold (find_wrong c k).
      destruct (find_wrong c k); [reflexivity|]. simpl.
      assert (E : (qid =? k)%N = false) by (apply N.eqb_neq; congruence).
      now rewrite E.
    + unfold wrong_count. simpl. rewrite length_app. simpl. lia.
Qed.

(** *** Importing questions *)

(** An import that ends without an exception has looked at every question:
    the two counts add up to the number of questions.  The rows of the
    table are kept as they are and one row is appended for each question
    counted as inserted, holding its columns; attempts and wrongbook are
    not touched. *)
Theorem upsert_questions_counts (sha1_hexdigest : list N -> str) (c : conn)
    (qs : list question) (ins skip : nat) :
  snd (upsert_questions sha1_hexdigest c qs) = inr (ins, skip) ->
  ins + skip = List.length qs /\
  (exists new,
      question_tbl (fst (upsert_questions sha1_hexdigest c qs)) = question_tbl c ++ new /\
      List.length new = ins /\
      Forall (fun r => exists q, In q qs /\ stores sha1_hexdigest r q) new) /\
  attempt_tbl (fst (upsert_questions sha1_hexdigest c qs)) = attempt_tbl c /\
  wrongbook_tbl (fst (upsert_questions sha1_hexdigest c qs)) = wrongbook_tbl c.
Proof.
  unfold upsert_questions.
  destruct (upsert_loop sha1_hexdigest c qs 0 0) as [c' r] eqn:E. simpl.
  intros ->. apply upsert_loop_ok in E
    as (Hn & _ & (new & Hnew & Hlen & Hrows) & Ha & _ & Hw & _).
  split; [lia|]. split; [|split; assumption].
  exists new. split; [assumption|]. split; [lia|assumption].
Qed.

Lemma upsert_questions_counts_witness :
  snd (upsert_questions SHA_ID empty_db [Q_SAMPLE; Q_SAMPLE_AGAIN]) = inr (1, 1) /\
  1 + 1 = List.length [Q_SAMPLE; Q_SAMPLE_AGAIN].
Proof.
  assert (H : snd (upsert_questions SHA_ID empty_db [Q_SAMPLE; Q_SAMPLE_AGAIN])
              = inr (1, 1)) by (vm_compute; reflexivity).
  split; [exact H|].
  exact (proj1 (@upsert_questions_counts SHA_ID empty_db [Q_SAMPLE; Q_SAMPLE_AGAIN] 1 1 H)).
Defined.





(** *** The constraints *)



(** *** The wrongbook *)

(** The streak rule.  For a question of the wrongbook, a wrong answer sets
    its streak to 0; a correct answer raises it by one, and when that makes
    three the row is deleted and 3 is returned.  The time of the entry is
    kept, the rows of other questions are not touched.  For a question that
    is not in the wrongbook nothing happens and None is returned. *)
Theorem update_wrong_streak_rule (c : conn) (ts : str) (qid : N) (b : bool) :
  (qid < 2 ^ 63)%N ->
  match find_wrong c qid with
  | None => update_wrong_streak c ts qid b = inr (c, None)
  | Some w =>
      let streak := if b then (streak_correct w + 1)%Z else 0%Z in
      exists c',
        update_wrong_streak c ts qid b =
          inr (c', Some (if (3 <=? streak)%Z then 3%Z else streak)) /\
        find_wrong c' qid =
          (if (3 <=? streak)%Z then None
           else Some (WrongRow qid (added_ts w) streak ts)) /\
        (forall k, k <> qid -> find_wrong c' k = find_wrong c k)
  end.
Proof.
  intros Hq. destruct (find_wrong c qid) as [w|] eqn:F.
  - destruct (update_wrong_streak_found c ts b Hq F) as (c' & E & F1 & F2 & _).
    exists c'. auto.
  - unfold update_wrong_streak. now rewrite (bind_int_small Hq), F.
Qed.

Lemma update_wrong_streak_rule_witness :
  exists c',
    update_wrong_streak DB_ONE (utf8 "t1") 1 true = inr (c', Some 1%Z) /\
    find_wrong c' 1 = Some (WrongRow 1 (utf8 "t0") 1 (utf8 "t1")) /\
    (forall k, k <> 1%N -> find_wrong c' k = find_wrong DB_ONE k).
Proof.
  assert (H : (1 < 2 ^ 63)%N) by (vm_compute; reflexivity).
  exact (@update_wrong_streak_rule DB_ONE (utf8 "t1") 1 true H).
Defined.

Lemma update_wrong_streak_last (c : conn) (ts : str) (qid : N) (b : bool)
    (a l : str) (s : Z) :
  (qid < 2 ^ 63)%N -> find_wrong c qid = None ->
  let streak := if b then (s + 1)%Z else 0%Z in
  update_wrong_streak (set_wrongbook c (wrongbook_tbl c ++ [WrongRow qid a s l])) ts qid b =
  if (3 <=? streak)%Z then inr (c, Some 3%Z)
  else inr (set_wrongbook c (wrongbook_tbl c ++ [WrongRow qid a streak ts]), Some streak).
Proof.
  intros Hq F streak.
  assert (Hf : forall x, In x (wrongbook_tbl c) -> (question_id x =? qid)%N = false).
  { intros x Hx. apply N.eqb_neq. intros <-. apply (find_wrong_None _ _ F).
    now apply in_map. }
  unfold update_wrong_streak, remove_from_wrongbook.
  rewrite (bind_int_small Hq), find_wrong_set, find_snoc. fold (find_wrong c qid).
  rewrite F. cbn [question_id]. rewrite N.eqb_refl. cbn [streak_correct].
  fold streak. destruct (3 <=? streak)%Z.
  - unfold set_wrongbook. cbn [question_tbl question_seq attempt_tbl attempt_seq wrongbook_tbl].
    rewrite filter_app. cbn [filter question_id]. rewrite N.eqb_refl. cbn [negb].
    rewrite app_nil_r, filter_all.
    + now destruct c.
    + intros x Hx. now rewrite (Hf x Hx).
  - unfold set_wrongbook. cbn [question_tbl question_seq attempt_tbl attempt_seq wrongbook_tbl].
    rewrite map_app. cbn [map question_id added_ts]. rewrite N.eqb_refl.
    do 3 f_equal. rewrite <- (map_id (wrongbook_tbl c)) at 2.
    f_equal. apply map_ext_in. intros x Hx. now rewrite (Hf x Hx).
Qed.

(** Three correct answers in a row take a question out again: after
    [add_to_wrongbook] for a stored question that was not in the wrongbook,
    three calls of [update_wrong_streak] with a correct answer return 1, 2
    and 3, and the database is then what it was before the question was
    added. *)
Theorem three_correct_answers_remove (c : conn) (t0 t1 t2 t3 : str) (qid : N) :
  (qid < 2 ^ 63)%N -> has_question c qid = true -> find_wrong c qid = None ->
  exists c0 c1 c2,
    add_to_wrongbook c t0 qid = inr c0 /\
    update_wrong_streak c0 t1 qid true = inr (c1, Some 1%Z) /\
    update_wrong_streak c1 t2 qid true = inr (c2, Some 2%Z) /\
    update_wrong_streak c2 t3 qid true = inr (c, Some 3%Z).
Proof.
  intros Hq Hh F.
  exists (set_wrongbook c (wrongbook_tbl c ++ [WrongRow qid t0 0 t0])),
         (set_wrongbook c (wrongbook_tbl c ++ [WrongRow qid t0 1 t1])),
         (set_wrongbook c (wrongbook_tbl c ++ [WrongRow qid t0 2 t2])).
  split; [|split; [|split]].
  - unfold add_to_wrongbook. now rewrite (bind_int_small Hq), F, Hh.
  - now rewrite (@update_wrong_streak_last c t1 qid true t0 t0 0 Hq F).
  - now rewrite (@update_wrong_streak_last c t2 qid true t0 t1 1 Hq F).
  - now rewrite (@update_wrong_streak_last c t3 qid true t0 t2 2 Hq F).
Qed.

Lemma three_correct_answers_remove_witness :
  exists c0 c1 c2,
    add_to_wrongbook DB_QUESTION (utf8 "t0") 1 = inr c0 /\
    update_wrong_streak c0 (utf8 "t1") 1 true = inr (c1, Some 1%Z) /\
    update_wrong_streak c1 (utf8 "t2") 1 true = inr (c2, Some 2%Z) /\
    update_wrong_streak c2 (utf8 "t3") 1 true = inr (DB_QUESTION, Some 3%Z).
Proof.
  apply three_correct_answers_remove.
  - vm_compute. reflexivity.
  - reflexivity.
  - reflexivity.
Defined.

(** Adding a question to the wrongbook.  A question that is in it already
    keeps its row, with its time of entry and its streak, and only the time
    of the last answer changes; a stored question that is not in it gets a
    row with streak 0; a key that is not the key of a stored question
    raises [IntegrityError].  The rows of other questions are not touched. *)
Theorem add_to_wrongbook_rule (c : conn) (ts : str) (qid : N) :
  (qid < 2 ^ 63)%N ->
  (forall w,
      find_wrong c qid = Some w ->
      exists c',
        add_to_wrongbook c ts qid = inr c' /\
        find_wrong c' qid = Some (WrongRow qid (added_ts w) (streak_correct w) ts) /\
        (forall k, k <> qid -> find_wrong c' k = find_wrong c k) /\
        wrong_count c' = wrong_count c) /\
  (find_wrong c qid = None -> has_question c qid = true ->
   exists c',
     add_to_wrongbook c ts qid = inr c' /\
     find_wrong c' qid = Some (WrongRow qid ts 0 ts) /\
     (forall k, k <> qid -> find_wrong c' k = find_wrong c k) /\
     wrong_count c' = S (wrong_count c)) /\
  (find_wrong c qid = None -> has_question c qid = false ->
   add_to_wrongbook c ts qid = inl IntegrityError).
Proof.
  intros Hq. pose proof (add_to_wrongbook_cases c ts Hq) as H.
  split; [|split].
  - intros w F. rewrite F in H. destruct H as (c' & E & F1 & F2 & F3 & _).
    exists c'. auto.
  - intros F Hh. rewrite F, Hh in H. destruct H as (c' & E & F1 & F2 & F3 & _).
    exists c'. auto.
  - intros F Hh. now rewrite F, Hh in H.
Qed.

Lemma add_to_wrongbook_rule_witness :
  add_to_wrongbook DB_ONE (utf8 "t1") 7 = inl IntegrityError.
Proof.
  assert (H : (7 < 2 ^ 63)%N) by (vm_compute; reflexivity).
  apply (proj2 (proj2 (@add_to_wrongbook_rule DB_ONE (utf8 "t1") 7 H))); reflexivity.
Defined.

Lemma record_attempt_inr (c c' : conn) (ts : str) (qid : N) (ua : str)
    (ic : option bool) (mode : str) :
  record_attempt c ts qid ua ic mode = inr c' ->
  question_tbl c' = question_tbl c /\ wrongbook_tbl c' = wrongbook_tbl c /\
  List.length (attempt_tbl c') = S (List.length (attempt_tbl c)) /\
  has_question c qid = true /\ (qid < 2 ^ 63)%N.
Proof.
  unfold record_attempt, bind_all, bind_int.
  destruct (2 ^ 63 <=? qid)%N eqn:Eq; [discriminate|]. apply N.leb_gt in Eq.
  destruct (bind_text ua); [discriminate|].
  destruct (bind_text mode); [discriminate|].
  destruct (has_question c qid) eqn:Hq; [|discriminate].
  intros E. inv E. simpl. rewrite length_app. simpl. repeat split; try lia; auto.
Qed.

Lemma find_wrong_same (c c' : conn) (k : N) :
  wrongbook_tbl c' = wrongbook_tbl c -> find_wrong c' k = find_wrong c k.
Proof. unfold find_wrong. now intros ->. Qed.



(** *** The figures of the status bar *)

Lemma streak_count_total (wb : list wrong_row) :
  Forall (fun w => (0 <= streak_correct w < 3)%Z) wb ->
  List.length (filter (fun w => (streak_correct w =? 0)%Z) wb) +
  List.length (filter (fun w => (streak_correct w =? 1)%Z) wb) +
  List.length (filter (fun w => (streak_correct w =? 2)%Z) wb) = List.length wb.
Proof.
  induction 1 as [|w wb Hw _ IH]; [reflexivity|]. simpl.
  destruct (streak_correct w =? 0)%Z eqn:E0;
    destruct (streak_correct w =? 1)%Z eqn:E1;
    destruct (streak_correct w =? 2)%Z eqn:E2; simpl; lia.
Qed.

(** The three figures of the streak distribution (streak 0, 1 and 2)
    account for every row of the wrongbook: they add up to the number of
    wrongbook questions that is shown beside them. *)
Theorem streak_dist_total (c : conn) :
  db_ok c ->
  fst (fst (streak_dist c)) + snd (fst (streak_dist c)) + snd (streak_dist c)
  = wrong_count c.
Proof.
  intros (_ & _ & _ & _ & _ & _ & H). unfold streak_dist, streak_count, wrong_count.
  simpl. now apply streak_count_total.
Qed.

Lemma streak_dist_total_witness :
  db_ok DB_ONE /\ 1 + 0 + 0 = wrong_count DB_ONE.
Proof.
  assert (H : db_ok DB_ONE).
  { unfold db_ok. simpl. repeat split; repeat constructor; simpl; try tauto; lia. }
  split; [exact H|]. exact (streak_dist_total H).
Defined.

(** ** Letters *)

Lemma strictly_sorted_ext (l1 : list N) :
  forall l2,
    StronglySorted N.lt l1 -> StronglySorted N.lt l2 ->
    (forall c, In c l1 <-> In c l2) -> l1 = l2.
Proof.
  induction l1 as [|a l1 IH]; intros l2 S1 S2 H.
  - destruct l2 as [|b l2]; [reflexivity|]. destruct (proj2 (H b) (or_introl eq_refl)).
  - destruct l2 as [|b l2]; [destruct (proj1 (H a) (or_introl eq_refl))|].
    inv S1. inv S2.
    match goal with
    | F1 : Forall (N.lt a) l1, F2 : Forall (N.lt b) l2 |- _ =>
        rewrite Forall_forall in F1, F2; rename F1 into Fa; rename F2 into Fb
    end.
    assert (a = b).
    { destruct (proj1 (H a) (or_introl eq_refl)) as [E|Ha]; [auto|].
      destruct (proj2 (H b) (or_introl eq_refl)) as [E|Hb]; [auto|].
      specialize (Fa _ Hb). specialize (Fb _ Ha). lia. }
    subst b. f_equal. apply IH; [assumption|assumption|].
    intros c. split; intros Hc.
    + destruct (proj1 (H c) (or_intror Hc)) as [E|Hc']; [|assumption].
      subst c. specialize (Fa _ Hc). lia.
    + destruct (proj2 (H c) (or_intror Hc)) as [E|Hc']; [|assumption].
      subst c. specialize (Fb _ Hc). lia.
Qed.

Lemma norm_letters_eq_iff (s1 s2 : str) :
  norm_letters s1 = norm_letters s2 <-> (forall c, has_letter c s1 <-> has_letter c s2).
Proof.
  unfold has_letter. split.
  - intros E c. now rewrite <- !norm_letters_In, E.
  - intros H. apply strictly_sorted_ext; try apply norm_letters_strict.
    intros c. now rewrite !norm_letters_In.
Qed.

Lemma upper_AH_self (c : N) : (65 <= c <= 72)%N -> upper_AH c = [c].
Proof.
  intros H. unfold upper_AH.
  assert (E : ((65 <=? c) && (c <=? 72))%N = true)
    by (apply andb_true_iff; split; apply N.leb_le; lia).
  now rewrite E.
Qed.

Lemma has_letter_norm_letters (c : N) (s : str) :
  has_letter c (norm_letters s) <-> has_letter c s.
Proof.
  unfold has_letter. rewrite <- (norm_letters_In s c), in_flat_map. split.
  - intros (x & Hx & Hc). rewrite (upper_AH_self (norm_letters_range _ _ Hx)) in Hc.
    destruct Hc as [<-|[]]. assumption.
  - intros H. exists c. split; [assumption|].
    rewrite (upper_AH_self (norm_letters_range _ _ H)). now left.
Qed.

(** [norm_letters] gives a canonical form of the set of the letters A..H
    in a text: two texts have the same form exactly when they hold the
    same letters, whatever their order, case and repetitions and whatever
    else the texts hold; and the form of a form is the form itself. *)
Theorem norm_letters_canonical (s1 s2 : str) :
  (norm_letters s1 = norm_letters s2 <->
   forall c, has_letter c s1 <-> has_letter c s2) /\
  norm_letters (norm_letters s1) = norm_letters s1 /\
  StronglySorted N.lt (norm_letters s1) /\
  (forall c, In c (norm_letters s1) -> (65 <= c <= 72)%N).
Proof.
  split; [apply norm_letters_eq_iff|]. split; [|split].
  - apply norm_letters_eq_iff. intros c. apply has_letter_norm_letters.
  - apply norm_letters_strict.
  - intros c. apply norm_letters_range.
Qed.

Lemma norm_letters_canonical_witness :
  norm_letters (utf8 "c, a") = norm_letters (utf8 "AC") /\
  (forall c, has_letter c (utf8 "c, a") <-> has_letter c (utf8 "AC")).
Proof.
  assert (E : norm_letters (utf8 "c, a") = norm_letters (utf8 "AC"))
    by (vm_compute; reflexivity).
  split; [exact E|].
  exact (proj1 (proj1 (norm_letters_canonical (utf8 "c, a") (utf8 "AC"))) E).
Defined.

(** ** Moving through the question list *)

Lemma nav_step_range (n : nat) (idx : Z) (a : nav_action) :
  0 < n -> (0 <= idx < Z.of_nat n)%Z -> (0 <= nav_step n idx a < Z.of_nat n)%Z.
Proof.
  intros Hn Hi. destruct n as [|n]; [lia|].
  destruct a as [| |[k|]]; unfold nav_step, Nav.prev, Nav.next, Nav.on_jump;
    cbn [Nat.eqb]; lia.
Qed.

(** With questions in the list, the index on display stays a position of
    the list through every sequence of steps back, steps forward and
    jumps; a jump to [k] shows question [k], or the first or last one when
    [k] is out of range. *)
Theorem navigation_in_range (n : nat) (actions : list nav_action) (idx : Z) :
  0 < n -> (0 <= idx < Z.of_nat n)%Z ->
  (0 <= fold_left (nav_step n) actions idx < Z.of_nat n)%Z /\
  (forall k, Nav.on_jump n (Some k) idx =
             if (k <? 1)%Z then 0%Z
             else if (Z.of_nat n <? k)%Z then (Z.of_nat n - 1)%Z else (k - 1)%Z).
Proof.
  intros Hn Hi. split.
  - revert idx Hi. induction actions as [|a actions IH]; simpl; intros idx Hi.
    + assumption.
    + apply IH. now apply nav_step_range.
  - intros k. unfold Nav.on_jump. destruct n as [|n]; [lia|]. cbn [Nat.eqb].
    destruct (k <? 1)%Z eqn:E1; [apply Z.ltb_lt in E1; lia|apply Z.ltb_ge in E1].
    destruct (Z.of_nat (S n) <? k)%Z eqn:E2;
      [apply Z.ltb_lt in E2; lia|apply Z.ltb_ge in E2; lia].
Qed.

Lemma navigation_in_range_witness :
  0 < 3 /\ (0 <= 0 < Z.of_nat 3)%Z /\
  (0 <= fold_left (nav_step 3) [GoNext; GoJump (Some 9%Z); GoNext; GoPrev] 0%Z
     < Z.of_nat 3)%Z.
Proof.
  assert (H1 : 0 < 3) by lia.
  assert (H2 : (0 <= 0 < Z.of_nat 3)%Z) by (simpl; lia).
  split; [exact H1|]. split; [exact H2|].
  exact (proj1 (@navigation_in_range 3 [GoNext; GoJump (Some 9%Z); GoNext; GoPrev]
                                     0%Z H1 H2)).
Defined.

(** ** Grading *)

Ltac bool_to_prop :=
  repeat match goal with
         | H : andb _ _ = true |- _ => apply andb_true_iff in H as [? ?]
         | H : orb _ _ = true |- _ => apply orb_true_iff in H as [?|?]
         | H : (_ <=? _)%N = true |- _ => apply N.leb_le in H
         | H : (_ <? _)%N = true |- _ => apply N.ltb_lt in H
         | H : (_ =? _)%N = true |- _ => apply N.eqb_eq in H
         end.

Lemma space_no_letter (c : N) : is_space c = true -> upper_AH c = [].
Proof.
  unfold is_space, upper_AH. intros H.
  repeat match goal with
         | |- context [if ?b then _ else _] =>
             let E := fresh "E" in destruct b eqn:E; [exfalso; bool_to_prop; lia|]
         end.
  reflexivity.
Qed.

Lemma letters_lstrip (s : str) : flat_map upper_AH (lstrip s) = flat_map upper_AH s.
Proof.
  induction s as [|c s IH]; [reflexivity|]. simpl.
  destruct (is_space c) eqn:E; [|reflexivity].
  now rewrite (space_no_letter c E).
Qed.

Lemma letters_rstrip (s : str) : flat_map upper_AH (rstrip s) = flat_map upper_AH s.
Proof.
  induction s as [|c s IH]; [reflexivity|]. rewrite rstrip_cons.
  cbn [flat_map]. rewrite <- IH.
  destruct (rstrip s) as [|d r]; [|reflexivity].
  destruct (is_space c) eqn:E; [now rewrite (space_no_letter c E)|reflexivity].
Qed.

Lemma letters_strip (s : str) : flat_map upper_AH (strip s) = flat_map upper_AH s.
Proof. unfold strip. now rewrite letters_rstrip, letters_lstrip. Qed.

Lemma has_letter_strip (c : N) (s : str) : has_letter c (strip s) <-> has_letter c s.
Proof. unfold has_letter. now rewrite letters_strip. Qed.

Lemma nonempty_norm_letters (s : str) :
  nonempty (norm_letters s) = true <-> exists c, has_letter c s.
Proof.
  unfold has_letter. split.
  - destruct (norm_letters s) as [|c r] eqn:E; [discriminate|]. intros _.
    exists c. rewrite <- norm_letters_In, E. now left.
  - intros (c & H). apply norm_letters_In in H.
    destruct (norm_letters s); [destruct H|reflexivity].
Qed.

(** *** The order of strings *)

Lemma str_ltb_irrefl (a : str) : str_ltb a a = false.
Proof.
  induction a as [|x a IH]; [reflexivity|]. simpl.
  now rewrite N.ltb_irrefl, N.eqb_refl, IH.
Qed.

Lemma str_ltb_trans (a : str) :
  forall b c, str_ltb a b = true -> str_ltb b c = true -> str_ltb a c = true.
Proof.
  induction a as [|x a IH]; intros [|y b] [|z c]; simpl; try discriminate; auto.
  intros H1 H2.
  apply orb_true_iff in H1 as [H1|H1]; apply orb_true_iff in H2 as [H2|H2];
    bool_to_prop; apply orb_true_iff.
  - left. apply N.ltb_lt. lia.
  - left. apply N.ltb_lt. lia.
  - left. apply N.ltb_lt. lia.
  - right. apply andb_true_iff. split; [apply N.eqb_eq; lia|]. eapply IH; eassumption.
Qed.

Lemma str_ltb_total (a : str) :
  forall b, str_ltb a b = false -> str_ltb b a = false -> a = b.
Proof.
  induction a as [|x a IH]; intros [|y b]; simpl; try discriminate; auto.
  intros H1 H2.
  apply orb_false_iff in H1 as [A1 B1]. apply orb_false_iff in H2 as [A2 B2].
  apply N.ltb_ge in A1, A2. assert (x = y) by lia. subst y.
  rewrite N.eqb_refl in B1, B2. simpl in B1, B2. f_equal. now apply IH.
Qed.

Lemma insert_str_perm (k : str) (l : list str) : Permutation (insert_str k l) (k :: l).
Proof.
  induction l as [|h t IH]; simpl; [reflexivity|].
  destruct (str_ltb k h); [reflexivity|].
  rewrite IH. apply perm_swap.
Qed.

Lemma sorted_strs_perm (l : list str) : Permutation (sorted_strs l) l.
Proof.
  induction l as [|k l IH]; [reflexivity|].
  unfold sorted_strs in *. simpl. rewrite insert_str_perm. now constructor.
Qed.

Lemma insert_str_sorted (k : str) (l : list str) :
  StronglySorted (fun a b => str_ltb b a = false) l ->
  StronglySorted (fun a b => str_ltb b a = false) (insert_str k l).
Proof.
  induction 1 as [|h t Ht IH Hh]; simpl; [repeat constructor|].
  destruct (str_ltb k h) eqn:E.
  - constructor; [constructor; assumption|].
    constructor.
    + destruct (str_ltb h k) eqn:E2; [|reflexivity].
      pose proof (str_ltb_trans _ _ _ E E2) as C. now rewrite str_ltb_irrefl in C.
    + rewrite Forall_forall in *. intros x Hx. specialize (Hh x Hx).
      destruct (str_ltb x k) eqn:E2; [|reflexivity].
      pose proof (str_ltb_trans _ _ _ E2 E) as C. congruence.
  - constructor; [assumption|].
    rewrite Forall_forall in *. intros x Hx.
    apply (Permutation_in _ (insert_str_perm k t)) in Hx as [<-|Hx]; auto.
Qed.

Lemma sorted_strs_sorted (l : list str) :
  StronglySorted (fun a b => str_ltb b a = false) (sorted_strs l).
Proof.
  induction l as [|k l IH]; [constructor|].
  unfold sorted_strs in *. simpl. now apply insert_str_sorted.
Qed.

Lemma sorted_perm_unique (l1 : list str) :
  forall l2,
    StronglySorted (fun a b => str_ltb b a = false) l1 ->
    StronglySorted (fun a b => str_ltb b a = false) l2 ->
    Permutation l1 l2 -> l1 = l2.
Proof.
  induction l1 as [|a l1 IH]; intros l2 S1 S2 P.
  - now apply Permutation_nil in P.
  - destruct l2 as [|b l2]; [symmetry in P; now apply Permutation_nil in P|].
    inv S1. inv S2.
    match goal with
    | F1 : Forall _ l1, F2 : Forall _ l2 |- _ =>
        rewrite Forall_forall in F1, F2; rename F1 into Fa; rename F2 into Fb
    end.
    assert (a = b).
    { assert (Ha : In a (b :: l2)) by (apply (Permutation_in _ P); now left).
      assert (Hb : In b (a :: l1))
        by (apply (Permutation_in _ (Permutation_sym P)); now left).
      destruct Ha as [E|Ha]; [auto|]. destruct Hb as [E|Hb]; [auto|].
      apply str_ltb_total; [now apply Fb|now apply Fa]. }
    subst b. f_equal. apply IH; [assumption|assumption|].
    now apply Permutation_cons_inv in P.
Qed.

Lemma sorted_strs_permutation (l1 l2 : list str) :
  Permutation l1 l2 -> sorted_strs l1 = sorted_strs l2.
Proof.
  intros P. apply sorted_perm_unique; try apply sorted_strs_sorted.
  rewrite !sorted_strs_perm. exact P.
Qed.

Lemma join_nil_concat (l : list str) : join [] l = concat l.
Proof.
  induction l as [|a l IH]; [reflexivity|]. simpl.
  destruct l as [|b l]; [now rewrite app_nil_r|]. now rewrite <- IH.
Qed.

Lemma has_letter_joined (c : N) (l : list str) :
  has_letter c (join [] (sorted_strs l)) <-> exists k, In k l /\ has_letter c k.
Proof.
  unfold has_letter. rewrite join_nil_concat, in_flat_map. split.
  - intros (x & Hx & Hc). apply in_concat in Hx as (k & Hk & Hxk).
    exists k. split; [apply (Permutation_in _ (sorted_strs_perm l) Hk)|].
    apply in_flat_map. eauto.
  - intros (k & Hk & Hc). apply in_flat_map in Hc as (x & Hx & Hc).
    exists x. split; [|assumption]. apply in_concat. exists k. split; [|assumption].
    apply (Permutation_in _ (Permutation_sym (sorted_strs_perm l)) Hk).
Qed.

(** A question with options is graded by sets of letters.  When the
    standard answer names no letter A..H the answer is left ungraded;
    otherwise it is correct exactly when the letters of the selected keys
    are the letters of the standard answer, whatever the order, the case and
    the other characters of the standard answer. *)
Theorem choice_grading (casefold : str -> str) (q : question) (ui : entry) :
  options q <> [] ->
  ((forall c, ~ has_letter c (answer q)) ->
   snd (get_user_answer casefold q ui) = None) /\
  ((exists c, has_letter c (answer q)) ->
   (qtype q = qt_multi ->
    snd (get_user_answer casefold q ui) =
      Some (str_eqb (norm_letters (join [] (sorted_strs (multi_selected ui))))
                    (norm_letters (answer q))) /\
    (snd (get_user_answer casefold q ui) = Some true <->
     forall c, (exists k, In k (multi_selected ui) /\ has_letter c k) <->
               has_letter c (answer q))) /\
   (qtype q <> qt_multi ->
    snd (get_user_answer casefold q ui) =
      Some (str_eqb (norm_letters (single_selected ui)) (norm_letters (answer q))) /\
    (snd (get_user_answer casefold q ui) = Some true <->
     forall c, has_letter c (single_selected ui) <-> has_letter c (answer q)))).
Proof.
  intros Ho. unfold get_user_answer. destruct (options q) as [|o os]; [contradiction|].
  assert (En : forall s, norm_letters (strip s) = norm_letters s).
  { intros s. apply norm_letters_eq_iff. intros c. apply has_letter_strip. }
  rewrite !En. split.
  - intros Hno.
    assert (E : nonempty (norm_letters (answer q)) = false).
    { destruct (nonempty (norm_letters (answer q))) eqn:E; [|reflexivity].
      apply nonempty_norm_letters in E as (c & Hc). destruct (Hno c Hc). }
    rewrite E. now destruct (qtype q).
  - intros Hsome. apply nonempty_norm_letters in Hsome. rewrite Hsome. split.
    + intros ->. simpl. split; [reflexivity|].
      split.
      * intros E. injection E as E. apply str_eqb_eq in E.
        pose proof (proj1 (norm_letters_eq_iff _ _) E) as Hset.
        intros c. now rewrite <- Hset, has_letter_joined.
      * intros H. f_equal. apply str_eqb_eq, norm_letters_eq_iff.
        intros c. now rewrite <- H, has_letter_joined.
    + intros Hm.
      assert (E : snd (match qtype q with
                       | qt_multi =>
                           (join [] (sorted_strs (multi_selected ui)),
                            Some (str_eqb (norm_letters (join [] (sorted_strs (multi_selected ui))))
                                          (norm_letters (answer q))))
                       | _ =>
                           (strip (single_selected ui),
                            Some (str_eqb (norm_letters (single_selected ui))
                                          (norm_letters (answer q))))
                       end)
                  = Some (str_eqb (norm_letters (single_selected ui)) (norm_letters (answer q))))
        by (destruct (qtype q); try reflexivity; contradiction).
      rewrite E. split; [reflexivity|]. split.
      * intros H. injection H as H. apply str_eqb_eq in H.
        exact (proj1 (norm_letters_eq_iff _ _) H).
      * intros H. f_equal. now apply str_eqb_eq, norm_letters_eq_iff.
Qed.

Lemma choice_grading_witness :
  OPTIONS_ABCD <> [] /\
  snd (get_user_answer CASEFOLD_ID Q_MULTI (Entry [utf8 "C"; utf8 "A"] [] [])) = Some true.
Proof.
  assert (H : options Q_MULTI <> []) by discriminate.
  split; [exact H|].
  destruct (@choice_grading CASEFOLD_ID Q_MULTI (Entry [utf8 "C"; utf8 "A"] [] []) H)
    as (_ & G).
  assert (L : exists c, has_letter c (answer Q_MULTI)) by (exists 65%N; vm_compute; auto).
  destruct (G L) as (Gm & _). destruct (Gm eq_refl) as (E & _).
  rewrite E. vm_compute. reflexivity.
Defined.

(** The selected keys of a multiple-choice question form a set: the answer
    string and the verdict do not depend on the order in which the keys are
    listed. *)
Theorem selection_order_irrelevant (casefold : str -> str) (q : question)
    (sel1 sel2 : list str) (single text : str) :
  Permutation sel1 sel2 ->
  get_user_answer casefold q (Entry sel1 single text) =
  get_user_answer casefold q (Entry sel2 single text).
Proof.
  intros P. unfold get_user_answer. cbn [multi_selected single_selected text_answer].
  now rewrite (sorted_strs_permutation P).
Qed.

Lemma selection_order_irrelevant_witness :
  Permutation [utf8 "C"; utf8 "A"] [utf8 "A"; utf8 "C"] /\
  get_user_answer CASEFOLD_ID Q_MULTI (Entry [utf8 "C"; utf8 "A"] [] []) =
  get_user_answer CASEFOLD_ID Q_MULTI (Entry [utf8 "A"; utf8 "C"] [] []).
Proof.
  assert (P : Permutation [utf8 "C"; utf8 "A"] [utf8 "A"; utf8 "C"]) by apply perm_swap.
  split; [exact P|].
  exact (@selection_order_irrelevant CASEFOLD_ID Q_MULTI _ _ [] [] P).
Defined.

(** *** True/false answers *)

Lemma judge_to_bool_true (x : str) : In (strip x) TRUE_WORDS -> judge_to_bool x = Some true.
Proof.
  intros H. unfold judge_to_bool.
  repeat (destruct H as [H|H]; [rewrite <- H; reflexivity|]). destruct H.
Qed.

Lemma judge_to_bool_false (x : str) :
  In (strip x) FALSE_WORDS -> judge_to_bool x = Some false.
Proof.
  intros H. unfold judge_to_bool.
  repeat (destruct H as [H|H]; [rewrite <- H; reflexivity|]). destruct H.
Qed.

Lemma judge_to_bool_strip (x : str) : judge_to_bool (strip x) = judge_to_bool x.
Proof. unfold judge_to_bool. now rewrite strip_idem. Qed.

Lemma judge_to_bool_blank (x : str) : strip x = [] -> judge_to_bool x = None.
Proof. intros H. unfold judge_to_bool. now rewrite H. Qed.

(** True/false answers are compared by what they say, not by how they are
    written: with a standard answer among 对, 正确, √, 是, T, TRUE, True,
    every one of these words is graded correct and every one of 错, 错误,
    ×, 否, F, FALSE, False wrong, and the other way round; surrounding
    whitespace does not matter; an empty answer is left ungraded. *)
Theorem judge_grading (casefold : str -> str) (q : question) (ui : entry) :
  options q = [] -> qtype q = qt_judge ->
  (In (strip (text_answer ui)) TRUE_WORDS -> In (strip (answer q)) TRUE_WORDS ->
   snd (get_user_answer casefold q ui) = Some true) /\
  (In (strip (text_answer ui)) FALSE_WORDS -> In (strip (answer q)) FALSE_WORDS ->
   snd (get_user_answer casefold q ui) = Some true) /\
  (In (strip (text_answer ui)) TRUE_WORDS -> In (strip (answer q)) FALSE_WORDS ->
   snd (get_user_answer casefold q ui) = Some false) /\
  (In (strip (text_answer ui)) FALSE_WORDS -> In (strip (answer q)) TRUE_WORDS ->
   snd (get_user_answer casefold q ui) = Some false) /\
  (strip (text_answer ui) = [] -> snd (get_user_answer casefold q ui) = None).
Proof.
  intros Ho Hq. unfold get_user_answer. rewrite Ho, Hq, !judge_to_bool_strip.
  assert (Hne : forall ws, In (strip (answer q)) ws -> Forall (fun w => w <> []) ws ->
                           negb (nonempty (strip (answer q))) = false).
  { intros ws Hin Hall. rewrite Forall_forall in Hall. specialize (Hall _ Hin).
    now destruct (strip (answer q)). }
  assert (Ht : Forall (fun w : str => w <> []) TRUE_WORDS) by (repeat constructor; discriminate).
  assert (Hf : Forall (fun w : str => w <> []) FALSE_WORDS) by (repeat constructor; discriminate).
  refine (conj _ (conj _ (conj _ (conj _ _)))).
  - intros Hu Ha. rewrite (Hne _ Ha Ht), (judge_to_bool_true _ Hu), (judge_to_bool_true _ Ha).
    reflexivity.
  - intros Hu Ha. rewrite (Hne _ Ha Hf), (judge_to_bool_false _ Hu), (judge_to_bool_false _ Ha).
    reflexivity.
  - intros Hu Ha. rewrite (Hne _ Ha Hf), (judge_to_bool_true _ Hu), (judge_to_bool_false _ Ha).
    reflexivity.
  - intros Hu Ha. rewrite (Hne _ Ha Ht), (judge_to_bool_false _ Hu), (judge_to_bool_true _ Ha).
    reflexivity.
  - intros Hu. rewrite (judge_to_bool_blank _ Hu).
    now destruct (negb (nonempty (strip (answer q)))).
Qed.

Lemma judge_grading_witness :
  snd (get_user_answer CASEFOLD_ID Q_JUDGE (Entry [] [] (utf8 " √
"))) = Some true.
Proof.
  apply (proj1 (@judge_grading CASEFOLD_ID Q_JUDGE (Entry [] [] (utf8 " √
")) eq_refl eq_refl)).
  - vm_compute. tauto.
  - vm_compute. tauto.
Defined.

(** ** Replacement as a scan *)

Lemma reach_state_after (st st' : mstate) (w : str) :
  reach st w st' -> st' = state_after (List.length w) st.
Proof.
  intros (R1 & R2 & R3). unfold state_after. destruct st' as [p' pv' r']. simpl in *.
  rewrite R1, firstn_app, Nat.sub_diag, firstn_all, skipn_app, Nat.sub_diag, skipn_all.
  simpl. rewrite app_nil_r. now subst.
Qed.

Lemma sub_pieces_skip (repl s : str) (p : nat) (c : N) (ms : list mres) :
  skipn p s = c :: skipn (S p) s -> ascending (S p) ms ->
  sub_pieces repl s p ms = c :: sub_pieces repl s (S p) ms.
Proof.
  intros E A. destruct ms as [|m tl]; simpl; [exact E|].
  destruct A as (A1 & _). unfold slice. rewrite E.
  replace (m_start m - p) with (S (m_start m - S p)) by lia. reflexivity.
Qed.

Lemma valid_skipn (s : str) (st : mstate) : valid s st -> skipn (pos st) s = rest st.
Proof.
  intros (pre & -> & -> & _). rewrite skipn_app, Nat.sub_diag, skipn_all. reflexivity.
Qed.

Section Scan.

Variable r : regex.
Variable step : str -> option nat.
Variable repl : str.

Hypothesis r_nonempty : 1 <= min_len r.

Hypothesis r_step : forall st,
  option_map m_end (match_at r st) = option_map (fun n => pos st + n) (step (rest st)).

Lemma match_at_step (st : mstate) :
  match step (rest st) with
  | Some n =>
      1 <= n <= List.length (rest st) /\
      exists caps, match_at r st = Some (MRes (pos st) (state_after n st) caps)
  | None => match_at r st = None
  end.
Proof.
  pose proof (r_step st) as H.
  destruct (match_at r st) as [m|] eqn:M; destruct (step (rest st)) as [n|];
    try discriminate; [|reflexivity].
  simpl in H. injection H as H.
  destruct (match_at_sound _ _ M) as (Hs & w & Mw & R).
  pose proof (Matches_min_len Mw) as L.
  pose proof (reach_state_after R) as E.
  destruct R as (R1 & R2 & _). unfold m_end in H.
  assert (n = List.length w) by lia. subst n.
  split; [rewrite R1, length_app; lia|].
  exists (m_caps m). destruct m as [ms me mc]. simpl in *. now subst.
Qed.

Lemma scan_sub_spec (s : str) :
  forall n st f1 f2,
    List.length (rest st) <= n -> valid s st ->
    List.length (rest st) < f1 -> List.length (rest st) <= f2 ->
    sub_pieces repl s (pos st) (finditer_from f1 r st) = scan_sub step repl f2 (rest st).
Proof.
  induction n as [|n IH]; intros st f1 f2 Hn V H1 H2.
  - destruct (rest st) as [|c r'] eqn:E; [|simpl in Hn; lia].
    destruct f1 as [|f1]; [simpl in H1; lia|].
    rewrite (@finditer_from_step r _ _ r_nonempty). rewrite E. simpl.
    pose proof (match_at_step st) as M. rewrite E in M.
    destruct (step []) as [k|]; [simpl in M; lia|].
    destruct st as [p pv rs]. simpl in *. subst rs. rewrite M.
    pose proof (valid_skipn V) as Hs. simpl in Hs |- *. rewrite Hs.
    now destruct f2.
  - destruct (rest st) as [|c r'] eqn:E.
    { rewrite <- E.
      apply (IH st f1 f2);
        [rewrite E; simpl; lia|assumption|rewrite E; exact H1|rewrite E; exact H2]. }
    destruct f1 as [|f1]; [simpl in H1; lia|].
    destruct f2 as [|f2]; [simpl in H2; lia|].
    rewrite (@finditer_from_step r _ _ r_nonempty). rewrite E.
    cbn [search_from scan_sub].
    pose proof (match_at_step st) as M. rewrite E in M.
    assert (Est : MState (pos st) (prev st) (c :: r') = st)
      by (destruct st; simpl in *; now subst).
    rewrite Est.
    destruct (step (c :: r')) as [k|].
    + destruct M as (Hk & caps & M). rewrite M.
      cbn [sub_pieces m_start m_end m_endst]. unfold slice.
      rewrite Nat.sub_diag. cbn [firstn app]. f_equal.
      assert (V' : valid s (state_after k st)).
      { destruct V as (pre & Hs & Hp & Hv). exists (pre ++ firstn k (rest st)).
        unfold state_after. cbn [rest pos prev].
        rewrite <- app_assoc, firstn_skipn, length_app, firstn_length_le, last_char_app
          by (rewrite E; lia).
        repeat split; congruence. }
      rewrite <- E.
      assert (L : List.length (skipn k (rest st)) = List.length (rest st) - k)
        by apply length_skipn.
      assert (Lr : List.length (rest st) = S (List.length r')) by now rewrite E.
      simpl in Hn, H1, H2, Hk.
      change (skipn k (rest st)) with (rest (state_after k st)).
      apply (IH (state_after k st) f1 f2); try assumption;
        unfold state_after; cbn [rest]; rewrite L, Lr; lia.
    + rewrite M.
      set (st2 := advance c r' st).
      assert (V2 : valid s st2) by (apply valid_advance; assumption).
      assert (F : match search_from r (S (pos st)) (Some c) r' with
                  | Some m => m :: finditer_from f1 r (m_endst m)
                  | None => []
                  end = finditer_from (S f1) r st2).
      { now rewrite (@finditer_from_step r _ _ r_nonempty). }
      rewrite F.
      simpl in Hn, H1, H2.
      rewrite sub_pieces_skip with (c := c).
      * f_equal. change (S (pos st)) with (pos st2). change r' with (rest st2).
        apply (IH st2 (S f1) f2); try assumption; unfold st2; simpl; lia.
      * rewrite (valid_skipn V), E. f_equal.
        change (S (pos st)) with (pos st2). now rewrite (valid_skipn V2).
      * change (S (pos st)) with (pos st2). apply (@finditer_from_spec r s (S f1) st2 V2).
Qed.

(** [re.sub] with the pattern is the scan with its step. *)
Lemma re_sub_scan (s : str) :
  re_sub r repl s None = scan_sub step repl (List.length s) s.
Proof.
  unfold re_sub, finditer.
  apply (scan_sub_spec (n := List.length s) (st := start_state s)); simpl;
    try lia. apply valid_start.
Qed.

End Scan.

(** *** The steps of the patterns *)

Lemma last_char_cons (x : N) (w : str) (d : option N) :
  last_char (x :: w) d = last_char w (Some x).
Proof. change (x :: w) with ([x] ++ w). now rewrite last_char_app. Qed.

Lemma rep_greedy_run (A : Type) (k : cls) (f : mstate -> A) (s : str) :
  forall lo p pv,
    rep_greedy k lo None p pv s (fun st' => Some (f st')) =
    if Nat.leb lo (run_len k s)
    then Some (f (MState (p + run_len k s) (last_char (firstn (run_len k s) s) pv)
                         (skipn (run_len k s) s)))
    else None.
Proof.
  induction s as [|x s IH]; intros lo p pv.
  - simpl. destruct lo; simpl; [|reflexivity]. now rewrite Nat.add_0_r.
  - cbn [rep_greedy run_len]. destruct (cls_mem k x) eqn:E.
    + cbn [andb hi_allows option_map]. rewrite IH.
      replace (Nat.leb (Nat.pred lo) (run_len k s)) with (Nat.leb lo (S (run_len k s)))
        by (destruct lo; reflexivity).
      destruct (Nat.leb lo (S (run_len k s))) eqn:L.
      * cbn [firstn skipn]. rewrite last_char_cons.
        now replace (S p + run_len k s) with (p + S (run_len k s)) by lia.
      * destruct lo; [discriminate|reflexivity].
    + cbn [andb]. destruct lo; simpl; [|reflexivity]. now rewrite Nat.add_0_r.
Qed.

Lemma step_run_ok (k : cls) (lo : nat) (st : mstate) :
  option_map m_end (match_at (Rep k lo None) st) =
  option_map (fun n => pos st + n) (step_run k lo (rest st)).
Proof.
  unfold match_at, step_run. cbn [rmatch].
  rewrite (rep_greedy_run k (fun st' => MRes (pos st) st' []) (rest st) lo (pos st) (prev st)).
  now destruct (Nat.leb lo (run_len k (rest st))).
Qed.

Lemma step_set_ok (k : cls) (st : mstate) :
  option_map m_end (match_at (Set_ k) st) =
  option_map (fun n => pos st + n) (step_set k (rest st)).
Proof.
  unfold match_at, step_set. cbn [rmatch].
  destruct (rest st) as [|c r']; [reflexivity|].
  destruct (cls_mem k c); [|reflexivity].
  unfold m_end. simpl. f_equal. lia.
Qed.

Lemma step_crlf_ok (st : mstate) :
  option_map m_end (match_at RE_CRLF st) =
  option_map (fun n => pos st + n) (step_crlf (rest st)).
Proof.
  unfold match_at, step_crlf, RE_CRLF. cbn [rmatch cls_mem].
  destruct (rest st) as [|c r']; [reflexivity|].
  destruct (c =? CR)%N; [|reflexivity].
  cbn [advance rest]. destruct r' as [|d r'']; [unfold m_end; simpl; f_equal; lia|].
  destruct (d =? LF)%N; unfold m_end; simpl; f_equal; lia.
Qed.

Lemma re_sub_run (k : cls) (lo : nat) (repl s : str) :
  1 <= lo ->
  re_sub (Rep k lo None) repl s None = scan_sub (step_run k lo) repl (List.length s) s.
Proof. intros H. apply re_sub_scan; [exact H|apply step_run_ok]. Qed.

Lemma re_sub_set (k : cls) (repl s : str) :
  re_sub (Set_ k) repl s None = scan_sub (step_set k) repl (List.length s) s.
Proof. apply re_sub_scan; [simpl; lia|apply step_set_ok]. Qed.

Lemma re_sub_crlf (repl s : str) :
  re_sub RE_CRLF repl s None = scan_sub step_crlf repl (List.length s) s.
Proof. apply re_sub_scan; [simpl; lia|apply step_crlf_ok]. Qed.

(** *** What a scan keeps *)

Lemma run_len_all (k : cls) (s : str) :
  Forall (fun c => cls_mem k c = true) (firstn (run_len k s) s).
Proof.
  induction s as [|c s IH]; simpl; [constructor|].
  destruct (cls_mem k c) eqn:E; simpl; constructor; assumption.
Qed.

Lemma run_len_le (k : cls) (s : str) : run_len k s <= List.length s.
Proof.
  induction s as [|c s IH]; simpl; [lia|]. destruct (cls_mem k c); simpl; lia.
Qed.

Lemma scan_sub_In (step : str -> option nat) (repl : str) (x : N) :
  forall fuel s, In x (scan_sub step repl fuel s) -> In x repl \/ In x s.
Proof.
  induction fuel as [|fuel IH]; intros s H; simpl in H; [auto|].
  destruct s as [|c s']; [destruct H|].
  destruct (step (c :: s')) as [n|].
  - apply in_app_or in H as [H|H]; [auto|].
    apply IH in H as [H|H]; [auto|]. right.
    rewrite <- (firstn_skipn n (c :: s')). apply in_or_app. now right.
  - destruct H as [<-|H]; [right; now left|].
    apply IH in H as [H|H]; [auto|right; now right].
Qed.

(** A scan leaves no character that starts a match. *)
Lemma scan_sub_removes (step : str -> option nat) (repl : str) (P : N -> bool) (x : N) :
  (forall c s', step (c :: s') = None -> P c = false) ->
  (forall s n, step s = Some n -> 1 <= n) ->
  forall fuel s,
    List.length s <= fuel ->
    In x (scan_sub step repl fuel s) -> In x repl \/ (In x s /\ P x = false).
Proof.
  intros HP Hn. induction fuel as [|fuel IH]; intros s L H.
  - destruct s; [destruct H|simpl in L; lia].
  - simpl in H. destruct s as [|c s']; [destruct H|].
    destruct (step (c :: s')) as [n|] eqn:E.
    + apply in_app_or in H as [H|H]; [auto|].
      pose proof (Hn _ _ E) as N1.
      apply IH in H as [H|(H & Hx)]; [auto| |].
      * right. split; [|assumption].
        rewrite <- (firstn_skipn n (c :: s')). apply in_or_app. now right.
      * rewrite length_skipn.
        change (List.length (c :: s')) with (S (List.length s')) in *. lia.
    + destruct H as [<-|H]; [right; split; [now left|eauto]|].
      apply IH in H as [H|(H & Hx)]; [auto| |simpl in L; lia].
      right. split; [now right|assumption].
Qed.

Lemma no_space_app (a b : str) : no_space (a ++ b) = no_space a ++ no_space b.
Proof. unfold no_space. apply filter_app. Qed.

Lemma no_space_all_space (w : str) : all_space w -> no_space w = [].
Proof.
  intros H. unfold no_space. apply filter_none.
  unfold all_space in H. rewrite Forall_forall in H.
  intros x Hx. now rewrite (H x Hx).
Qed.

Lemma no_space_nil_iff (w : str) : no_space w = [] <-> all_space w.
Proof.
  split; [|apply no_space_all_space].
  unfold no_space, all_space. induction w as [|c w IH]; simpl; [constructor|].
  destruct (is_space c) eqn:E; simpl; [|discriminate].
  intros H. constructor; auto.
Qed.

(** A scan that replaces whitespace by whitespace keeps the other
    characters. *)
Lemma scan_sub_no_space (step : str -> option nat) (repl : str) :
  (forall s n, step s = Some n -> all_space (firstn n s)) -> all_space repl ->
  forall fuel s, no_space (scan_sub step repl fuel s) = no_space s.
Proof.
  intros Hs Hr. induction fuel as [|fuel IH]; intros s; simpl; [reflexivity|].
  destruct s as [|c s']; [reflexivity|].
  destruct (step (c :: s')) as [n|] eqn:E.
  - rewrite no_space_app, (no_space_all_space Hr), IH. cbn [app].
    transitivity (no_space (firstn n (c :: s') ++ skipn n (c :: s')));
      [|now rewrite firstn_skipn].
    now rewrite no_space_app, (no_space_all_space (Hs _ _ E)).
  - change (c :: scan_sub step repl fuel s') with ([c] ++ scan_sub step repl fuel s').
    change (c :: s') with ([c] ++ s').
    now rewrite !no_space_app, IH.
Qed.

Lemma step_run_space (k : cls) (lo : nat) :
  (forall c, cls_mem k c = true -> is_space c = true) ->
  forall s n, step_run k lo s = Some n -> all_space (firstn n s).
Proof.
  intros Hk s n. unfold step_run. destruct (Nat.leb lo (run_len k s)); [|discriminate].
  intros E. inv E. eapply Forall_impl; [|apply run_len_all]. exact Hk.
Qed.

Lemma step_run_pos (k : cls) (lo : nat) (s : str) (n : nat) :
  1 <= lo -> step_run k lo s = Some n -> 1 <= n.
Proof.
  unfold step_run. intros H. destruct (Nat.leb lo (run_len k s)) eqn:L; [|discriminate].
  apply Nat.leb_le in L. intros E. inv E. lia.
Qed.

Lemma step_run_none (k : cls) (c : N) (s' : str) :
  step_run k 1 (c :: s') = None -> cls_mem k c = false.
Proof.
  unfold step_run. simpl. destruct (cls_mem k c); [discriminate|reflexivity].
Qed.

Lemma step_set_space (k : cls) :
  (forall c, cls_mem k c = true -> is_space c = true) ->
  forall s n, step_set k s = Some n -> all_space (firstn n s).
Proof.
  intros Hk [|c s'] n; simpl; [discriminate|].
  destruct (cls_mem k c) eqn:E; [|discriminate].
  intros H. inv H. simpl. constructor; [auto|constructor].
Qed.

Lemma step_crlf_space (s : str) (n : nat) :
  step_crlf s = Some n -> all_space (firstn n s).
Proof.
  destruct s as [|c s']; simpl; [discriminate|].
  destruct (c =? CR)%N eqn:E; [|discriminate]. apply N.eqb_eq in E. subst c.
  destruct s' as [|d s''].
  - intros H. inv H. repeat constructor.
  - destruct (d =? LF)%N eqn:E2; intros H; inv H; [|repeat constructor].
    apply N.eqb_eq in E2. subst d. repeat constructor.
Qed.

(** *** Whitespace and the [str] methods *)

Lemma no_space_cons_space (c : N) (s : str) :
  is_space c = true -> no_space (c :: s) = no_space s.
Proof. intros H. unfold no_space. simpl. now rewrite H. Qed.

Lemma no_space_lstrip (s : str) : no_space (lstrip s) = no_space s.
Proof.
  induction s as [|c s IH]; [reflexivity|]. cbn [lstrip].
  destruct (is_space c) eqn:E; [|reflexivity].
  rewrite IH. symmetry. now apply no_space_cons_space.
Qed.

Lemma no_space_rstrip (s : str) : no_space (rstrip s) = no_space s.
Proof.
  induction s as [|c s IH]; [reflexivity|]. rewrite rstrip_cons.
  change (c :: s) with ([c] ++ s). rewrite no_space_app, <- IH.
  destruct (rstrip s) as [|d r'].
  - destruct (is_space c) eqn:E; unfold no_space; simpl; rewrite E; reflexivity.
  - change (c :: d :: r') with ([c] ++ d :: r'). now rewrite no_space_app.
Qed.

Lemma no_space_strip (s : str) : no_space (strip s) = no_space s.
Proof. unfold strip. now rewrite no_space_rstrip, no_space_lstrip. Qed.

Lemma no_space_join_LF (ls : list str) :
  no_space (join [LF] ls) = concat (map no_space ls).
Proof.
  induction ls as [|p ls IH]; [reflexivity|].
  destruct ls as [|q ls]; [simpl; now rewrite app_nil_r|].
  change (join [LF] (p :: q :: ls)) with (p ++ [LF] ++ join [LF] (q :: ls)).
  rewrite !no_space_app, IH. reflexivity.
Qed.

Lemma no_space_split_LF (t : str) :
  concat (map no_space (split_on LF t)) = no_space t.
Proof.
  induction t as [|c t IH]; [reflexivity|]. cbn [split_on].
  destruct (c =? LF)%N eqn:E.
  - apply N.eqb_eq in E. subst c. cbn [map concat]. rewrite IH.
    symmetry. now apply no_space_cons_space.
  - destruct (split_on LF t) as [|l ls]; cbn [map concat] in *.
    + rewrite app_nil_r. change (c :: t) with ([c] ++ t).
      now rewrite no_space_app, <- IH, app_nil_r.
    + change (c :: l) with ([c] ++ l). change (c :: t) with ([c] ++ t).
      now rewrite !no_space_app, <- IH, <- app_assoc.
Qed.

Lemma no_space_lines_rstrip (t : str) :
  no_space (join [LF] (map rstrip (split_on LF t))) = no_space t.
Proof.
  rewrite no_space_join_LF, map_map, <- no_space_split_LF. f_equal.
  apply map_ext. intros l. apply no_space_rstrip.
Qed.

Lemma In_lstrip (x : N) (s : str) : In x (lstrip s) -> In x s.
Proof.
  induction s as [|c s IH]; simpl; [auto|].
  destruct (is_space c); [auto|]. simpl. auto.
Qed.

Lemma In_rstrip (x : N) (s : str) : In x (rstrip s) -> In x s.
Proof.
  induction s as [|c s IH]; [auto|]. rewrite rstrip_cons.
  destruct (rstrip s) as [|d r'].
  - destruct (is_space c); simpl; tauto.
  - simpl in *. intros [H|H]; auto.
Qed.

Lemma In_strip (x : N) (s : str) : In x (strip s) -> In x s.
Proof. unfold strip. intros H. now apply In_lstrip, In_rstrip. Qed.

Lemma In_join (x : N) (sep : str) (ls : list str) :
  In x (join sep ls) -> In x sep \/ exists l, In l ls /\ In x l.
Proof.
  induction ls as [|p ls IH]; [intros []|].
  destruct ls as [|q ls].
  - simpl. intros H. right. exists p. auto.
  - change (join sep (p :: q :: ls)) with (p ++ sep ++ join sep (q :: ls)).
    intros H. apply in_app_or in H as [H|H]; [right; exists p; simpl; auto|].
    apply in_app_or in H as [H|H]; [auto|].
    apply IH in H as [H|(l & Hl & Hx)]; [auto|].
    right. exists l. split; [now right|assumption].
Qed.

Lemma In_split_on (x : N) (sep : N) (t : str) (l : str) :
  In l (split_on sep t) -> In x l -> In x t.
Proof.
  revert l. induction t as [|c t IH]; intros l; simpl.
  - intros [<-|[]] [].
  - destruct (c =? sep)%N.
    + intros [<-|H] Hx; [destruct Hx|]. right. eapply IH; eassumption.
    + destruct (split_on sep t) as [|l0 ls].
      * intros [<-|[]] [->|[]]. now left.
      * intros [<-|H] Hx.
        -- destruct Hx as [->|Hx]; [now left|]. right. apply (IH l0); [now left|assumption].
        -- right. apply (IH l); [now right|assumption].
Qed.

Lemma In_lines_rstrip (x : N) (t : str) :
  In x (strip (join [LF] (map rstrip (split_on LF t)))) -> x = LF \/ In x t.
Proof.
  intros H. apply In_strip, In_join in H as [[<-|[]]|(l & Hl & Hx)]; [now left|].
  apply in_map_iff in Hl as (l0 & <- & Hl0). right.
  apply In_rstrip in Hx. eapply In_split_on; eassumption.
Qed.

(** ** Normalisation *)

Lemma class_chars_space (chars : str) :
  Forall (fun c => is_space c = true) chars ->
  forall c, cls_mem (COneOf chars) c = true -> is_space c = true.
Proof.
  intros F c H. simpl in H. apply mem_N_In in H.
  rewrite Forall_forall in F. auto.
Qed.

(** Normalisation changes whitespace only: the other characters of the
    text come out as they went in, in the same order. *)
Theorem normalize_spaces_keeps_text (s : str) :
  no_space (normalize_spaces s) = no_space s.
Proof.
  unfold normalize_spaces, RE_TABS, RE_SPACES, RE_NEWLINES, Plus.
  rewrite no_space_strip, no_space_lines_rstrip.
  rewrite re_sub_crlf, re_sub_set, !re_sub_run by lia.
  rewrite scan_sub_no_space;
    [|apply step_run_space; intros c H; simpl in H; apply N.eqb_eq in H; now subst
     |repeat constructor].
  rewrite scan_sub_no_space;
    [|apply step_run_space, class_chars_space; repeat constructor|repeat constructor].
  rewrite scan_sub_no_space;
    [|apply step_set_space, class_chars_space; repeat constructor|repeat constructor].
  apply scan_sub_no_space; [apply step_crlf_space|repeat constructor].
Qed.

Lemma step_set_none (k : cls) (c : N) (s' : str) :
  step_set k (c :: s') = None -> cls_mem k c = false.
Proof. simpl. destruct (cls_mem k c); [discriminate|reflexivity]. Qed.

Lemma step_set_pos (k : cls) (s : str) (n : nat) : step_set k s = Some n -> 1 <= n.
Proof.
  destruct s as [|c s']; simpl; [discriminate|].
  destruct (cls_mem k c); [|discriminate]. intros H. inv H. lia.
Qed.

Lemma step_crlf_none (c : N) (s' : str) :
  step_crlf (c :: s') = None -> (c =? CR)%N = false.
Proof.
  simpl. destruct (c =? CR)%N; [|reflexivity].
  destruct s' as [|d s'']; [discriminate|]. destruct (d =? LF)%N; discriminate.
Qed.

Lemma step_crlf_pos (s : str) (n : nat) : step_crlf s = Some n -> 1 <= n.
Proof.
  destruct s as [|c s']; simpl; [discriminate|].
  destruct (c =? CR)%N; [|discriminate].
  destruct s' as [|d s'']; [intros H; inv H; lia|].
  destruct (d =? LF)%N; intros H; inv H; lia.
Qed.

Lemma normalize_spaces_chars (s : str) (c : N) :
  In c (normalize_spaces s) ->
  c <> CR /\ c <> TAB /\ c <> FF /\ c <> VT /\ c <> NBSP /\
  (In c s \/ c = LF \/ c = SP).
Proof.
  unfold normalize_spaces, RE_TABS, RE_SPACES, RE_NEWLINES, Plus.
  rewrite re_sub_crlf, re_sub_set, !re_sub_run by lia.
  set (t1 := scan_sub step_crlf [LF] (List.length s) s).
  set (t2 := scan_sub (step_set (COneOf [TAB; FF; VT])) [SP] (List.length t1) t1).
  set (t3 := scan_sub (step_run (COneOf [SP; NBSP]) 1) [SP] (List.length t2) t2).
  set (t4 := scan_sub (step_run (CChar LF) 3) [LF; LF] (List.length t3) t3).
  intros H.
  assert (H1 : forall x, In x t1 -> x = LF \/ (In x s /\ x <> CR)).
  { intros x Hx.
    apply (@scan_sub_removes step_crlf [LF] (fun c => (c =? CR)%N) x
             step_crlf_none step_crlf_pos) in Hx
      as [[<-|[]]|(Hx & E)]; [now left| |lia].
    right. split; [assumption|]. now apply N.eqb_neq. }
  assert (H2 : forall x, In x t2 ->
                 x = SP \/ (In x t1 /\ x <> TAB /\ x <> FF /\ x <> VT)).
  { intros x Hx.
    apply (@scan_sub_removes (step_set (COneOf [TAB; FF; VT])) [SP]
             (cls_mem (COneOf [TAB; FF; VT])) x
             (@step_set_none (COneOf [TAB; FF; VT])) (@step_set_pos (COneOf [TAB; FF; VT])))
      in Hx as [[<-|[]]|(Hx & E)]; [now left| |lia].
    right. split; [assumption|].
    simpl in E. rewrite !orb_false_iff in E. destruct E as (E1 & E2 & E3 & _).
    apply N.eqb_neq in E1, E2, E3. auto. }
  assert (H3 : forall x, In x t3 -> x = SP \/ (In x t2 /\ x <> NBSP)).
  { intros x Hx.
    apply (@scan_sub_removes (step_run (COneOf [SP; NBSP]) 1) [SP]
             (cls_mem (COneOf [SP; NBSP])) x
             (@step_run_none (COneOf [SP; NBSP]))
             (fun s0 n0 => @step_run_pos (COneOf [SP; NBSP]) 1 s0 n0 (le_n 1)))
      in Hx as [[<-|[]]|(Hx & E)]; [now left| |lia].
    right. split; [assumption|].
    simpl in E. rewrite !orb_false_iff in E. destruct E as (_ & E2 & _).
    now apply N.eqb_neq in E2. }
  assert (H4 : forall x, In x t4 -> x = LF \/ In x t3).
  { intros x Hx. apply scan_sub_In in Hx as [[<-|[<-|[]]]|Hx]; auto. }
  assert (K : c = LF \/ c = SP \/
              (In c s /\ c <> CR /\ c <> TAB /\ c <> FF /\ c <> VT /\ c <> NBSP)).
  { apply In_lines_rstrip in H as [->|H]; [now left|].
    apply H4 in H as [->|H]; [now left|].
    apply H3 in H as [->|(H & N3)]; [right; now left|].
    apply H2 in H as [->|(H & N21 & N22 & N23)]; [right; now left|].
    apply H1 in H as [->|(H & N1)]; [now left|].
    right. right. repeat split; assumption. }
  destruct K as [->|[->|(Hin & K)]].
  - repeat split; try discriminate. auto.
  - repeat split; try discriminate. auto.
  - destruct K as (K1 & K2 & K3 & K4 & K5). repeat split; auto.
Qed.

(** Normalisation leaves no carriage return, tab, form feed, vertical tab
    or no-break space in the text, and every character of its result is a
    character of the text, a newline or a space. *)
Theorem normalize_spaces_characters (s : str) (c : N) :
  In c (normalize_spaces s) ->
  c <> CR /\ c <> TAB /\ c <> FF /\ c <> VT /\ c <> NBSP /\
  (In c s \/ c = LF \/ c = SP).
Proof. apply normalize_spaces_chars. Qed.

Lemma normalize_spaces_characters_witness :
  In 97%N (normalize_spaces TEXT_BLANK_LINES) /\ 97%N <> NBSP.
Proof.
  assert (H : In 97%N (normalize_spaces TEXT_BLANK_LINES)) by (vm_compute; auto).
  split; [exact H|].
  exact (proj1 (proj2 (proj2 (proj2 (proj2
           (@normalize_spaces_characters TEXT_BLANK_LINES 97%N H)))))).
Defined.

(** ** Whitespace in answers and lines *)

Lemma re_sub_spaces_nil (s : str) : re_sub (Plus CSpace) [] s None = no_space s.
Proof.
  unfold Plus. rewrite re_sub_run by lia.
  set (t := scan_sub (step_run CSpace 1) [] (List.length s) s).
  assert (E : no_space t = no_space s).
  { apply scan_sub_no_space; [|constructor].
    apply step_run_space. intros c H. exact H. }
  rewrite <- E. symmetry. unfold no_space. apply filter_all.
  intros x Hx.
  apply (@scan_sub_removes (step_run CSpace 1) [] is_space x
           (@step_run_none CSpace)
           (fun s0 n0 => @step_run_pos CSpace 1 s0 n0 (le_n 1))) in Hx
    as [[]|(_ & Hx)]; [|lia].
  now rewrite Hx.
Qed.

(** A fill-in answer is compared with the standard answer character by
    character after all whitespace has been taken out of both: whitespace
    never matters, everything else does, the case of letters included. *)
Theorem fill_grading (casefold : str -> str) (q : question) (ui : entry) :
  options q = [] -> qtype q = qt_fill -> blank (answer q) = false ->
  snd (get_user_answer casefold q ui) =
    Some (str_eqb (no_space (text_answer ui)) (no_space (answer q))) /\
  (snd (get_user_answer casefold q ui) = Some true <->
   no_space (text_answer ui) = no_space (answer q)).
Proof.
  intros Ho Hq Hb. unfold get_user_answer. rewrite Ho, Hq.
  assert (Hn : nonempty (strip (answer q)) = true).
  { destruct (strip (answer q)) eqn:E; [|reflexivity].
    assert (A : all_space (answer q)).
    { apply no_space_nil_iff. now rewrite <- no_space_strip, E. }
    unfold blank in Hb. unfold all_space in A. rewrite Forall_forall in A.
    assert (forallb is_space (answer q) = true) by (apply forallb_forall; exact A).
    congruence. }
  rewrite Hn. cbn [negb snd]. rewrite !re_sub_spaces_nil, !no_space_strip.
  split; [reflexivity|]. split.
  - intros E. injection E as E. now apply str_eqb_eq.
  - intros E. f_equal. now apply str_eqb_eq.
Qed.

Lemma fill_grading_witness :
  blank (answer Q_FILL) = false /\
  snd (get_user_answer CASEFOLD_ID Q_FILL (Entry [] [] (utf8 " 北京
"))) = Some true.
Proof.
  assert (H : blank (answer Q_FILL) = false) by reflexivity.
  split; [exact H|].
  apply (proj2 (@fill_grading CASEFOLD_ID Q_FILL (Entry [] [] (utf8 " 北京
")) eq_refl eq_refl H)).
  vm_compute. reflexivity.
Defined.

Lemma blank_all_space (s : str) : blank s = true <-> all_space s.
Proof.
  unfold blank, all_space. rewrite forallb_forall, Forall_forall. tauto.
Qed.

Lemma not_blank_no_space (s : str) : blank s = false <-> no_space s <> [].
Proof.
  rewrite no_space_nil_iff, <- blank_all_space. destruct (blank s); split; congruence.
Qed.

Lemma clean_line_no_space (l : str) : no_space (clean_line l) = no_space l.
Proof.
  unfold clean_line, Plus. rewrite no_space_strip, re_sub_run by lia.
  apply scan_sub_no_space; [|repeat constructor].
  apply step_run_space. intros c H. exact H.
Qed.

Lemma clean_line_nil_iff (l : str) : clean_line l = [] <-> all_space l.
Proof.
  split; [|apply clean_line_all_space].
  intros H. apply no_space_nil_iff. now rewrite <- clean_line_no_space, H.
Qed.

Lemma concat_nil (A : Type) (ls : list (list A)) :
  Forall (fun l => l = []) ls -> concat ls = [].
Proof. induction 1 as [|l ls -> _ IH]; [reflexivity|exact IH]. Qed.

(** A text has no clean line exactly when it is blank. *)
Lemma clean_lines_nil_iff (s : str) : clean_lines s = [] <-> all_space s.
Proof.
  split; [|apply clean_lines_all_space].
  unfold clean_lines. intros H. apply no_space_nil_iff.
  rewrite <- no_space_split_LF. apply concat_nil, Forall_map, Forall_forall.
  intros l Hl. apply no_space_nil_iff, clean_line_nil_iff.
  destruct (clean_line l) as [|c r'] eqn:E; [reflexivity|].
  assert (Hin : In (clean_line l) (filter nonempty (map clean_line (split_on LF s)))).
  { apply filter_In. split; [now apply in_map|]. now rewrite E. }
  rewrite H in Hin. destruct Hin.
Qed.

Lemma norm_letters_strip (s : str) : norm_letters (strip s) = norm_letters s.
Proof. unfold norm_letters. now rewrite letters_strip. Qed.

Lemma infer_qtype_strip (sec : str) (opts : list option_) (ans : str) :
  infer_qtype sec opts (strip ans) = infer_qtype sec opts ans.
Proof. unfold infer_qtype. now rewrite norm_letters_strip. Qed.

(** ** One block, one record *)

Lemma parse_block_common_record (block_text : str) (number : N) (sec source_name : str) :
  blank block_text = false ->
  exists q,
    parse_block_common block_text number sec source_name = [q] /\
    source q = source_name /\ number_in_source q = number /\ section q = sec /\
    well_formed q.
Proof.
  intros Hb. unfold parse_block_common.
  destruct (clean_lines block_text) as [|line0 lines] eqn:E.
  { apply clean_lines_nil_iff, blank_all_space in E. congruence. }
  destruct (re_search SCORE_MARK _);
    destruct (stem_loop _ _) as [more i];
    destruct (options_loop _ _) as [opts j];
    destruct (parse_answer_from_lines _ _) as [ans next_idx];
    (eexists; split; [reflexivity|]; unfold well_formed;
     cbn [source number_in_source section stem answer analysis options qtype];
     rewrite !strip_idem, infer_qtype_strip; repeat split; reflexivity).
Qed.

(** A block with any character that is not whitespace gives exactly one
    record.  It carries the number, the section and the source handed in;
    its stem, answer and analysis are stripped, and its type is the one
    that [infer_qtype] gives for the section, the options and the answer it
    stores. *)
Theorem parse_block_common_one_record (block_text : str) (number : N)
    (sec source_name : str) :
  blank block_text = false ->
  exists q,
    parse_block_common block_text number sec source_name = [q] /\
    source q = source_name /\ number_in_source q = number /\ section q = sec /\
    well_formed q.
Proof. apply parse_block_common_record. Qed.

Lemma parse_block_common_one_record_witness :
  blank BLOCK_OPTIONS_ALONE = false /\
  exists q,
    parse_block_common BLOCK_OPTIONS_ALONE 1 S_SINGLE (utf8 "a.txt") = [q] /\
    source q = utf8 "a.txt" /\ number_in_source q = 1%N /\ section q = S_SINGLE /\
    well_formed q.
Proof.
  assert (H : blank BLOCK_OPTIONS_ALONE = false) by reflexivity.
  split; [exact H|].
  exact (@parse_block_common_one_record BLOCK_OPTIONS_ALONE 1 S_SINGLE (utf8 "a.txt") H).
Defined.

(** ** From the blocks to the records *)

Lemma blocks_of_span (n : nat) (ms : list mres) :
  forall lo,
    ascending lo ms ->
    Forall (fun m => m_start m < m_end m <= n) ms ->
    forall b, In b (blocks_of n ms) ->
      exists m, In m ms /\ b_start b = m_start m /\
                b_number b = int_of_digits (m_group 1 m) /\ m_end m <= b_end b.
Proof.
  induction ms as [|m ms IH]; intros lo A F b H; [destruct H|].
  cbn [blocks_of] in H. destruct A as (A1 & A2 & A3). inv F.
  destruct H as [<-|H].
  - exists m. split; [now left|]. unfold b_start, b_number, b_end. cbn [fst snd].
    split; [reflexivity|]. split; [reflexivity|].
    destruct ms as [|m' ms']; [lia|]. destruct A3 as (A3 & _). lia.
  - destruct (IH _ A3 ltac:(assumption) b H) as (m' & Hm & E).
    exists m'. split; [now right|exact E].
Qed.

Lemma firstn_app_ge (A : Type) (w post : list A) (k : nat) :
  List.length w <= k -> firstn k (w ++ post) = w ++ firstn (k - List.length w) post.
Proof.
  intros H. rewrite firstn_app, firstn_all2 by exact H. reflexivity.
Qed.

(** The text of a block holds the separator of its number. *)
Lemma segment_block_not_blank (text : str) (b : block) :
  In b (segment text) -> blank (strip (slice text (b_start b) (b_end b))) = false.
Proof.
  intros H. unfold segment in H.
  destruct (@blocks_of_span (List.length text) (finditer QSTART text) 0
              (finditer_ascending QSTART text) (finditer_QSTART_bounds text) b H)
    as (m & Hm & Hs & _ & He).
  apply finditer_In in Hm as (pre & w & post & Et & Ems & Eme & M & R & _).
  destruct (QSTART_shape M R) as (_ & ws & ds & sep & ws' & Ew & _ & _ & _ & _ & Hsep & _).
  apply not_blank_no_space. rewrite no_space_strip.
  unfold slice. rewrite Hs, Ems, Et, skipn_app, Nat.sub_diag, skipn_all. cbn [skipn app].
  rewrite firstn_app_ge by lia.
  rewrite Ew, !no_space_app.
  assert (E : no_space [sep] = [sep]).
  { unfold no_space. destruct Hsep as [->|(-> & _)]; reflexivity. }
  rewrite E. intros C.
  apply app_eq_nil in C as (C & _).
  apply app_eq_nil in C as (_ & C). apply app_eq_nil in C as (_ & C).
  apply app_eq_nil in C as (C & _). discriminate.
Qed.

Lemma infer_qtype_reading_plain (ans : str) : infer_qtype S_READING [] ans = qt_text.
Proof. reflexivity. Qed.

Lemma sub_record_well_formed (bw passage : str) (number : N) (source_name : str)
    (m : mres) (e : nat) :
  let q := sub_record bw passage number source_name m e in
  source q = source_name /\ number_in_source q = number /\ section q = S_READING /\
  well_formed q.
Proof.
  unfold sub_record, well_formed.
  destruct (parse_answer_from_lines (sub_lines bw m e) 0) as [ans next_idx].
  cbn [source number_in_source section stem answer analysis options qtype].
  rewrite !strip_idem. repeat split.
  unfold full_stem_of. destruct (nonempty passage); apply strip_idem.
Qed.

Lemma sub_records_fields (bw passage : str) (number : N) (source_name : str)
    (subs : list mres) :
  List.length (sub_records bw passage number source_name subs) = List.length subs /\
  Forall (fun q => source q = source_name /\ number_in_source q = number /\
                   section q = S_READING /\ well_formed q)
         (sub_records bw passage number source_name subs).
Proof.
  induction subs as [|m tl (IL & IF)]; [split; [reflexivity|constructor]|].
  cbn [sub_records List.length]. split; [now rewrite IL|].
  constructor; [apply sub_record_well_formed|exact IF].
Qed.

Lemma parse_block_records (text : str) (markers : list marker) (source_name : str)
    (b : block) :
  In b (segment text) ->
  1 <= List.length (parse_block text markers source_name b) /\
  (section_at markers (b_start b) <> S_READING ->
   List.length (parse_block text markers source_name b) = 1) /\
  Forall (fun q => source q = source_name /\ number_in_source q = b_number b /\
                   section q = section_at markers (b_start b) /\ well_formed q)
         (parse_block text markers source_name b).
Proof.
  intros H. pose proof (segment_block_not_blank text b H) as Hb.
  destruct b as [[s e] number]. unfold parse_block, b_start, b_end, b_number in *.
  cbn [fst snd] in *.
  destruct (str_eqb (section_at markers s) S_READING) eqn:E.
  - apply str_eqb_eq in E. rewrite E. unfold split_reading_block.
    destruct (finditer SUBQ_START (strip_number (strip (slice text s e)) number))
      as [|m0 subs] eqn:F.
    + destruct (@parse_block_common_record _ number S_READING source_name Hb)
        as (q & -> & Hq). split; [simpl; lia|]. split; [reflexivity|].
      constructor; [exact Hq|constructor].
    + destruct (sub_records_fields (strip_number (strip (slice text s e)) number)
                  (strip (firstn (m_start m0)
                            (strip_number (strip (slice text s e)) number)))
                  number source_name (m0 :: subs)) as (L & Fq).
      split; [rewrite L; simpl; lia|]. split; [contradiction|exact Fq].
  - destruct (@parse_block_common_record _ number (section_at markers s) source_name Hb)
      as (q & -> & Hq). split; [simpl; lia|]. split; [reflexivity|].
    constructor; [exact Hq|constructor].
Qed.

Lemma section_at_loop_In (markers : list marker) (p : nat) :
  forall cur,
    section_at_loop markers p cur = cur \/
    In (section_at_loop markers p cur) (map snd markers).
Proof.
  induction markers as [|[q name] tl IH]; intros cur; simpl; [now left|].
  destruct (Nat.leb q p); [|now left].
  destruct (IH name) as [E|H]; [right; left; now rewrite E|right; now right].
Qed.

Lemma build_section_markers_labels (text : str) (nm : str) :
  In nm (map snd (build_section_markers text)) -> In nm section_labels.
Proof.
  intros H. apply in_map_iff in H as ([p n] & <- & H).
  unfold build_section_markers in H. apply sort_markers_In, in_flat_map in H
    as (pn & Hpn & H).
  apply in_map_iff in H as (m & E & _). inv E. cbn [snd].
  unfold SECTION_PATTERNS in Hpn. simpl in Hpn.
  repeat (destruct Hpn as [<-|Hpn]; [simpl; tauto|]). destruct Hpn.
Qed.

Lemma section_at_label (text : str) (p : nat) :
  In (section_at (build_section_markers text) p) section_labels.
Proof.
  unfold section_at.
  destruct (section_at_loop_In (build_section_markers text) p S_UNKNOWN) as [->|H].
  - now left.
  - now apply (build_section_markers_labels text).
Qed.

(** Every record that [parse_questions] returns comes from a numbered
    block of the normalised text: it has the number of the block, the
    section in force where the block starts, which is one of the six
    section names or 未知, and the source name handed in.  Its texts are
    stripped and its type is the one [infer_qtype] gives for the fields it
    stores. *)
Theorem parse_questions_records (plain source_name : str) (q : question) :
  In q (parse_questions plain source_name) ->
  source q = source_name /\ In (section q) section_labels /\ well_formed q /\
  exists b,
    In b (segment (normalize_spaces plain)) /\ number_in_source q = b_number b /\
    section q = section_at (build_section_markers (normalize_spaces plain)) (b_start b).
Proof.
  unfold parse_questions. intros H. apply in_flat_map in H as (b & Hb & Hq).
  destruct (parse_block_records (normalize_spaces plain)
              (build_section_markers (normalize_spaces plain)) source_name b Hb)
    as (_ & _ & F).
  rewrite Forall_forall in F. destruct (F q Hq) as (E1 & E2 & E3 & W).
  split; [exact E1|]. split; [rewrite E3; apply section_at_label|].
  split; [exact W|]. exists b. auto.
Qed.

Lemma parse_questions_records_witness :
  exists q, In q (parse_questions DOC_TAGGED (utf8 "a.txt")) /\ source q = utf8 "a.txt".
Proof.
  destruct (parse_questions DOC_TAGGED (utf8 "a.txt")) as [|q rs] eqn:E.
  - vm_compute in E. discriminate.
  - exists q.
    assert (Hin : In q (parse_questions DOC_TAGGED (utf8 "a.txt")))
      by (rewrite E; now left).
    rewrite <- E. split; [exact Hin|].
    exact (proj1 (@parse_questions_records DOC_TAGGED (utf8 "a.txt") q Hin)).
Defined.

Lemma flat_map_length_ge (A B : Type) (f : A -> list B) (l : list A) :
  (forall x, In x l -> 1 <= List.length (f x)) ->
  List.length l <= List.length (flat_map f l).
Proof.
  induction l as [|x l IH]; intros H; simpl; [lia|].
  rewrite length_app. specialize (H x (or_introl eq_refl)) as Hx.
  assert (List.length l <= List.length (flat_map f l))
    by (apply IH; intros y Hy; apply H; now right).
  lia.
Qed.

Lemma flat_map_length_eq (A B : Type) (f : A -> list B) (l : list A) :
  (forall x, In x l -> List.length (f x) = 1) ->
  List.length (flat_map f l) = List.length l.
Proof.
  induction l as [|x l IH]; intros H; simpl; [reflexivity|].
  rewrite length_app, (H x (or_introl eq_refl)), IH; [reflexivity|].
  intros y Hy. apply H. now right.
Qed.

(** No numbered question is lost: [parse_questions] returns at least one
    record for every block of the segmentation, and exactly one for every
    block when no block stands in a reading-comprehension section. *)
Theorem parse_questions_count (plain source_name : str) :
  List.length (segment (normalize_spaces plain))
    <= List.length (parse_questions plain source_name) /\
  ((forall b, In b (segment (normalize_spaces plain)) ->
      section_at (build_section_markers (normalize_spaces plain)) (b_start b)
        <> S_READING) ->
   List.length (parse_questions plain source_name)
     = List.length (segment (normalize_spaces plain))).
Proof.
  unfold parse_questions. split.
  - apply flat_map_length_ge. intros b Hb.
    now apply parse_block_records.
  - intros Hr. apply flat_map_length_eq. intros b Hb.
    apply parse_block_records; auto.
Qed.

Lemma parse_questions_count_witness :
  List.length (parse_questions DOC_TAGGED (utf8 "a.txt"))
  = List.length (segment (normalize_spaces DOC_TAGGED)).
Proof.
  apply (proj2 (parse_questions_count DOC_TAGGED (utf8 "a.txt"))).
  intros b Hb.
  remember (segment (normalize_spaces DOC_TAGGED)) as bs eqn:E.
  remember (build_section_markers (normalize_spaces DOC_TAGGED)) as ms eqn:Em.
  vm_compute in E, Em. subst bs ms.
  repeat (destruct Hb as [<-|Hb]; [vm_compute; discriminate|]). destruct Hb.
Defined.

(** ** Options *)

Lemma OPT_SINGLE_group (st : mstate) (c : captures) (w : str) (c' : captures) :
  Matches OPT_SINGLE st c w c' ->
  exists x, c' = (1, [x]) :: c /\ (65 <= x <= 72)%N.
Proof.
  unfold OPT_SINGLE, C_LETTER. intros M. inv_matches.
  eexists. split; [reflexivity|].
  match goal with H : cls_mem (CRange _ _) _ = true |- _ => simpl in H; bool_to_prop end.
  lia.
Qed.

Lemma OPT_INLINE_groups (st : mstate) (c : captures) (w : str) (c' : captures) :
  Matches OPT_INLINE st c w c' ->
  exists x t, c' = (2, t) :: (1, [x]) :: c /\ (65 <= x <= 72)%N /\ t <> [].
Proof.
  unfold OPT_INLINE, C_LETTER, Star, Plus. intros M. inv_matches.
  do 2 eexists. split; [reflexivity|].
  match goal with H : cls_mem (CRange _ _) _ = true |- _ => simpl in H; bool_to_prop end.
  split; [lia|]. now apply length_pos_nonnil.
Qed.

Lemma re_match_OPT_SINGLE (l : str) (m : mres) :
  re_match OPT_SINGLE l = Some m -> exists x, m_group 1 m = [x] /\ (65 <= x <= 72)%N.
Proof.
  intros H. apply match_at_sound in H as (_ & w & M & _).
  apply OPT_SINGLE_group in M as (x & C & R).
  exists x. unfold m_group. rewrite C. simpl. auto.
Qed.

Lemma re_match_OPT_INLINE (l : str) (m : mres) :
  re_match OPT_INLINE l = Some m ->
  (exists x, m_group 1 m = [x] /\ (65 <= x <= 72)%N) /\ m_group 2 m <> [].
Proof.
  intros H. apply match_at_sound in H as (_ & w & M & _).
  apply OPT_INLINE_groups in M as (x & t & C & R & T).
  unfold m_group. rewrite C. simpl. split; [exists x; auto|assumption].
Qed.

Lemma options_loop_ok (n : nat) :
  forall rem i,
    List.length rem <= n -> Forall (fun l => l <> []) rem ->
    Forall option_ok (fst (options_loop rem i)).
Proof.
  induction n as [|n IH]; intros rem i L F.
  - destruct rem; [constructor|simpl in L; lia].
  - destruct rem as [|l tl]; [constructor|]. simpl in L. inv F.
    cbn [options_loop].
    destruct (is_match ANS_MARK l); [constructor|].
    destruct (re_match OPT_SINGLE l) as [m1|] eqn:E1.
    + destruct tl as [|l2 tl2]; [apply IH; [simpl; lia|constructor]|].
      destruct (negb (is_match ANS_MARK l2)).
      * match goal with H : Forall _ (l2 :: tl2) |- _ => inv H end.
        specialize (IH tl2 (S (S i))).
        destruct (options_loop tl2 (S (S i))) as [os j]. cbn [fst] in *.
        constructor; [|apply IH; [simpl in L; lia|assumption]].
        split; [exact (re_match_OPT_SINGLE _ E1)|assumption].
      * apply IH; [simpl in L |- *; lia|assumption].
    + destruct (re_match OPT_INLINE l) as [m2|] eqn:E2.
      * specialize (IH tl (S i)).
        destruct (options_loop tl (S i)) as [os j]. cbn [fst] in *.
        constructor; [|apply IH; [lia|assumption]].
        exact (re_match_OPT_INLINE _ E2).
      * apply IH; [lia|assumption].
Qed.

Lemma Forall_skipn (A : Type) (P : A -> Prop) (l : list A) :
  forall n, Forall P l -> Forall P (skipn n l).
Proof.
  induction l as [|x l IH]; intros [|n] F; simpl; auto. inv F. auto.
Qed.

Lemma clean_lines_nonempty (s : str) : Forall (fun l => l <> []) (clean_lines s).
Proof.
  unfold clean_lines. apply Forall_forall. intros l H.
  apply filter_In in H as (_ & H). now destruct l.
Qed.

Lemma parse_block_common_options (block_text : str) (number : N) (sec source_name : str) :
  Forall (fun q => Forall option_ok (options q))
         (parse_block_common block_text number sec source_name).
Proof.
  unfold parse_block_common.
  pose proof (clean_lines_nonempty block_text) as F.
  destruct (clean_lines block_text) as [|line0 lines]; [constructor|].
  destruct (re_search SCORE_MARK _);
    destruct (stem_loop _ _) as [more i];
    (pose proof (@options_loop_ok (List.length (skipn i (line0 :: lines)))
                   (skipn i (line0 :: lines)) i (le_n _) (Forall_skipn i F)) as O;
     destruct (options_loop _ _) as [opts j];
     destruct (parse_answer_from_lines _ _) as [ans next_idx];
     constructor; [exact O|constructor]).
Qed.

(** Every option of every record has one of the letters A..H as its key
    and a text that is not empty. *)
Theorem parse_questions_options (plain source_name : str) (q : question) (o : option_) :
  In q (parse_questions plain source_name) -> In o (options q) -> option_ok o.
Proof.
  unfold parse_questions. intros H Ho. apply in_flat_map in H as ([[s e] number] & _ & Hq).
  unfold parse_block in Hq.
  assert (F : Forall option_ok (options q)); [|rewrite Forall_forall in F; auto].
  set (block := strip (slice (normalize_spaces plain) s e)) in *.
  assert (C : forall sec, In q (parse_block_common block number sec source_name) ->
                          Forall option_ok (options q)).
  { intros sec Hin. pose proof (parse_block_common_options block number sec source_name) as P.
    rewrite Forall_forall in P. auto. }
  destruct (str_eqb _ S_READING); [|eapply C; eassumption].
  unfold split_reading_block in Hq.
  destruct (finditer SUBQ_START (strip_number block number)) as [|m0 subs];
    [eapply C; eassumption|].
  rewrite sub_records_map in Hq. apply in_map_iff in Hq as (me & <- & _).
  rewrite sub_record_eq. constructor.
Qed.

Lemma parse_questions_options_witness :
  exists q o,
    In q (parse_questions BLOCK_OPTIONS_ALONE (utf8 "a.txt")) /\ In o (options q) /\
    option_ok o.
Proof.
  destruct (parse_questions BLOCK_OPTIONS_ALONE (utf8 "a.txt")) as [|q rs] eqn:E.
  - vm_compute in E. discriminate.
  - assert (Hin : In q (parse_questions BLOCK_OPTIONS_ALONE (utf8 "a.txt")))
      by (rewrite E; now left).
    destruct (options q) as [|o os] eqn:Eo.
    + vm_compute in E. injection E as E _. subst q. discriminate.
    + exists q, o. rewrite <- E.
      assert (Ho : In o (options q)) by (rewrite Eo; now left).
      split; [exact Hin|]. split; [exact Ho|].
      exact (@parse_questions_options BLOCK_OPTIONS_ALONE (utf8 "a.txt") q o Hin Ho).
Defined.

(** ** The layout of a normalised text *)

Lemma split_on_cons (sep c : N) (t : str) :
  split_on sep (c :: t) =
  if (c =? sep)%N then [] :: split_on sep t
  else match split_on sep t with
       | [] => [[c]]
       | l :: ls => (c :: l) :: ls
       end.
Proof. reflexivity. Qed.

Lemma split_on_nonnil (sep : N) (t : str) : split_on sep t <> [].
Proof.
  destruct t as [|c t]; simpl; [discriminate|].
  destruct (c =? sep)%N; [discriminate|]. destruct (split_on sep t); discriminate.
Qed.

Lemma split_on_no_sep (sep : N) (t l : str) : In l (split_on sep t) -> ~ In sep l.
Proof.
  revert l. induction t as [|c t IH]; intros l; simpl.
  - intros [<-|[]] [].
  - destruct (c =? sep)%N eqn:E.
    + intros [<-|H]; [intros []|now apply IH].
    + apply N.eqb_neq in E. destruct (split_on sep t) as [|l0 ls].
      * intros [<-|[]] [H|[]]. congruence.
      * intros [<-|H].
        -- intros [H|H]; [congruence|]. apply (IH l0); [now left|assumption].
        -- apply IH. now right.
Qed.

Lemma split_on_line (sep : N) (p : str) : ~ In sep p -> split_on sep p = [p].
Proof.
  induction p as [|c p IH]; intros H; simpl; [reflexivity|].
  assert (E : (c =? sep)%N = false) by (apply N.eqb_neq; intros ->; apply H; now left).
  rewrite E, IH; [reflexivity|]. intros Hin. apply H. now right.
Qed.

Lemma split_on_app_sep (sep : N) (p rest : str) :
  ~ In sep p -> split_on sep (p ++ sep :: rest) = p :: split_on sep rest.
Proof.
  induction p as [|c p IH]; intros H; simpl.
  - now rewrite N.eqb_refl.
  - assert (E : (c =? sep)%N = false) by (apply N.eqb_neq; intros ->; apply H; now left).
    rewrite E, IH; [reflexivity|]. intros Hin. apply H. now right.
Qed.

Lemma split_on_join (ls : list str) :
  ls <> [] -> Forall (fun l => ~ In LF l) ls -> split_on LF (join [LF] ls) = ls.
Proof.
  induction ls as [|p ls IH]; intros Hn F; [contradiction|]. inv F.
  destruct ls as [|q ls]; [now apply split_on_line|].
  change (join [LF] (p :: q :: ls)) with (p ++ LF :: join [LF] (q :: ls)).
  rewrite split_on_app_sep by assumption. f_equal. apply IH; [discriminate|assumption].
Qed.

Lemma join_split_on (t : str) : join [LF] (split_on LF t) = t.
Proof.
  induction t as [|c t IH]; [reflexivity|]. cbn [split_on].
  pose proof (split_on_nonnil LF t) as Hn.
  destruct (c =? LF)%N eqn:E.
  - apply N.eqb_eq in E. subst c.
    destruct (split_on LF t) as [|l ls]; [contradiction|].
    change (join [LF] ([] :: l :: ls)) with ([] ++ [LF] ++ join [LF] (l :: ls)).
    now rewrite IH.
  - destruct (split_on LF t) as [|l ls]; [contradiction|].
    destruct ls as [|l2 ls]; simpl in *; now rewrite <- IH.
Qed.

Lemma rstrip_prefix (l : str) : exists w, l = rstrip l ++ w.
Proof.
  induction l as [|c l (w & IH)]; [now exists []|]. rewrite rstrip_cons.
  destruct (rstrip l) as [|d r'].
  - destruct (is_space c); [now exists (c :: l)|]. exists l. reflexivity.
  - exists w. change ((c :: d :: r') ++ w) with (c :: (d :: r') ++ w). now rewrite <- IH.
Qed.

Lemma lstrip_suffix (l : str) : exists w, l = w ++ lstrip l.
Proof.
  induction l as [|c l (w & IH)]; [now exists []|]. simpl.
  destruct (is_space c); [|now exists []]. exists (c :: w). simpl. now rewrite <- IH.
Qed.

(** Lines that do not end in whitespace. *)
Lemma rstrip_tail_fixed (c : N) (l : str) : rstrip (c :: l) = c :: l -> rstrip l = l.
Proof.
  rewrite rstrip_cons. destruct (rstrip l) as [|d r'] eqn:E.
  - destruct (is_space c); [discriminate|]. intros H. now inv H.
  - intros H. now inv H.
Qed.

Lemma lines_fixed_tail (c : N) (t : str) :
  Forall (fun l => rstrip l = l) (split_on LF (c :: t)) ->
  Forall (fun l => rstrip l = l) (split_on LF t).
Proof.
  cbn [split_on]. pose proof (split_on_nonnil LF t) as Hn.
  destruct (c =? LF)%N; [intros H; now inv H|].
  destruct (split_on LF t) as [|l ls]; [contradiction|].
  intros H. inv H. constructor; [|assumption]. eapply rstrip_tail_fixed; eassumption.
Qed.

Lemma lines_fixed_lstrip (t : str) :
  Forall (fun l => rstrip l = l) (split_on LF t) ->
  Forall (fun l => rstrip l = l) (split_on LF (lstrip t)).
Proof.
  induction t as [|c t IH]; intros H; [exact H|]. cbn [lstrip].
  destruct (is_space c); [|exact H]. apply IH. eapply lines_fixed_tail; eassumption.
Qed.

Lemma lines_fixed_cons (c : N) (t : str) :
  is_space c = false ->
  Forall (fun l => rstrip l = l) (split_on LF t) ->
  Forall (fun l => rstrip l = l) (split_on LF (c :: t)).
Proof.
  intros Hc H. cbn [split_on].
  assert (E : (c =? LF)%N = false).
  { apply N.eqb_neq. intros ->. discriminate. }
  rewrite E. destruct (split_on LF t) as [|l ls]; [repeat constructor; simpl; now rewrite Hc|].
  inv H. constructor; [|assumption].
  rewrite rstrip_cons.
  match goal with H : rstrip l = l |- _ => rewrite H end.
  destruct l; [now rewrite Hc|reflexivity].
Qed.

Lemma lines_fixed_newline (t : str) :
  Forall (fun l => rstrip l = l) (split_on LF t) ->
  Forall (fun l => rstrip l = l) (split_on LF (LF :: t)).
Proof. intros H. cbn [split_on]. rewrite N.eqb_refl. constructor; [reflexivity|exact H]. Qed.

Lemma lines_fixed_rstrip (t : str) :
  Forall (fun l => rstrip l = l) (split_on LF t) ->
  Forall (fun l => rstrip l = l) (split_on LF (rstrip t)).
Proof.
  induction t as [|c t IH]; intros H; [exact H|].
  pose proof (lines_fixed_tail _ _ H) as Ht. specialize (IH Ht).
  rewrite rstrip_cons. destruct (rstrip t) as [|d r'] eqn:E.
  - destruct (is_space c) eqn:Ec; [repeat constructor|].
    apply lines_fixed_cons; [assumption|repeat constructor].
  - destruct (c =? LF)%N eqn:El.
    + apply N.eqb_eq in El. subst c. now apply lines_fixed_newline.
    + destruct (is_space c) eqn:Ec; [|now apply lines_fixed_cons].
      (* a space inside a line: the line goes on after it *)
      rewrite split_on_cons, El.
      rewrite split_on_cons, El in H.
      pose proof (split_on_nonnil LF t) as Hn.
      destruct (split_on LF t) as [|l ls] eqn:Es; [contradiction|].
      inv H.
      pose proof (split_on_nonnil LF (d :: r')) as Hn2.
      destruct (split_on LF (d :: r')) as [|l' ls'] eqn:Es2; [contradiction|].
      inv IH. constructor; [|assumption].
      rewrite rstrip_cons.
      match goal with H : rstrip l' = l' |- _ => rewrite H end.
      destruct l' as [|x l'']; [|reflexivity].
      (* the rest starts with a newline, so did [t]: the line was [c] alone *)
      exfalso.
      assert (Hd : d = LF).
      { rewrite split_on_cons in Es2. destruct (d =? LF)%N eqn:Ed; [now apply N.eqb_eq|].
        destruct (split_on LF r'); discriminate. }
      subst d. destruct (rstrip_prefix t) as (w & Ew). rewrite E in Ew.
      rewrite Ew in Es. cbn [app] in Es. rewrite split_on_cons, N.eqb_refl in Es.
      inv Es.
      match goal with H : rstrip [c] = [c] |- _ => simpl in H; rewrite Ec in H end.
      discriminate.
Qed.

Lemma lines_fixed_strip (t : str) :
  Forall (fun l => rstrip l = l) (split_on LF t) ->
  Forall (fun l => rstrip l = l) (split_on LF (strip t)).
Proof. intros H. unfold strip. now apply lines_fixed_rstrip, lines_fixed_lstrip. Qed.

Lemma rstrip_no_LF (l : str) : ~ In LF l -> ~ In LF (rstrip l).
Proof. intros H Hin. apply H. now apply In_rstrip. Qed.

Lemma lines_rstrip_fixed (t : str) :
  Forall (fun l => rstrip l = l)
         (split_on LF (join [LF] (map rstrip (split_on LF t)))).
Proof.
  rewrite split_on_join.
  - apply Forall_map, Forall_forall. intros l _. apply rstrip_idem.
  - pose proof (split_on_nonnil LF t). destruct (split_on LF t); [contradiction|discriminate].
  - apply Forall_map, Forall_forall. intros l Hl.
    apply rstrip_no_LF. eapply split_on_no_sep; eassumption.
Qed.

(** *** No two spaces in a row *)

Lemma doubled_cons (c a : N) (t : str) :
  doubled c (a :: t) =
  match t with b :: _ => (a =? c)%N && (b =? c)%N | [] => false end || doubled c t.
Proof. reflexivity. Qed.

Lemma doubled_app_false (c : N) (a b : str) :
  doubled c (a ++ b) = false -> doubled c a = false /\ doubled c b = false.
Proof.
  induction a as [|x a IH]; [auto|].
  change ((x :: a) ++ b) with (x :: a ++ b). rewrite !doubled_cons.
  intros H. apply orb_false_iff in H as (H1 & H2). destruct (IH H2) as (Ia & Ib).
  split; [|assumption]. rewrite Ia, orb_false_r.
  destruct a as [|y a]; [reflexivity|exact H1].
Qed.

Lemma doubled_app_sep (c x : N) (p rest : str) :
  x <> c -> doubled c (p ++ x :: rest) = doubled c p || doubled c rest.
Proof.
  intros Hx. apply N.eqb_neq in Hx.
  induction p as [|a p IH].
  - cbn [app]. rewrite doubled_cons, Hx. simpl. now destruct rest.
  - change ((a :: p) ++ x :: rest) with (a :: p ++ x :: rest).
    rewrite !doubled_cons, IH.
    destruct p as [|b p]; cbn [app]; [rewrite Hx, andb_false_r; reflexivity|].
    now rewrite orb_assoc.
Qed.

Lemma doubled_join (c : N) (ls : list str) :
  c <> LF -> Forall (fun l => doubled c l = false) ls -> doubled c (join [LF] ls) = false.
Proof.
  intros Hc. induction 1 as [|p ls Hp _ IH]; [reflexivity|].
  destruct ls as [|q ls]; [exact Hp|].
  change (join [LF] (p :: q :: ls)) with (p ++ LF :: join [LF] (q :: ls)).
  rewrite doubled_app_sep by congruence. now rewrite Hp, IH.
Qed.

Lemma doubled_join_lines (c : N) (ls : list str) :
  doubled c (join [LF] ls) = false -> Forall (fun l => doubled c l = false) ls.
Proof.
  induction ls as [|p ls IH]; intros H; [constructor|].
  destruct ls as [|q ls]; [repeat constructor; exact H|].
  change (join [LF] (p :: q :: ls)) with (p ++ LF :: join [LF] (q :: ls)) in H.
  apply doubled_app_false in H as (Hp & H).
  constructor; [exact Hp|]. apply IH.
  change (LF :: join [LF] (q :: ls)) with ([LF] ++ join [LF] (q :: ls)) in H.
  now apply doubled_app_false in H.
Qed.

Lemma doubled_rstrip (c : N) (l : str) : doubled c l = false -> doubled c (rstrip l) = false.
Proof.
  intros H. destruct (rstrip_prefix l) as (w & E). rewrite E in H.
  now apply doubled_app_false in H.
Qed.

Lemma doubled_lstrip (c : N) (l : str) : doubled c l = false -> doubled c (lstrip l) = false.
Proof.
  intros H. destruct (lstrip_suffix l) as (w & E). rewrite E in H.
  now apply doubled_app_false in H.
Qed.

Lemma doubled_lines_rstrip (c : N) (t : str) :
  c <> LF -> doubled c t = false ->
  doubled c (strip (join [LF] (map rstrip (split_on LF t)))) = false.
Proof.
  intros Hc H. unfold strip. apply doubled_rstrip, doubled_lstrip, doubled_join; [exact Hc|].
  apply Forall_map. rewrite <- (join_split_on t) in H. apply doubled_join_lines in H.
  eapply Forall_impl; [|exact H]. intros l. apply doubled_rstrip.
Qed.

Lemma doubled_skipn (c : N) (n : nat) (s : str) :
  doubled c s = false -> doubled c (skipn n s) = false.
Proof.
  intros H. rewrite <- (firstn_skipn n s) in H. now apply doubled_app_false in H.
Qed.

Lemma run_len_stop (k : cls) (s : str) :
  match skipn (run_len k s) s with
  | c :: _ => cls_mem k c = false
  | [] => True
  end.
Proof.
  induction s as [|c s IH]; simpl; [exact I|].
  destruct (cls_mem k c) eqn:E; simpl; [exact IH|exact E].
Qed.

(** After the runs of spaces have been replaced, no two spaces are left
    side by side. *)
Lemma scan_spaces_no_double (k : cls) (fuel : nat) :
  cls_mem k SP = true ->
  forall s,
    List.length s <= fuel ->
    doubled SP (scan_sub (step_run k 1) [SP] fuel s) = false /\
    (forall o', scan_sub (step_run k 1) [SP] fuel s = SP :: o' ->
                exists c s', s = c :: s' /\ cls_mem k c = true).
Proof.
  intros Hk. induction fuel as [|fuel IH]; intros s L.
  - destruct s; [split; [reflexivity|discriminate]|simpl in L; lia].
  - destruct s as [|c s']; [split; [reflexivity|discriminate]|].
    cbn [scan_sub].
    destruct (cls_mem k c) eqn:E.
    + assert (Es : step_run k 1 (c :: s')
                   = Some (S (run_len k s')))
        by (unfold step_run; cbn [run_len]; rewrite E; reflexivity).
      rewrite Es. cbn [skipn app].
      assert (L' : List.length (skipn (run_len k s') s') <= fuel).
      { rewrite length_skipn. simpl in L. lia. }
      destruct (IH _ L') as (D & Hd).
      split; [|intros o' _; now exists c, s'].
      rewrite doubled_cons, D, orb_false_r.
      destruct (scan_sub _ _ fuel (skipn (run_len k s') s'))
        as [|b o''] eqn:Eo; [reflexivity|].
      destruct (b =? SP)%N eqn:Eb; [|now rewrite andb_false_r].
      apply N.eqb_eq in Eb. subst b.
      destruct (Hd o'' eq_refl) as (c2 & s2 & Esk & Hc2).
      pose proof (run_len_stop k s') as Hs. rewrite Esk in Hs.
      congruence.
    + assert (Es : step_run k 1 (c :: s') = None)
        by (unfold step_run; cbn [run_len]; rewrite E; reflexivity).
      rewrite Es.
      assert (L' : List.length s' <= fuel) by (simpl in L; lia).
      destruct (IH _ L') as (D & Hd).
      assert (Hc : (c =? SP)%N = false).
      { destruct (c =? SP)%N eqn:Ec; [|reflexivity]. apply N.eqb_eq in Ec. subst c.
        congruence. }
      split.
      * rewrite doubled_cons, D, orb_false_r, Hc.
        now destruct (scan_sub _ _ fuel s').
      * intros o' Ho. inv Ho. discriminate.
Qed.

(** Cutting the runs of newlines brings no two spaces together. *)
Lemma scan_newlines_no_double (fuel : nat) :
  forall s,
    doubled SP s = false ->
    doubled SP (scan_sub (step_run (CChar LF) 3) [LF; LF] fuel s) = false /\
    (forall o', scan_sub (step_run (CChar LF) 3) [LF; LF] fuel s = SP :: o' ->
                exists s', s = SP :: s').
Proof.
  induction fuel as [|fuel IH]; intros s D.
  - simpl. split; [exact D|]. intros o' ->. now exists o'.
  - destruct s as [|c s']; [split; [reflexivity|discriminate]|].
    cbn [scan_sub].
    destruct (step_run (CChar LF) 3 (c :: s')) as [n|] eqn:E.
    + destruct (IH _ (@doubled_skipn SP n (c :: s') D)) as (D' & _).
      split; [|discriminate].
      cbn [app]. rewrite !doubled_cons, D', orb_false_r.
      change (LF =? SP)%N with false. cbn [andb orb].
      now destruct (scan_sub _ _ fuel (skipn n (c :: s'))).
    + pose proof D as D0. rewrite doubled_cons in D0.
      apply orb_false_iff in D0 as (D1 & D2).
      destruct (IH _ D2) as (D' & Hd).
      split; [|intros o' Ho; inv Ho; now exists s'].
      rewrite doubled_cons, D', orb_false_r.
      destruct (scan_sub _ _ fuel s') as [|b o''] eqn:Eo; [reflexivity|].
      destruct (b =? SP)%N eqn:Eb; [|now rewrite andb_false_r].
      apply N.eqb_eq in Eb. subst b.
      destruct (Hd o'' eq_refl) as (s2 & ->).
      rewrite N.eqb_refl, andb_true_r in D1. now rewrite D1.
Qed.

Lemma normalize_spaces_no_double (s : str) : doubled SP (normalize_spaces s) = false.
Proof.
  unfold normalize_spaces, RE_TABS, RE_SPACES, RE_NEWLINES, Plus.
  rewrite re_sub_crlf, re_sub_set, !re_sub_run by lia.
  apply doubled_lines_rstrip; [discriminate|].
  apply scan_newlines_no_double. apply scan_spaces_no_double; [reflexivity|lia].
Qed.

Lemma normalize_spaces_lines (s : str) :
  Forall (fun l => rstrip l = l) (split_on LF (normalize_spaces s)).
Proof. unfold normalize_spaces. apply lines_fixed_strip, lines_rstrip_fixed. Qed.

(** The layout of a normalised text: it neither starts nor ends with
    whitespace, none of its lines ends with whitespace, and it holds no two
    spaces in a row. *)
Theorem normalize_spaces_layout (s : str) :
  strip (normalize_spaces s) = normalize_spaces s /\
  Forall (fun l => rstrip l = l) (split_on LF (normalize_spaces s)) /\
  doubled SP (normalize_spaces s) = false.
Proof.
  split; [unfold normalize_spaces; apply strip_idem|].
  split; [apply normalize_spaces_lines|apply normalize_spaces_no_double].
Qed.

(** ** Normalising twice *)

Lemma scan_sub_id (step : str -> option nat) (repl : str) (Q : str -> Prop) :
  (forall c u, Q (c :: u) -> Q u) ->
  (forall u n, Q u -> step u = Some n -> firstn n u = repl) ->
  forall fuel s, Q s -> scan_sub step repl fuel s = s.
Proof.
  intros Qt Qs.
  assert (Qk : forall n u, Q u -> Q (skipn n u)).
  { induction n as [|n IH]; intros u Hu; [exact Hu|].
    destruct u as [|c u]; [exact Hu|]. apply IH. eapply Qt; eassumption. }
  induction fuel as [|fuel IH]; intros s Hs; [reflexivity|].
  destruct s as [|c s']; [reflexivity|]. cbn [scan_sub].
  destruct (step (c :: s')) as [n|] eqn:E.
  - rewrite IH by (apply Qk; exact Hs). rewrite <- (Qs _ _ Hs E). apply firstn_skipn.
  - f_equal. apply IH. eapply Qt; eassumption.
Qed.

Lemma has_triple_LF_cons (a : N) (t : str) :
  has_triple_LF (a :: t) =
  match t with
  | b :: c :: _ => (a =? LF)%N && (b =? LF)%N && (c =? LF)%N
  | _ => false
  end || has_triple_LF t.
Proof. reflexivity. Qed.

Lemma run_len_three (u : str) :
  3 <= run_len (CChar LF) u -> exists u', u = LF :: LF :: LF :: u'.
Proof.
  destruct u as [|a [|b [|c u']]]; simpl;
    repeat match goal with
           | |- context [(?x =? LF)%N] =>
               let E := fresh "E" in destruct (x =? LF)%N eqn:E;
               [apply N.eqb_eq in E; subst x|]
           end; simpl; try lia.
  intros _. now exists u'.
Qed.

Lemma step_newlines_triple (u : str) (n : nat) :
  step_run (CChar LF) 3 u = Some n -> 3 <= n /\ exists u', u = LF :: LF :: LF :: u'.
Proof.
  unfold step_run. destruct (Nat.leb 3 (run_len (CChar LF) u)) eqn:L; [|discriminate].
  apply Nat.leb_le in L. intros E. inv E. split; [exact L|now apply run_len_three].
Qed.

Lemma step_newlines_head (u : str) :
  step_run (CChar LF) 3 (LF :: LF :: LF :: u) <> None.
Proof. unfold step_run. simpl. discriminate. Qed.

(** A text that normalisation has produced goes through the first three
    replacements and the trimming of a second pass unchanged. *)
Lemma renormalize_steps (t : str) :
  (forall c, In c t -> c <> CR /\ c <> TAB /\ c <> FF /\ c <> VT /\ c <> NBSP) ->
  doubled SP t = false ->
  re_sub RE_SPACES [SP] (re_sub RE_TABS [SP] (re_sub RE_CRLF [LF] t None) None) None = t.
Proof.
  intros Hc Hd. unfold RE_TABS, RE_SPACES, Plus.
  assert (E1 : re_sub RE_CRLF [LF] t None = t).
  { rewrite re_sub_crlf.
    apply (@scan_sub_id step_crlf [LF] (fun u => ~ In CR u)).
    - intros c u H Hin. apply H. now right.
    - intros u n H E. exfalso. destruct u as [|c u']; [discriminate|].
      simpl in E. destruct (c =? CR)%N eqn:Ec; [|discriminate].
      apply N.eqb_eq in Ec. subst c. apply H. now left.
    - intros Hin. now apply Hc in Hin as (H & _). }
  rewrite E1.
  assert (E2 : re_sub (Set_ (COneOf [TAB; FF; VT])) [SP] t None = t).
  { rewrite re_sub_set.
    apply (@scan_sub_id (step_set (COneOf [TAB; FF; VT])) [SP]
             (fun u => forall c, In c u -> c <> TAB /\ c <> FF /\ c <> VT)).
    - intros c u H x Hx. apply H. now right.
    - intros u n H E. exfalso. destruct u as [|c u']; [discriminate|].
      simpl in E. destruct (H c (or_introl eq_refl)) as (N1 & N2 & N3).
      apply N.eqb_neq in N1, N2, N3. now rewrite N1, N2, N3 in E.
    - intros c Hin. apply Hc in Hin. tauto. }
  rewrite E2. rewrite re_sub_run by lia.
  apply (@scan_sub_id (step_run (COneOf [SP; NBSP]) 1) [SP]
           (fun u => ~ In NBSP u /\ doubled SP u = false)).
  - intros c u (H1 & H2). split; [intros Hin; apply H1; now right|].
    rewrite doubled_cons in H2. now apply orb_false_iff in H2.
  - intros u n (H1 & H2) E. destruct u as [|c u']; [discriminate|].
    unfold step_run in E. cbn [run_len] in E.
    destruct (cls_mem (COneOf [SP; NBSP]) c) eqn:Ec; [|discriminate].
    cbn [Nat.leb] in E. inv E.
    assert (c = SP).
    { simpl in Ec. rewrite orb_false_r in Ec. apply orb_true_iff in Ec as [Ec|Ec];
        apply N.eqb_eq in Ec; [assumption|]. subst c. exfalso. apply H1. now left. }
    subst c.
    assert (R0 : run_len (COneOf [SP; NBSP]) u' = 0).
    { destruct u' as [|b u'']; [reflexivity|]. cbn [run_len].
      destruct (cls_mem (COneOf [SP; NBSP]) b) eqn:Eb; [|reflexivity]. exfalso.
      simpl in Eb. rewrite orb_false_r in Eb. apply orb_true_iff in Eb as [Eb|Eb];
        apply N.eqb_eq in Eb; subst b.
      - rewrite doubled_cons in H2. simpl in H2. discriminate.
      - apply H1. right. now left. }
    rewrite R0. reflexivity.
  - split; [intros Hin; now apply Hc in Hin as (_ & _ & _ & _ & H)|exact Hd].
Qed.

Lemma trim_lines_fixed (t : str) :
  strip t = t -> Forall (fun l => rstrip l = l) (split_on LF t) ->
  strip (join [LF] (map rstrip (split_on LF t))) = t.
Proof.
  intros Hs Hl.
  replace (map rstrip (split_on LF t)) with (split_on LF t).
  - now rewrite join_split_on.
  - rewrite <- (map_id (split_on LF t)) at 1. apply map_ext_in.
    rewrite Forall_forall in Hl. intros l Hin. symmetry. now apply Hl.
Qed.

Lemma length_rstrip (l : str) : List.length (rstrip l) <= List.length l.
Proof.
  destruct (rstrip_prefix l) as (w & E). rewrite E at 2. rewrite length_app. lia.
Qed.

Lemma length_lstrip (l : str) : List.length (lstrip l) <= List.length l.
Proof.
  destruct (lstrip_suffix l) as (w & E). rewrite E at 2. rewrite length_app. lia.
Qed.

Lemma length_strip (l : str) : List.length (strip l) <= List.length l.
Proof.
  unfold strip. pose proof (length_rstrip (lstrip l)). pose proof (length_lstrip l). lia.
Qed.

Lemma length_join_rstrip (ls : list str) :
  List.length (join [LF] (map rstrip ls)) <= List.length (join [LF] ls).
Proof.
  induction ls as [|p ls IH]; [simpl; lia|].
  destruct ls as [|q ls]; [apply length_rstrip|].
  change (join [LF] (map rstrip (p :: q :: ls)))
    with (rstrip p ++ [LF] ++ join [LF] (map rstrip (q :: ls))).
  change (join [LF] (p :: q :: ls)) with (p ++ [LF] ++ join [LF] (q :: ls)).
  rewrite !length_app. pose proof (length_rstrip p). simpl in *. lia.
Qed.

Lemma length_trim_lines (t : str) :
  List.length (strip (join [LF] (map rstrip (split_on LF t)))) <= List.length t.
Proof.
  pose proof (length_strip (join [LF] (map rstrip (split_on LF t)))).
  pose proof (length_join_rstrip (split_on LF t)) as H2.
  rewrite join_split_on in H2. lia.
Qed.

Lemma scan_newlines_length (fuel : nat) :
  forall s,
    List.length s <= fuel ->
    List.length (scan_sub (step_run (CChar LF) 3) [LF; LF] fuel s) <= List.length s /\
    (has_triple_LF s = true ->
     List.length (scan_sub (step_run (CChar LF) 3) [LF; LF] fuel s) < List.length s).
Proof.
  induction fuel as [|fuel IH]; intros s L.
  - destruct s; [split; [simpl; lia|discriminate]|simpl in L; lia].
  - destruct s as [|c s']; [split; [simpl; lia|discriminate]|].
    cbn [scan_sub].
    destruct (step_run (CChar LF) 3 (c :: s')) as [n|] eqn:E.
    + destruct (step_newlines_triple _ E) as (N3 & _).
      assert (Hn : n <= List.length (c :: s')).
      { unfold step_run in E. destruct (Nat.leb 3 _); [|discriminate]. inv E.
        exact (run_len_le (CChar LF) (c :: s')). }
      assert (L' : List.length (skipn n (c :: s')) <= fuel).
      { rewrite length_skipn.
        change (List.length (c :: s')) with (S (List.length s')) in *. lia. }
      destruct (IH _ L') as (I1 & _). rewrite length_skipn in I1.
      rewrite length_app.
      change (List.length [LF; LF]) with 2.
      change (List.length (c :: s')) with (S (List.length s')) in *.
      split; [lia|intros _; lia].
    + assert (L' : List.length s' <= fuel) by (simpl in L; lia).
      destruct (IH _ L') as (I1 & I2).
      change (List.length (c :: ?x)) with (S (List.length x)).
      cbn [List.length].
      split; [lia|]. intros H. rewrite has_triple_LF_cons in H.
      apply orb_true_iff in H as [H|H]; [|specialize (I2 H); lia].
      exfalso. destruct s' as [|b [|d s'']]; try discriminate.
      apply andb_true_iff in H as (H & H3). apply andb_true_iff in H as (H1 & H2).
      apply N.eqb_eq in H1, H2, H3. subst.
      exact (@step_newlines_head s'' E).
Qed.

(** Normalising a normalised text again changes it exactly when it holds
    three newlines in a row.  (Such a run appears when the blank lines
    between two paragraphs held spaces: the newlines are counted before the
    lines are trimmed.) *)
Theorem normalize_spaces_twice (s : str) :
  normalize_spaces (normalize_spaces s) = normalize_spaces s <->
  has_triple_LF (normalize_spaces s) = false.
Proof.
  set (t := normalize_spaces s).
  assert (Hc : forall c, In c t -> c <> CR /\ c <> TAB /\ c <> FF /\ c <> VT /\ c <> NBSP).
  { intros c Hin. apply normalize_spaces_chars in Hin. tauto. }
  assert (E3 : re_sub RE_SPACES [SP] (re_sub RE_TABS [SP] (re_sub RE_CRLF [LF] t None) None)
                      None = t)
    by (apply renormalize_steps; [exact Hc|apply normalize_spaces_no_double]).
  assert (En : normalize_spaces t =
               strip (join [LF] (map rstrip (split_on LF
                 (scan_sub (step_run (CChar LF) 3) [LF; LF] (List.length t) t))))).
  { unfold normalize_spaces at 1. rewrite E3. unfold RE_NEWLINES.
    now rewrite re_sub_run by lia. }
  split.
  - intros H. destruct (has_triple_LF t) eqn:T; [|reflexivity]. exfalso.
    destruct (@scan_newlines_length (List.length t) t (le_n _)) as (_ & I).
    specialize (I T).
    pose proof (length_trim_lines
                  (scan_sub (step_run (CChar LF) 3) [LF; LF] (List.length t) t)) as L.
    rewrite <- En, H in L. lia.
  - intros T. rewrite En.
    rewrite (@scan_sub_id (step_run (CChar LF) 3) [LF; LF]
               (fun u => has_triple_LF u = false)).
    + apply trim_lines_fixed; [unfold t, normalize_spaces; apply strip_idem|].
      apply normalize_spaces_lines.
    + intros c u H. rewrite has_triple_LF_cons in H. now apply orb_false_iff in H.
    + intros u n H E. exfalso. destruct (step_newlines_triple _ E) as (_ & u' & ->).
      rewrite has_triple_LF_cons in H. simpl in H. discriminate.
    + exact T.
Qed.

Lemma normalize_spaces_twice_witness :
  has_triple_LF (normalize_spaces DOC_TAGGED) = false /\
  normalize_spaces (normalize_spaces DOC_TAGGED) = normalize_spaces DOC_TAGGED.
Proof.
  assert (H : has_triple_LF (normalize_spaces DOC_TAGGED) = false)
    by (vm_compute; reflexivity).
  split; [exact H|].
  exact (proj2 (normalize_spaces_twice DOC_TAGGED) H).
Defined.

(** ** Finding the answer *)

Lemma skip_blank_bounds (rem : list str) :
  forall j, j <= skip_blank rem j <= j + List.length rem.
Proof.
  induction rem as [|l tl IH]; intros j; simpl; [lia|].
  destruct (nonempty (strip l)); [lia|]. specialize (IH (S j)). lia.
Qed.

Lemma answer_loop_spec (lines : list str) :
  forall rem i,
    i + List.length rem = List.length lines ->
    strip (fst (answer_loop lines rem i)) = fst (answer_loop lines rem i) /\
    i <= snd (answer_loop lines rem i) <= S (List.length lines) /\
    (existsb (is_match ANS_MARK) rem = false ->
     answer_loop lines rem i = ([], List.length lines)) /\
    (existsb (is_match ANS_MARK) rem = true -> i < snd (answer_loop lines rem i)).
Proof.
  induction rem as [|l tl IH]; intros i L.
  - simpl in *. split; [reflexivity|]. split; [lia|]. split; [reflexivity|discriminate].
  - cbn [answer_loop existsb]. simpl in L.
    destruct (is_match ANS_MARK l) eqn:M.
    + pose proof (skip_blank_bounds tl (S i)) as B.
      assert (Hnext : forall r : str * nat,
                 r = (match nth_error lines (skip_blank tl (S i)) with
                      | Some x => strip x
                      | None => []
                      end, S (skip_blank tl (S i))) ->
                 strip (fst r) = fst r /\ i <= snd r <= S (List.length lines) /\
                 (true || existsb (is_match ANS_MARK) tl = false ->
                  r = ([], List.length lines)) /\
                 (true || existsb (is_match ANS_MARK) tl = true -> i < snd r)).
      { intros r ->. cbn [fst snd]. split.
        - destruct (nth_error lines _); [apply strip_idem|reflexivity].
        - split; [lia|]. split; [discriminate|intros _; lia]. }
      destruct (split_colon l) as [|p0 [|p1 [|p2 ps]]]; try (apply Hnext; reflexivity).
      destruct (nonempty (strip p1)); [|apply Hnext; reflexivity].
      cbn [fst snd]. split; [apply strip_idem|].
      split; [lia|]. split; [discriminate|intros _; lia].
    + cbn [orb]. destruct (IH (S i)) as (I1 & I2 & I3 & I4); [lia|].
      split; [exact I1|]. split; [lia|]. split; [exact I3|].
      intros H. specialize (I4 H). lia.
Qed.

(** [parse_answer_from_lines] returns a stripped answer and the index where
    the search for the analysis goes on.  Without an answer marker on a
    line from [start_idx] on, the answer is empty and the index is the
    number of lines; with one, the index lies after [start_idx] and is at
    most one more than the number of lines (a marker on the last line with
    nothing after its colon). *)
Theorem parse_answer_from_lines_result (lines : list str) (start_idx : nat) :
  start_idx <= List.length lines ->
  strip (fst (parse_answer_from_lines lines start_idx))
    = fst (parse_answer_from_lines lines start_idx) /\
  start_idx <= snd (parse_answer_from_lines lines start_idx) <= S (List.length lines) /\
  (existsb (is_match ANS_MARK) (skipn start_idx lines) = false ->
   parse_answer_from_lines lines start_idx = ([], List.length lines)) /\
  (existsb (is_match ANS_MARK) (skipn start_idx lines) = true ->
   start_idx < snd (parse_answer_from_lines lines start_idx)).
Proof.
  intros H. unfold parse_answer_from_lines. apply answer_loop_spec.
  rewrite length_skipn. lia.
Qed.

Lemma parse_answer_from_lines_result_witness :
  1 <= List.length [utf8 "题目"; utf8 "答案："] /\
  snd (parse_answer_from_lines [utf8 "题目"; utf8 "答案："] 1) = 3.
Proof.
  assert (H : 1 <= List.length [utf8 "题目"; utf8 "答案："]) by (simpl; lia).
  split; [exact H|].
  pose proof (@parse_answer_from_lines_result [utf8 "题目"; utf8 "答案："] 1 H)
    as (_ & (_ & B) & _ & A).
  assert (E : existsb (is_match ANS_MARK) (skipn 1 [utf8 "题目"; utf8 "答案："]) = true)
    by (vm_compute; reflexivity).
  specialize (A E). vm_compute. reflexivity.
Defined.

(** ** What a stored row keeps *)

Lemma qtype_str_inj (k1 k2 : qkind) : qtype_str k1 = qtype_str k2 -> k1 = k2.
Proof. destruct k1, k2; intros H; try reflexivity; vm_compute in H; discriminate. Qed.

(** Storing loses nothing: the columns that [upsert_questions] writes for
    a question determine all of its fields, the option list included, which
    is stored as one JSON text. *)
Theorem stored_row_determines_question (sha1_hexdigest : list N -> str)
    (r : question_row) (q1 q2 : question) :
  stores sha1_hexdigest r q1 -> stores sha1_hexdigest r q2 -> q1 = q2.
Proof.
  intros (_ & A1 & A2 & A3 & A4 & A5 & A6 & A7 & A8 & A9)
         (_ & B1 & B2 & B3 & B4 & B5 & B6 & B7 & B8 & B9).
  destruct q1 as [s1 n1 sec1 k1 st1 o1 a1 an1 sc1], q2 as [s2 n2 sec2 k2 st2 o2 a2 an2 sc2].
  simpl in *.
  assert (k1 = k2) by (apply qtype_str_inj; congruence).
  assert (o1 = o2).
  { assert (E : json_options o1 ++ [] = json_options o2 ++ [])
      by (rewrite !app_nil_r; congruence).
    now apply json_options_inj in E. }
  f_equal; congruence.
Qed.

Lemma stored_row_determines_question_witness :
  stores SHA_ID ROW_SAMPLE Q_SAMPLE /\
  Q_SAMPLE = Question (utf8 "a.docx") 7 S_SINGLE qt_multi (utf8 "下列哪些是颜色")
               (options Q_SAMPLE) (utf8 "AB") (utf8 "略") (Some (Qmake 2 1)).
Proof.
  assert (H : stores SHA_ID ROW_SAMPLE Q_SAMPLE)
    by (unfold stores; repeat split; reflexivity).
  split; [exact H|].
  exact (@stored_row_determines_question SHA_ID ROW_SAMPLE Q_SAMPLE _ H H).
Defined.

(** ** Reading option lines back *)

Lemma option_line_not_answer (x : N) (t : str) :
  (65 <= x <= 72)%N -> is_match ANS_MARK (x :: t) = false.
Proof.
  intros Hx.
  assert (N : forall c, (100 < c)%N -> (c =? x)%N = false)
    by (intros c Hc; apply N.eqb_neq; lia).
  unfold is_match, re_match, match_at, ANS_MARK, start_state, S_ANS1, S_ANS2, S_ANS3.
  cbn [rmatch at_bol prev pos rest lit_match].
  rewrite !N by lia. reflexivity.
Qed.

Lemma option_line_not_single (x sep c : N) (t : str) :
  is_space c = false -> re_match OPT_SINGLE (x :: sep :: c :: t) = None.
Proof.
  intros Hc.
  assert (E : (c =? LF)%N = false).
  { apply N.eqb_neq. intros ->. discriminate. }
  unfold re_match, match_at, OPT_SINGLE, start_state.
  cbn [rmatch at_bol prev pos rest advance].
  destruct (cls_mem C_LETTER x); [|reflexivity].
  cbn [rmatch at_bol prev pos rest advance].
  destruct (cls_mem (COneOf OPT_SEPS) sep); [|reflexivity].
  cbn [rmatch at_eol prev pos rest advance]. now rewrite E.
Qed.

Lemma option_line_inline (x sep c : N) (t : str) :
  (65 <= x <= 72)%N -> In sep OPT_SEPS -> is_space c = false -> ~ In LF (c :: t) ->
  exists m,
    re_match OPT_INLINE (x :: sep :: c :: t) = Some m /\
    m_group 1 m = [x] /\ m_group 2 m = c :: t.
Proof.
  intros Hx Hsep Hc Hlf.
  assert (Ex : cls_mem C_LETTER x = true).
  { simpl. apply andb_true_iff. split; apply N.leb_le; lia. }
  assert (Es : cls_mem (COneOf OPT_SEPS) sep = true)
    by (cbn [cls_mem]; now apply mem_N_In).
  assert (Fa : Forall (fun y => cls_mem CAny y = true) (c :: t)).
  { apply Forall_forall. intros y Hy. simpl. apply negb_true_iff, N.eqb_neq.
    intros ->. contradiction. }
  eexists. split.
  - unfold re_match, match_at, OPT_INLINE, Star, Plus, start_state.
    cbn [rmatch at_bol prev pos rest advance]. rewrite Ex.
    cbn [rmatch at_bol prev pos rest advance]. rewrite Es.
    cbn [rmatch at_bol prev pos rest advance].
    rewrite (@rep_greedy_stop _ CSpace None _ _ c (c :: t)) by auto.
    cbn [rmatch at_bol prev pos rest advance].
    apply rep_greedy_all; [exact Fa|simpl; lia|].
    cbn [rmatch at_eol prev pos rest]. reflexivity.
  - unfold m_group. cbn [m_caps group Nat.eqb pos rest]. split; [reflexivity|].
    replace (2 + List.length (c :: t) - 2) with (List.length (c :: t)) by lia.
    apply firstn_all.
Qed.

Lemma options_loop_lines (sep : N) (os : list option_) (rest_lines : list str) :
  In sep OPT_SEPS -> Forall option_plain os ->
  forall i,
    options_loop (map (option_line sep) os ++ rest_lines) i =
    (os ++ fst (options_loop rest_lines (i + List.length os)),
     snd (options_loop rest_lines (i + List.length os))).
Proof.
  intros Hsep. induction 1 as [|o os Ho _ IH]; intros i.
  - simpl. rewrite Nat.add_0_r. now destruct (options_loop rest_lines i).
  - destruct Ho as ((x & Ek & Hx) & (c & t & Et & Hc) & Hlf).
    destruct o as [k txt]. simpl in Ek, Et, Hlf. subst k txt.
    cbn [map app]. unfold option_line at 1. cbn [opt_key opt_text app].
    cbn [options_loop].
    rewrite (@option_line_not_answer x _ Hx), (@option_line_not_single x sep c t Hc).
    destruct (@option_line_inline x sep c t Hx Hsep Hc Hlf) as (m & -> & G1 & G2).
    rewrite IH, G1, G2. cbn [List.length].
    replace (S i + List.length os) with (i + S (List.length os)) by lia.
    reflexivity.
Qed.

(** Option lines read back as written: for options with a letter A..H as
    key and a one-line text that does not start with whitespace, written
    one per line as key, separator (、 . or a closing parenthesis) and text,
    the option loop returns these options in their order and goes on with
    the lines after them. *)
Theorem options_loop_round_trip (sep : N) (os : list option_) (rest_lines : list str)
    (i : nat) :
  In sep OPT_SEPS -> Forall option_plain os ->
  options_loop (map (option_line sep) os ++ rest_lines) i =
    (os ++ fst (options_loop rest_lines (i + List.length os)),
     snd (options_loop rest_lines (i + List.length os))) /\
  options_loop (map (option_line sep) os) i = (os, i + List.length os).
Proof.
  intros Hsep Ho. split; [now apply options_loop_lines|].
  rewrite <- (app_nil_r (map (option_line sep) os)).
  rewrite (@options_loop_lines sep os [] Hsep Ho). simpl. now rewrite app_nil_r.
Qed.

Lemma options_loop_round_trip_witness :
  In C_DUNHAO OPT_SEPS /\ Forall option_plain OPTIONS_ABCD /\
  options_loop (map (option_line C_DUNHAO) OPTIONS_ABCD) 1 = (OPTIONS_ABCD, 1 + 4).
Proof.
  assert (H1 : In C_DUNHAO OPT_SEPS) by (vm_compute; auto).
  assert (H2 : Forall option_plain OPTIONS_ABCD).
  { unfold OPTIONS_ABCD.
    repeat (apply Forall_cons;
            [unfold option_plain; cbn [opt_key opt_text];
             split; [eexists; split; [vm_compute; reflexivity|lia]|];
             split; [do 2 eexists; split; [vm_compute; reflexivity|reflexivity]|];
             intros H; vm_compute in H; intuition discriminate|]).
    apply Forall_nil. }
  split; [exact H1|]. split; [exact H2|].
  exact (proj2 (@options_loop_round_trip C_DUNHAO OPTIONS_ABCD [] 1 H1 H2)).
Defined.

(** ** Cleaned lines *)

Lemma clean_line_clean (l : str) : clean_line l <> [] -> clean (clean_line l).
Proof.
  intros Hn. unfold clean. split; [exact Hn|].
  split; [unfold clean_line; apply strip_idem|].
  unfold clean_line, Plus in *. rewrite re_sub_run in * by lia.
  set (t := scan_sub (step_run CSpace 1) [SP] (List.length l) l) in *.
  split.
  - unfold strip. apply doubled_rstrip, doubled_lstrip.
    apply scan_spaces_no_double; [reflexivity|lia].
  - intros c Hin Hs. apply In_strip in Hin.
    apply (@scan_sub_removes (step_run CSpace 1) [SP] is_space c
             (@step_run_none CSpace)
             (fun s0 n0 => @step_run_pos CSpace 1 s0 n0 (le_n 1))) in Hin
      as [[<-|[]]|(_ & Hc)]; [reflexivity|congruence|lia].
Qed.

Lemma concat_filter_nonempty (ls : list str) :
  concat (filter nonempty ls) = concat ls.
Proof.
  induction ls as [|l ls IH]; [reflexivity|]. simpl.
  destruct l as [|c l]; simpl; [exact IH|]. now rewrite IH.
Qed.

Lemma map_filter_nonempty_no_space (ls : list str) :
  concat (map no_space (filter nonempty ls)) = concat (map no_space ls).
Proof.
  induction ls as [|l ls IH]; [reflexivity|]. simpl.
  destruct l as [|c l]; simpl; [exact IH|]. now rewrite IH.
Qed.

(** The cleaned lines of a text are not empty, do not start or end with
    whitespace and hold single spaces as their only whitespace; together
    they hold the characters of the text that are not whitespace, in their
    order; and there is none exactly when the text is blank. *)
Theorem clean_lines_shape (s : str) :
  Forall clean (clean_lines s) /\
  concat (map no_space (clean_lines s)) = no_space s /\
  (clean_lines s = [] <-> blank s = true).
Proof.
  split; [|split].
  - unfold clean_lines. apply Forall_forall. intros l Hl.
    apply filter_In in Hl as (Hl & Hn). apply in_map_iff in Hl as (l0 & <- & _).
    apply clean_line_clean. now destruct (clean_line l0).
  - unfold clean_lines. rewrite map_filter_nonempty_no_space, map_map.
    rewrite <- no_space_split_LF. f_equal. apply map_ext. apply clean_line_no_space.
  - rewrite clean_lines_nil_iff. symmetry. apply blank_all_space.
Qed.

Lemma clean_lines_shape_witness :
  blank [SP; LF; 9%N; SP] = true /\ clean_lines [SP; LF; 9%N; SP] = [].
Proof.
  assert (B : blank [SP; LF; 9%N; SP] = true) by (vm_compute; reflexivity).
  split; [exact B|].
  exact (proj2 (proj2 (proj2 (clean_lines_shape [SP; LF; 9%N; SP]))) B).
Defined.

(** ** The bytes that are hashed *)

Lemma cons_eq_inv (A : Type) (a b : A) (l m : list A) :
  a :: l = b :: m -> a = b /\ l = m.
Proof. intros H. now inversion H. Qed.

Ltac cons_eqs :=
  repeat match goal with
         | H : _ :: _ = _ :: _ |- _ =>
             apply cons_eq_inv in H; let H1 := fresh "Hb" in destruct H as [H1 H]
         end.

Ltac div_facts c :=
  pose proof (N.div_mod c 64 ltac:(lia));
  pose proof (N.mod_lt c 64 ltac:(lia));
  pose proof (N.div_mod (c / 64) 64 ltac:(lia));
  pose proof (N.mod_lt (c / 64) 64 ltac:(lia));
  pose proof (N.div_mod (c / 64 / 64) 64 ltac:(lia));
  pose proof (N.mod_lt (c / 64 / 64) 64 ltac:(lia)).

(** The encoding of a scalar value can be told from what follows it. *)
Lemma utf8_encode_char_inj (c1 c2 : N) (r1 r2 : list N) :
  scalar c1 -> scalar c2 ->
  utf8_encode_char c1 ++ r1 = utf8_encode_char c2 ++ r2 -> c1 = c2 /\ r1 = r2.
Proof.
  intros (V1 & S1) (V2 & S2). unfold utf8_encode_char.
  unfold is_surrogate in S1, S2. rewrite S1, S2.
  replace (c1 / 4096)%N with (c1 / 64 / 64)%N by (now rewrite N.Div0.div_div).
  replace (c2 / 4096)%N with (c2 / 64 / 64)%N by (now rewrite N.Div0.div_div).
  replace (c1 / 262144)%N with (c1 / 64 / 64 / 64)%N by (now rewrite !N.Div0.div_div).
  replace (c2 / 262144)%N with (c2 / 64 / 64 / 64)%N by (now rewrite !N.Div0.div_div).
  div_facts c1. div_facts c2.
  destruct (c1 <? 128)%N eqn:A1; destruct (c2 <? 128)%N eqn:A2;
    destruct (c1 <? 2048)%N eqn:B1; destruct (c2 <? 2048)%N eqn:B2;
    destruct (c1 <? 65536)%N eqn:C1; destruct (c2 <? 65536)%N eqn:C2;
    rewrite ?N.ltb_lt, ?N.ltb_ge in *;
    try lia;
    cbn [app]; intros E; cons_eqs; (split; [lia|first [assumption|exfalso; lia]]).
Qed.

Lemma utf8_encode_char_nonempty (c : N) : scalar c -> utf8_encode_char c <> [].
Proof.
  intros (_ & S). unfold utf8_encode_char. unfold is_surrogate in S. rewrite S.
  destruct (c <? 128)%N; [discriminate|]. destruct (c <? 2048)%N; [discriminate|].
  destruct (c <? 65536)%N; discriminate.
Qed.

Lemma utf8_encode_inj (s1 : str) :
  forall s2,
    Forall scalar s1 -> Forall scalar s2 -> utf8_encode s1 = utf8_encode s2 -> s1 = s2.
Proof.
  unfold utf8_encode.
  induction s1 as [|c1 s1 IH]; intros [|c2 s2] F1 F2 E; simpl in E.
  - reflexivity.
  - inv F2. symmetry in E. apply app_eq_nil in E as (E & _).
    now apply utf8_encode_char_nonempty in E.
  - inv F1. apply app_eq_nil in E as (E & _).
    now apply utf8_encode_char_nonempty in E.
  - inv F1. inv F2.
    apply utf8_encode_char_inj in E as (-> & E); [|assumption|assumption].
    f_equal. now apply IH.
Qed.

Lemma surrogate_no_bytes (c : N) : is_surrogate c = true -> utf8_encode_char c = [].
Proof.
  intros S. unfold utf8_encode_char. unfold is_surrogate in S. rewrite S.
  apply andb_true_iff in S as (S1 & S2). apply N.leb_le in S1, S2.
  assert (E1 : (c <? 128)%N = false) by (apply N.ltb_ge; lia).
  assert (E2 : (c <? 2048)%N = false) by (apply N.ltb_ge; lia).
  assert (E3 : (c <? 65536)%N = true) by (apply N.ltb_lt; lia).
  now rewrite E1, E2, E3.
Qed.

Lemma utf8_encode_drops_surrogates (s : str) :
  utf8_encode s = utf8_encode (filter (fun c => negb (is_surrogate c)) s).
Proof.
  unfold utf8_encode. induction s as [|c s IH]; [reflexivity|]. simpl.
  destruct (is_surrogate c) eqn:S; simpl; [|now rewrite IH].
  now rewrite (surrogate_no_bytes c S).
Qed.

Lemma scalar_small (c : N) : (c < 55296)%N -> scalar c.
Proof.
  intros H. split; [lia|]. unfold is_surrogate.
  assert (E : (55296 <=? c)%N = false) by (apply N.leb_gt; lia). now rewrite E.
Qed.

Lemma hex_digit_small (n : N) : (n < 16)%N -> (hex_digit n < 128)%N.
Proof. intros H. unfold hex_digit. destruct (n <? 10)%N; lia. Qed.

Lemma json_escape_scalar (c : N) : scalar c -> Forall scalar (json_escape c).
Proof.
  intros Hc. unfold json_escape.
  repeat match goal with
         | |- context [if ?b then _ else _] => destruct b eqn:?
         end;
    repeat apply Forall_cons; try apply Forall_nil;
    try assumption; try (apply scalar_small; lia).
  all: apply scalar_small.
  all: match goal with H : (_ <? 32)%N = true |- _ => apply N.ltb_lt in H end.
  all: match goal with
       | |- (hex_digit ?n < _)%N =>
           assert (Hn : (n < 16)%N)
             by first [apply N.mod_lt; lia | apply N.Div0.div_lt_upper_bound; lia];
           pose proof (hex_digit_small Hn); lia
       end.
Qed.

Lemma json_str_scalar (s : str) : Forall scalar s -> Forall scalar (json_str s).
Proof.
  intros F. unfold json_str. constructor; [apply scalar_small; lia|].
  apply Forall_app. split; [|repeat constructor; apply scalar_small; lia].
  apply Forall_flat_map. eapply Forall_impl; [|exact F]. apply json_escape_scalar.
Qed.

Lemma literal_scalar (s : str) :
  forallb (fun c => (c <? 55296)%N) s = true -> Forall scalar s.
Proof.
  intros H. apply Forall_forall. intros c Hc.
  rewrite forallb_forall in H. apply scalar_small, N.ltb_lt. auto.
Qed.

Lemma json_option_scalar (o : option_) :
  Forall scalar (opt_key o) -> Forall scalar (opt_text o) -> Forall scalar (json_option o).
Proof.
  intros Hk Ht. unfold json_option.
  repeat first [apply json_str_scalar; assumption
               |apply json_str_scalar, literal_scalar; reflexivity
               |apply literal_scalar; reflexivity
               |apply Forall_app; split].
Qed.

Lemma join_scalar (sep : str) (ls : list str) :
  Forall scalar sep -> Forall (Forall scalar) ls -> Forall scalar (join sep ls).
Proof.
  intros Hs. induction 1 as [|p ls Hp Hl IH]; [constructor|].
  destruct ls as [|q ls]; [exact Hp|].
  change (join sep (p :: q :: ls)) with (p ++ sep ++ join sep (q :: ls)).
  apply Forall_app. split; [exact Hp|]. apply Forall_app. split; [exact Hs|exact IH].
Qed.

Lemma json_options_scalar (os : list option_) :
  Forall (fun o => Forall scalar (opt_key o) /\ Forall scalar (opt_text o)) os ->
  Forall scalar (json_options os).
Proof.
  intros F. unfold json_options.
  apply Forall_app. split; [apply literal_scalar; reflexivity|].
  apply Forall_app. split; [|apply literal_scalar; reflexivity].
  apply join_scalar; [apply literal_scalar; reflexivity|].
  apply Forall_map. eapply Forall_impl; [|exact F].
  intros o (Hk & Ht). now apply json_option_scalar.
Qed.

Lemma hash_base_scalar (q : question) : hashed_text_scalar q -> Forall scalar (hash_base q).
Proof.
  intros (Hs & Ha & Hc & Ho). unfold hash_base.
  repeat first [apply json_str_scalar; assumption
               |apply json_options_scalar; assumption
               |apply json_str_scalar, literal_scalar; reflexivity
               |apply literal_scalar; reflexivity
               |apply Forall_app; split].
Qed.

(** The bytes handed to SHA-1 tell the questions apart: for questions whose
    stem, options, answer and section hold no lone surrogate, equal bytes
    mean equal stem, options, answer and section, so two such questions
    share a hash only when these four are the same or SHA-1 itself
    collides.  Lone surrogates are left out of the bytes. *)
Theorem hashed_bytes_determine_content :
  (forall q1 q2 : question,
      hashed_text_scalar q1 -> hashed_text_scalar q2 ->
      utf8_encode (hash_base q1) = utf8_encode (hash_base q2) -> same_content q1 q2) /\
  (forall s : str,
      utf8_encode s = utf8_encode (filter (fun c => negb (is_surrogate c)) s)) /\
  (forall s1 s2 : str,
      Forall scalar s1 -> Forall scalar s2 -> utf8_encode s1 = utf8_encode s2 -> s1 = s2).
Proof.
  split; [|split].
  - intros q1 q2 H1 H2 E. apply hash_base_inj.
    apply utf8_encode_inj; [now apply hash_base_scalar|now apply hash_base_scalar|exact E].
  - apply utf8_encode_drops_surrogates.
  - intros s1 s2. apply utf8_encode_inj.
Qed.

Lemma hashed_bytes_determine_content_witness :
  hashed_text_scalar Q_SAMPLE /\ hashed_text_scalar Q_SAMPLE_AGAIN /\
  utf8_encode (hash_base Q_SAMPLE) = utf8_encode (hash_base Q_SAMPLE_AGAIN) /\
  same_content Q_SAMPLE Q_SAMPLE_AGAIN.
Proof.
  assert (H1 : hashed_text_scalar Q_SAMPLE).
  { unfold hashed_text_scalar. cbn [stem answer section options Q_SAMPLE].
    split; [apply literal_scalar; reflexivity|].
    split; [apply literal_scalar; reflexivity|].
    split; [apply literal_scalar; reflexivity|].
    repeat (apply Forall_cons; [split; apply literal_scalar; reflexivity|]).
    apply Forall_nil. }
  assert (H2 : hashed_text_scalar Q_SAMPLE_AGAIN).
  { unfold hashed_text_scalar. cbn [stem answer section options Q_SAMPLE_AGAIN].
    split; [apply literal_scalar; reflexivity|].
    split; [apply literal_scalar; reflexivity|].
    split; [apply literal_scalar; reflexivity|].
    repeat (apply Forall_cons; [split; apply literal_scalar; reflexivity|]).
    apply Forall_nil. }
  assert (E : utf8_encode (hash_base Q_SAMPLE) = utf8_encode (hash_base Q_SAMPLE_AGAIN))
    by (vm_compute; reflexivity).
  split; [exact H1|]. split; [exact H2|]. split; [exact E|].
  exact (proj1 hashed_bytes_determine_content Q_SAMPLE Q_SAMPLE_AGAIN H1 H2 E).
Defined.

(** ** Wrong answers enter the wrongbook *)

Lemma add_to_wrongbook_present (c c' : conn) (ts : str) (qid : N) :
  (qid < 2 ^ 63)%N -> add_to_wrongbook c ts qid = inr c' ->
  exists w,
    find_wrong c' qid = Some w /\ last_ts w = ts /\
    (find_wrong c qid = None -> streak_correct w = 0%Z /\ added_ts w = ts) /\
    (forall w0, find_wrong c qid = Some w0 ->
                streak_correct w = streak_correct w0 /\ added_ts w = added_ts w0).
Proof.
  intros Hq E. pose proof (add_to_wrongbook_cases c ts Hq) as A.
  destruct (find_wrong c qid) as [w0|] eqn:F.
  - destruct A as (c2 & E2 & F1 & _). rewrite E2 in E. inv E.
    eexists. split; [exact F1|]. simpl. split; [reflexivity|].
    split; [discriminate|]. intros w1 E1. inv E1. auto.
  - destruct (has_question c qid).
    + destruct A as (c2 & E2 & F1 & _). rewrite E2 in E. inv E.
      eexists. split; [exact F1|]. simpl. split; [reflexivity|].
      split; [auto|discriminate].
    + congruence.
Qed.

(** In normal mode an answer graded wrong, or marked wrong by hand, puts
    the question into the wrongbook: after it the question has a row there
    with the time of this answer as its last time; the row is new, with
    streak 0, when the question was not in the wrongbook, and keeps its
    streak and its time of entry when it was. *)
Theorem wrong_answer_enters_wrongbook (c c' : conn) (ts1 ts2 : str) (qid : N) (ui : entry) :
  (forall casefold q,
      snd (get_user_answer casefold q ui) = Some false ->
      submit casefold c ts1 ts2 qid q S_NORMAL ui = inr c' ->
      exists w,
        find_wrong c' qid = Some w /\ last_ts w = ts2 /\
        (find_wrong c qid = None -> streak_correct w = 0%Z /\ added_ts w = ts2) /\
        (forall w0, find_wrong c qid = Some w0 ->
                    streak_correct w = streak_correct w0 /\ added_ts w = added_ts w0)) /\
  (mark_subjective c ts1 ts2 qid S_NORMAL ui false = inr c' ->
   exists w,
     find_wrong c' qid = Some w /\ last_ts w = ts2 /\
     (find_wrong c qid = None -> streak_correct w = 0%Z /\ added_ts w = ts2) /\
     (forall w0, find_wrong c qid = Some w0 ->
                 streak_correct w = streak_correct w0 /\ added_ts w = added_ts w0)).
Proof.
  assert (K : forall ua ic c1,
             record_attempt c ts1 qid ua ic S_NORMAL = inr c1 ->
             add_to_wrongbook c1 ts2 qid = inr c' ->
             exists w,
               find_wrong c' qid = Some w /\ last_ts w = ts2 /\
               (find_wrong c qid = None -> streak_correct w = 0%Z /\ added_ts w = ts2) /\
               (forall w0, find_wrong c qid = Some w0 ->
                           streak_correct w = streak_correct w0 /\
                           added_ts w = added_ts w0)).
  { intros ua ic c1 R A.
    apply record_attempt_inr in R as (_ & Hwb & _ & _ & Hq).
    destruct (add_to_wrongbook_present c1 ts2 Hq A) as (w & F & L & N0 & N1).
    rewrite (@find_wrong_same c c1 qid Hwb) in N0, N1. exists w. auto. }
  split.
  - intros casefold q V. unfold submit.
    destruct (get_user_answer casefold q ui) as [ua ic]. simpl in V. subst ic.
    destruct (record_attempt c ts1 qid ua (Some false) S_NORMAL) as [e|c1] eqn:R;
      [discriminate|].
    rewrite str_eqb_refl. intros A. eapply K; eassumption.
  - unfold mark_subjective.
    destruct (record_attempt c ts1 qid (strip (text_answer ui)) (Some false) S_NORMAL)
      as [e|c1] eqn:R; [discriminate|].
    rewrite str_eqb_refl. cbn [negb]. intros A. eapply K; eassumption.
Qed.

Lemma wrong_answer_enters_wrongbook_witness :
  exists c' w,
    mark_subjective DB_QUESTION (utf8 "t1") (utf8 "t2") 1 S_NORMAL (Entry [] [] [])
                    false = inr c' /\
    find_wrong c' 1 = Some w /\ last_ts w = utf8 "t2".
Proof.
  destruct (mark_subjective DB_QUESTION (utf8 "t1") (utf8 "t2") 1 S_NORMAL
                            (Entry [] [] []) false) as [e|c'] eqn:E.
  - vm_compute in E. discriminate.
  - destruct (proj2 (@wrong_answer_enters_wrongbook DB_QUESTION c' (utf8 "t1") (utf8 "t2")
                       1 (Entry [] [] [])) E) as (w & F & L & _).
    exists c', w. auto.
Defined.

(** ** Finding the analysis *)

Lemma analysis_loop_spec (rem : list str) :
  strip (analysis_loop rem) = analysis_loop rem /\
  (existsb (is_match ANA_MARK) rem = false -> analysis_loop rem = []).
Proof.
  induction rem as [|l tl (I1 & I2)]; [split; reflexivity|].
  cbn [analysis_loop existsb]. destruct (is_match ANA_MARK l).
  - split; [|discriminate].
    destruct (split_colon l) as [|p0 [|p1 [|p2 ps]]]; try apply strip_idem.
    destruct (nonempty (strip p1)); apply strip_idem.
  - split; [exact I1|exact I2].
Qed.

(** [parse_analysis_from_lines] returns a stripped text, and the empty
    text when no line from [start_idx] on starts with an analysis marker or
    when [start_idx] lies beyond the lines. *)
Theorem parse_analysis_from_lines_result (lines : list str) (start_idx : nat) :
  strip (parse_analysis_from_lines lines start_idx)
    = parse_analysis_from_lines lines start_idx /\
  (existsb (is_match ANA_MARK) (skipn start_idx lines) = false ->
   parse_analysis_from_lines lines start_idx = []) /\
  (List.length lines <= start_idx -> parse_analysis_from_lines lines start_idx = []).
Proof.
  unfold parse_analysis_from_lines.
  destruct (analysis_loop_spec (skipn start_idx lines)) as (H1 & H2).
  split; [exact H1|]. split; [exact H2|].
  intros L. now rewrite skipn_all2.
Qed.

Lemma parse_analysis_from_lines_result_witness :
  List.length [utf8 "题目"; utf8 "答案："] <= 3 /\
  parse_analysis_from_lines [utf8 "题目"; utf8 "答案："] 3 = [].
Proof.
  assert (H : List.length [utf8 "题目"; utf8 "答案："] <= 3) by (simpl; lia).
  split; [exact H|].
  exact (proj2 (proj2 (parse_analysis_from_lines_result [utf8 "题目"; utf8 "答案："] 3)) H).
Defined.
